(** * A shallow embedding of [advanced-vector/vector.h]

    The header defines two class templates: [RawMemory<T>], an owner of a
    raw, uninitialised buffer, and [Vector<T>], a growable array built on
    it with placement construction.  The embedding keeps the program's own
    structure:

    - raw buffers live in a heap of blocks; a block is a list of slots, a
      slot is [None] (raw storage) or [Some x] (a live object of value [x]);
    - a [T*] is [nullptr] or a block identifier with a slot offset;
    - [size_t] is [N] with its 64-bit wrap-around written out;
    - the element type is a parameter, with the traits the templates
      inspect gathered in a class;
    - a method is a function in a state-and-fault monad over the heap.  A
      fault ([None]) is undefined behaviour or a failed [assert]: an access
      outside a block, the use of raw storage as an object.

    Element operations are taken not to throw and [operator new] to
    succeed with a block of the size asked for; the exception paths of the
    header are outside the model, and so is a request whose byte count
    [n * sizeof(T)] wraps around (what is stated of a caller's [n]
    assumes [fits n]). *)

From stdpp Require Import base option list gmap numbers strings.

Set Default Proof Using "Type".

(** ** Pointers *)

Inductive pointer : Type :=
  | nullptr
  | Ptr (b : N) (o : nat).

Global Instance pointer_eq_dec : EqDecision pointer.
Proof. solve_decision. Defined.

(** [p + k] for a number of slots [k].  The header adds to a null pointer
    only where the vector has no block, and then adds 0. *)
Definition ptr_shift (p : pointer) (k : nat) : pointer :=
  match p with
  | nullptr => nullptr
  | Ptr b o => Ptr b (o + k)
  end.

(** [p + n] for a [size_t] operand. *)
Definition ptr_add (p : pointer) (n : N) : pointer := ptr_shift p (N.to_nat n).

(** [p - 1]; stepping below the start of a block is a fault. *)
Definition ptr_prev (p : pointer) : option pointer :=
  match p with
  | nullptr => None
  | Ptr b 0 => None
  | Ptr b (S o) => Some (Ptr b o)
  end.

(** [p <= q] and [p < q]: pointers into different blocks do not compare. *)
Definition ptr_le (p q : pointer) : bool :=
  match p, q with
  | nullptr, nullptr => true
  | Ptr b o, Ptr b' o' => bool_decide (b = b') && bool_decide (o ≤ o')
  | _, _ => false
  end.

Definition ptr_lt (p q : pointer) : bool :=
  match p, q with
  | Ptr b o, Ptr b' o' => bool_decide (b = b') && bool_decide (o < o')
  | _, _ => false
  end.

(** [p - q], for [q <= p] in one block. *)
Definition ptr_diff (p q : pointer) : option nat :=
  match p, q with
  | nullptr, nullptr => Some 0
  | Ptr b o, Ptr b' o' =>
      if bool_decide (b = b' ∧ o' ≤ o) then Some (o - o') else None
  | _, _ => None
  end.

Infix "+ₚ" := ptr_add (at level 50, left associativity).

(** ** [size_t] *)

Definition size_modulus : N := 2 ^ 64.

(** The value a [size_t] expression takes after wrap-around. *)
Definition size_t (n : N) : N := (n mod size_modulus)%N.

(** [a + b], [a - b] and [a * b] on [size_t] operands. *)
Definition size_add (a b : N) : N := size_t (a + b).
Definition size_sub (a b : N) : N := size_t (a + size_modulus - b).
Definition size_mul (a b : N) : N := size_t (a * b).

(** ** Raw storage

    A slot of raw storage is [None] or holds a live object; the heap maps
    the identifier of each allocated block to its slots. *)

Abbreviation slot T := (option T) (only parsing).

Abbreviation heap T := (gmap N (list (option T))) (only parsing).

(** ** The element type

    What the templates need to know of [T]: the state a move constructor
    or a move assignment leaves its source in, the value of a
    value-initialised element [T()], the compile-time condition
    [std::is_nothrow_move_constructible_v<T> || !std::is_copy_constructible_v<T>]
    under which elements are relocated by move rather than by copy, and
    [sizeof(T)], which is at least 1. *)

Class ElementType (T : Type) : Type := {
  moved : T → T;
  value_init : T;
  relocate_by_move : bool;
  sizeof_T : positive
}.

Section vector.

Context `{ElementType T}.

(** ** The heap and the monad *)

Definition M (A : Type) : Type := heap T → option (A * heap T).

Definition ret {A} (a : A) : M A := λ h, Some (a, h).

Definition bind {A B} (m : M A) (k : A → M B) : M B :=
  λ h, match m h with
       | Some (a, h') => k a h'
       | None => None
       end.

Definition fault {A} : M A := λ _, None.

Definition lift {A} (o : option A) : M A :=
  λ h, match o with Some a => Some (a, h) | None => None end.

Definition assert (c : bool) : M unit := if c then ret tt else fault.

Global Instance M_ret : MRet M := @ret.
Global Instance M_bind : MBind M := λ A B k m, bind m k.

(** ** Objects in raw storage *)

(** The value of the live object at [p]. *)
Definition load (p : pointer) : M T :=
  λ h, match p with
       | nullptr => None
       | Ptr b o =>
           match h !! b with
           | Some cells =>
               match cells !! o with
               | Some (Some x) => Some (x, h)
               | _ => None
               end
           | None => None
           end
       end.

(** Overwrite the slot at [p], which has to lie inside its block. *)
Definition write_slot (p : pointer) (s : slot T) : M unit :=
  λ h, match p with
       | nullptr => None
       | Ptr b o =>
           match h !! b with
           | Some cells =>
               if decide (o < length cells)
               then Some (tt, <[b := <[o := s]> cells]> h)
               else None
           | None => None
           end
       end.

(** [new (p) T(...)] building the value [x]. *)
Definition construct_at (p : pointer) (x : T) : M unit := write_slot p (Some x).

(** [std::destroy_at(p)]: ends the life of the object at [p].  The slot is
    raw storage afterwards for every element type; where the destructor of
    [T] is trivial the program leaves the value in place, so the model
    allows fewer reads than the program does. *)
Definition destroy_at (p : pointer) : M unit :=
  _ ← load p; write_slot p None.

(** Give the live object at [p] the value [x]. *)
Definition assign (p : pointer) (x : T) : M unit :=
  _ ← load p; write_slot p (Some x).

(** Placement copy construction at [dst] from the object at [src]. *)
Definition copy_construct (dst src : pointer) : M unit :=
  x ← load src; construct_at dst x.

(** Placement move construction at [dst] from the object at [src]. *)
Definition move_construct (dst src : pointer) : M unit :=
  x ← load src; assign src (moved x) ;; construct_at dst x.

(** Copy assignment of the object at [src] to the object at [dst]. *)
Definition copy_assign (dst src : pointer) : M unit :=
  x ← load src; assign dst x.

(** Move assignment of the object at [src] to the object at [dst]. *)
Definition move_assign (dst src : pointer) : M unit :=
  x ← load src; assign src (moved x) ;; assign dst x.

(** What a constructor call [T(std::forward<Args>(args)...)] is given:
    arguments that build the value [x], a [const T&] or a [T&&]. *)
Inductive ctor_args : Type :=
  | FromArgs (x : T)
  | FromCopy (src : pointer)
  | FromMove (src : pointer).

(** The value the constructor builds from its arguments; a [T&&] argument
    is left in its moved-from state. *)
Definition forward_args (args : ctor_args) : M T :=
  match args with
  | FromArgs x => mret x
  | FromCopy src => load src
  | FromMove src => x ← load src; assign src (moved x);; mret x
  end.

(** [new (dst) T(std::forward<Args>(args)...)] *)
Definition construct_from (dst : pointer) (args : ctor_args) : M unit :=
  x ← forward_args args; construct_at dst x.

(** ** The algorithms of <memory> and <algorithm> the header calls *)

Fixpoint uninitialized_value_construct_loop (first : pointer) (n : nat) : M unit :=
  match n with
  | 0 => ret tt
  | S n' =>
      construct_at first value_init ;;
      uninitialized_value_construct_loop (ptr_shift first 1) n'
  end.

Definition uninitialized_value_construct_n (first : pointer) (n : N) : M unit :=
  uninitialized_value_construct_loop first (N.to_nat n).

Fixpoint uninitialized_copy_loop (first : pointer) (n : nat) (d_first : pointer) : M unit :=
  match n with
  | 0 => ret tt
  | S n' =>
      copy_construct d_first first ;;
      uninitialized_copy_loop (ptr_shift first 1) n' (ptr_shift d_first 1)
  end.

Definition uninitialized_copy_n (first : pointer) (n : N) (d_first : pointer) : M unit :=
  uninitialized_copy_loop first (N.to_nat n) d_first.

Fixpoint uninitialized_move_loop (first : pointer) (n : nat) (d_first : pointer) : M unit :=
  match n with
  | 0 => ret tt
  | S n' =>
      move_construct d_first first ;;
      uninitialized_move_loop (ptr_shift first 1) n' (ptr_shift d_first 1)
  end.

Definition uninitialized_move_n (first : pointer) (n : N) (d_first : pointer) : M unit :=
  uninitialized_move_loop first (N.to_nat n) d_first.

Fixpoint destroy_loop (first : pointer) (n : nat) : M unit :=
  match n with
  | 0 => ret tt
  | S n' => destroy_at first ;; destroy_loop (ptr_shift first 1) n'
  end.

Definition destroy_n (first : pointer) (n : N) : M unit :=
  destroy_loop first (N.to_nat n).

Fixpoint copy_loop (first : pointer) (n : nat) (d_first : pointer) : M unit :=
  match n with
  | 0 => ret tt
  | S n' =>
      copy_assign d_first first ;;
      copy_loop (ptr_shift first 1) n' (ptr_shift d_first 1)
  end.

(** [std::copy(first, last, d_first)] *)
Definition std_copy (first last d_first : pointer) : M unit :=
  n ← lift (ptr_diff last first); copy_loop first n d_first.

Fixpoint move_loop (first : pointer) (n : nat) (d_first : pointer) : M unit :=
  match n with
  | 0 => ret tt
  | S n' =>
      move_assign d_first first ;;
      move_loop (ptr_shift first 1) n' (ptr_shift d_first 1)
  end.

(** [std::move(first, last, d_first)], the algorithm. *)
Definition std_move (first last d_first : pointer) : M unit :=
  n ← lift (ptr_diff last first); move_loop first n d_first.

Fixpoint move_backward_loop (last : pointer) (n : nat) (d_last : pointer) : M unit :=
  match n with
  | 0 => ret tt
  | S n' =>
      last' ← lift (ptr_prev last);
      d_last' ← lift (ptr_prev d_last);
      move_assign d_last' last' ;;
      move_backward_loop last' n' d_last'
  end.

(** [std::move_backward(first, last, d_last)] *)
Definition move_backward (first last d_last : pointer) : M unit :=
  n ← lift (ptr_diff last first); move_backward_loop last n d_last.

(** ** [RawMemory<T>] *)

Record RawMemory : Type := mkRawMemory {
  buffer_ : pointer;
  capacity_ : N
}.

(** The byte count [n * sizeof(T)] of a request for [n] elements is a
    [size_t], so the block [operator new] returns has room for all [n]. *)
Definition fits (n : N) : Prop := (n * N.pos sizeof_T < size_modulus)%N.

(** The number of elements the block of [n * sizeof(T)] bytes, the product
    taken in [size_t], has room for. *)
Definition requested_slots (n : N) : N := (size_t (n * N.pos sizeof_T) / N.pos sizeof_T)%N.

(** [operator new(n * sizeof(T))] hands out a block of [n] raw slots that is
    in use by nobody else.  This is the block of a request that [fits];
    the model does not follow the header where the product wraps around
    and the block is smaller than asked for.  A statement about a
    caller's [n] therefore assumes [fits n]; the capacities the class
    computes itself, by doubling, wrap only from a live block of [2^63]
    bytes. *)
Definition Allocate (n : N) : M pointer :=
  if (n =? 0)%N then ret nullptr
  else λ h, let b := fresh (dom h) in
            Some (Ptr b 0, <[b := replicate (N.to_nat n) None]> h).

(** [operator delete(buf)] *)
Definition Deallocate (buf : pointer) : M unit :=
  match buf with
  | nullptr => ret tt
  | Ptr b 0 => λ h, match h !! b with
                    | Some _ => Some (tt, delete b h)
                    | None => None
                    end
  | Ptr _ (S _) => fault
  end.

(** [RawMemory() = default] *)
Definition RawMemory_default : RawMemory :=
  {| buffer_ := nullptr; capacity_ := 0 |}.

(** [explicit RawMemory(size_t capacity)] *)
Definition RawMemory_new (capacity : N) : M RawMemory :=
  buf ← Allocate capacity;
  ret {| buffer_ := buf; capacity_ := capacity |}.

(** [~RawMemory()] *)
Definition RawMemory_destroy (this : RawMemory) : M unit :=
  Deallocate (buffer_ this).

(** [RawMemory(RawMemory&& other)]: the new object and what is left of
    [other]. *)
Definition RawMemory_move (other : RawMemory) : RawMemory * RawMemory :=
  ({| buffer_ := buffer_ other; capacity_ := capacity_ other |},
   {| buffer_ := nullptr; capacity_ := 0 |}).

(** [RawMemory& operator=(RawMemory&& rhs) noexcept]: both objects
    afterwards.  The two addresses stand for [this] and [&rhs]; the heap is
    threaded through because the operator could release a block, and does
    not. *)
Definition RawMemory_move_assign (this_addr rhs_addr : N) (this rhs : RawMemory)
    : M (RawMemory * RawMemory) :=
  if bool_decide (this_addr ≠ rhs_addr) then
    mret ({| buffer_ := buffer_ rhs; capacity_ := capacity_ rhs |},
          {| buffer_ := nullptr; capacity_ := 0 |})
  else mret (this, rhs).

(** [T* operator+(size_t offset)] *)
Definition RawMemory_plus (this : RawMemory) (offset : N) : M pointer :=
  assert (offset <=? capacity_ this)%N ;;
  ret (buffer_ this +ₚ offset).

(** [T& operator[](size_t index)]; the reference is the slot's address. *)
Definition RawMemory_index (this : RawMemory) (index : N) : M pointer :=
  assert (index <? capacity_ this)%N ;;
  ret (buffer_ this +ₚ index).

(** [void Swap(RawMemory& other)]: the two objects after the exchange. *)
Definition RawMemory_Swap (this other : RawMemory) : RawMemory * RawMemory :=
  ({| buffer_ := buffer_ other; capacity_ := capacity_ other |},
   {| buffer_ := buffer_ this; capacity_ := capacity_ this |}).

Definition GetAddress (this : RawMemory) : pointer := buffer_ this.

Definition RawMemory_Capacity (this : RawMemory) : N := capacity_ this.

(** ** [Vector<T>] *)

Record Vector : Type := mkVector {
  data_ : RawMemory;
  size_ : N
}.

Definition begin (this : Vector) : pointer := GetAddress (data_ this).

Definition end_ (this : Vector) : pointer :=
  GetAddress (data_ this) +ₚ size_ this.

Definition cbegin (this : Vector) : pointer := GetAddress (data_ this).

Definition cend (this : Vector) : pointer :=
  GetAddress (data_ this) +ₚ size_ this.

(** [Vector() = default] *)
Definition Vector_default : Vector :=
  {| data_ := RawMemory_default; size_ := 0 |}.

(** [explicit Vector(size_t size)] *)
Definition Vector_sized (size : N) : M Vector :=
  data ← RawMemory_new size;
  uninitialized_value_construct_n (GetAddress data) size;;
  mret {| data_ := data; size_ := size |}.

(** [Vector(const Vector& other)] *)
Definition Vector_copy (other : Vector) : M Vector :=
  data ← RawMemory_new (size_ other);
  uninitialized_copy_n (GetAddress (data_ other)) (size_ other) (GetAddress data);;
  mret {| data_ := data; size_ := size_ other |}.

(** [Vector(Vector&& other)]: the new vector and what is left of [other]. *)
Definition Vector_move (other : Vector) : Vector * Vector :=
  let '(data, other_data) := RawMemory_move (data_ other) in
  ({| data_ := data; size_ := size_ other |},
   {| data_ := other_data; size_ := 0 |}).

(** [~Vector()], followed by the destructor of the member [data_]. *)
Definition Vector_destroy (this : Vector) : M unit :=
  destroy_n (GetAddress (data_ this)) (size_ this);;
  RawMemory_destroy (data_ this).

Definition Size (this : Vector) : N := size_ this.

Definition Capacity (this : Vector) : N := RawMemory_Capacity (data_ this).

(** [void Swap(Vector& other)]: the two vectors after the exchange. *)
Definition Swap (this other : Vector) : Vector * Vector :=
  let '(data, other_data) := RawMemory_Swap (data_ this) (data_ other) in
  ({| data_ := data; size_ := size_ other |},
   {| data_ := other_data; size_ := size_ this |}).

(** The relocation every growing method performs: [n] elements from
    [first] to [d_first], by move or by copy as the [if constexpr]
    selects. *)
Definition relocate_n (first : pointer) (n : N) (d_first : pointer) : M unit :=
  if relocate_by_move
  then uninitialized_move_n first n d_first
  else uninitialized_copy_n first n d_first.

(** [void Reserve(size_t new_capacity)] *)
Definition Reserve (this : Vector) (new_capacity : N) : M Vector :=
  if (new_capacity <=? RawMemory_Capacity (data_ this))%N then mret this
  else
    new_data ← RawMemory_new new_capacity;
    relocate_n (GetAddress (data_ this)) (size_ this) (GetAddress new_data);;
    destroy_n (GetAddress (data_ this)) (size_ this);;
    let '(data, new_data) := RawMemory_Swap (data_ this) new_data in
    RawMemory_destroy new_data;;
    mret {| data_ := data; size_ := size_ this |}.

(** [void Resize(size_t new_size)] *)
Definition Resize (this : Vector) (new_size : N) : M Vector :=
  this ← (if (new_size <? size_ this)%N then
            destroy_n (GetAddress (data_ this) +ₚ new_size)
                      (size_sub (size_ this) new_size);;
            mret this
          else
            this ← (if (RawMemory_Capacity (data_ this) <? new_size)%N then
                      let new_capacity :=
                        N.max (size_mul (RawMemory_Capacity (data_ this)) 2) new_size in
                      Reserve this new_capacity
                    else mret this);
            uninitialized_value_construct_n
              (GetAddress (data_ this) +ₚ size_ this)
              (size_sub new_size (size_ this));;
            mret this);
  mret {| data_ := data_ this; size_ := new_size |}.

(** The capacity of the block a growing append or emplace allocates:
    [size_ == 0 ? 1 : size_ * 2]. *)
Definition grown_capacity (size : N) : N :=
  if (size =? 0)%N then 1%N else size_mul size 2.

(** [void PushBack(const T& value)]; [value] is the address of the
    referenced object. *)
Definition PushBack (this : Vector) (value : pointer) : M Vector :=
  this ← (if (size_ this =? Capacity this)%N then
            new_data ← RawMemory_new (grown_capacity (size_ this));
            uninitialized_copy_n value 1 (GetAddress new_data +ₚ size_ this);;
            relocate_n (GetAddress (data_ this)) (size_ this) (GetAddress new_data);;
            destroy_n (GetAddress (data_ this)) (size_ this);;
            let '(data, new_data) := RawMemory_Swap (data_ this) new_data in
            RawMemory_destroy new_data;;
            mret {| data_ := data; size_ := size_ this |}
          else
            dst ← RawMemory_plus (data_ this) (size_ this);
            copy_construct dst value;;
            mret this);
  mret {| data_ := data_ this; size_ := size_add (size_ this) 1 |}.

(** [void PushBack(T&& value)] *)
Definition PushBack_move (this : Vector) (value : pointer) : M Vector :=
  this ← (if (size_ this =? Capacity this)%N then
            new_data ← RawMemory_new (grown_capacity (size_ this));
            uninitialized_move_n value 1 (GetAddress new_data +ₚ size_ this);;
            relocate_n (GetAddress (data_ this)) (size_ this) (GetAddress new_data);;
            destroy_n (GetAddress (data_ this)) (size_ this);;
            let '(data, new_data) := RawMemory_Swap (data_ this) new_data in
            RawMemory_destroy new_data;;
            mret {| data_ := data; size_ := size_ this |}
          else
            dst ← RawMemory_plus (data_ this) (size_ this);
            move_construct dst value;;
            mret this);
  mret {| data_ := data_ this; size_ := size_add (size_ this) 1 |}.

(** [void PopBack() noexcept] *)
Definition PopBack (this : Vector) : M Vector :=
  if (0 <? size_ this)%N then
    last ← lift (ptr_prev (GetAddress (data_ this) +ₚ size_ this));
    destroy_at last;;
    mret {| data_ := data_ this; size_ := size_sub (size_ this) 1 |}
  else mret this.

(** [Vector& operator=(const Vector& other)].  The two addresses stand for
    [this] and [&other]; the method returns the assigned-to vector. *)
Definition Vector_assign (this_addr other_addr : N) (this other : Vector) : M Vector :=
  if bool_decide (this_addr ≠ other_addr) then
    if (size_ other <=? RawMemory_Capacity (data_ this))%N then
      (if (size_ this <=? size_ other)%N then
         std_copy (GetAddress (data_ other))
                  (GetAddress (data_ other) +ₚ size_ this)
                  (GetAddress (data_ this));;
         uninitialized_copy_n (GetAddress (data_ other) +ₚ size_ this)
                              (size_sub (size_ other) (size_ this))
                              (GetAddress (data_ this) +ₚ size_ this)
       else
         std_copy (GetAddress (data_ other))
                  (GetAddress (data_ other) +ₚ size_ other)
                  (GetAddress (data_ this));;
         destroy_n (GetAddress (data_ this) +ₚ size_ other)
                   (size_sub (size_ this) (size_ other)));;
      mret {| data_ := data_ this; size_ := size_ other |}
    else
      other_copy ← Vector_copy other;
      let '(this, other_copy) := Swap this other_copy in
      Vector_destroy other_copy;;
      mret this
  else mret this.

(** [Vector& operator=(Vector&& other) noexcept]: both vectors afterwards. *)
Definition Vector_move_assign (this other : Vector) : Vector * Vector :=
  Swap this other.

(** [T& operator[](size_t index) noexcept] *)
Definition Vector_index (this : Vector) (index : N) : M pointer :=
  assert (index <? size_ this)%N;;
  RawMemory_index (data_ this) index.

(** [T& EmplaceBack(Args&&... args)]: the vector afterwards and the
    reference to the new element. *)
Definition EmplaceBack (this : Vector) (args : ctor_args) : M (Vector * pointer) :=
  '(this, result) ←
    (if (size_ this =? Capacity this)%N then
       new_data ← RawMemory_new (grown_capacity (size_ this));
       result ← RawMemory_plus new_data (size_ this);
       construct_from result args;;
       relocate_n (GetAddress (data_ this)) (size_ this) (GetAddress new_data);;
       destroy_n (GetAddress (data_ this)) (size_ this);;
       let '(data, new_data) := RawMemory_Swap (data_ this) new_data in
       RawMemory_destroy new_data;;
       mret ({| data_ := data; size_ := size_ this |}, result)
     else
       result ← RawMemory_plus (data_ this) (size_ this);
       construct_from result args;;
       mret (this, result));
  mret ({| data_ := data_ this; size_ := size_add (size_ this) 1 |}, result).

(** [iterator Emplace(const_iterator pos, Args&&... args)] *)
Definition Emplace (this : Vector) (pos : pointer) (args : ctor_args)
    : M (Vector * pointer) :=
  assert (ptr_le (begin this) pos && ptr_le pos (end_ this));;
  d ← lift (ptr_diff pos (begin this));
  let shift := N.of_nat d in
  '(this, result) ←
    (if (size_ this =? Capacity this)%N then
       new_data ← RawMemory_new (grown_capacity (size_ this));
       result ← RawMemory_plus new_data shift;
       construct_from result args;;
       relocate_n (GetAddress (data_ this)) shift (GetAddress new_data);;
       relocate_n (GetAddress (data_ this) +ₚ shift)
                  (size_sub (size_ this) shift)
                  (GetAddress new_data +ₚ shift +ₚ 1);;
       destroy_n (begin this) (size_ this);;
       let '(data, new_data) := RawMemory_Swap (data_ this) new_data in
       RawMemory_destroy new_data;;
       mret ({| data_ := data; size_ := size_ this |}, result)
     else
       (if negb (size_ this =? 0)%N then
          dst ← RawMemory_plus (data_ this) (size_ this);
          src ← lift (ptr_prev (GetAddress (data_ this) +ₚ size_ this));
          move_construct dst src;;
          move_backward (begin this +ₚ shift)
                        (GetAddress (data_ this) +ₚ size_ this)
                        (GetAddress (data_ this) +ₚ size_ this +ₚ 1);;
          destroy_at (begin this +ₚ shift)
        else mret tt);;
       result ← RawMemory_plus (data_ this) shift;
       construct_from result args;;
       mret (this, result));
  mret ({| data_ := data_ this; size_ := size_add (size_ this) 1 |}, result).

(** [iterator Erase(const_iterator pos)] *)
Definition Erase (this : Vector) (pos : pointer) : M (Vector * pointer) :=
  assert (ptr_le (begin this) pos && ptr_lt pos (end_ this));;
  d ← lift (ptr_diff pos (begin this));
  let shift := N.of_nat d in
  std_move (begin this +ₚ shift +ₚ 1) (end_ this) (begin this +ₚ shift);;
  this ← PopBack this;
  mret (this, begin this +ₚ shift).

(** [iterator Insert(const_iterator pos, const T& value)] *)
Definition Insert (this : Vector) (pos : pointer) (value : pointer)
    : M (Vector * pointer) :=
  Emplace this pos (FromCopy value).

(** [iterator Insert(const_iterator pos, T&& value)] *)
Definition Insert_move (this : Vector) (pos : pointer) (value : pointer)
    : M (Vector * pointer) :=
  Emplace this pos (FromMove value).

End vector.

(** ** The abstraction: the elements a vector holds

    [block_of h p] is the block a buffer pointer owns: the null pointer owns
    the empty block.  [is_vector h v es] says that in the heap [h] the
    vector [v] holds exactly the elements [es]: its block has [Capacity v]
    slots, the first [Size v] of them are the live objects [es] and the
    others are raw storage. *)

Section abstraction.

Context {T : Type}.

Definition block_of (h : heap T) (p : pointer) : option (list (slot T)) :=
  match p with
  | nullptr => Some []
  | Ptr b 0 => h !! b
  | Ptr _ (S _) => None
  end.

Definition layout (es : list T) (capacity : N) : list (slot T) :=
  (Some <$> es) ++ replicate (N.to_nat capacity - length es) None.

Definition is_vector (h : heap T) (v : Vector) (es : list T) : Prop :=
  block_of h (buffer_ (data_ v)) = Some (layout es (capacity_ (data_ v)))
  ∧ size_ v = N.of_nat (length es)
  ∧ (size_ v ≤ capacity_ (data_ v))%N
  ∧ (capacity_ (data_ v) < size_modulus)%N.

(** The heap with the block of the buffer [p] replaced, and with it freed. *)
Definition set_block (p : pointer) (cells : list (slot T)) (h : heap T) : heap T :=
  match p with
  | Ptr b 0 => <[b := cells]> h
  | _ => h
  end.

Definition free_block (p : pointer) (h : heap T) : heap T :=
  match p with
  | Ptr b 0 => delete b h
  | _ => h
  end.

(** The buffer [operator new] returns for [n] slots in the heap [h]. *)
Definition new_buffer (h : heap T) (n : N) : pointer :=
  if (n =? 0)%N then nullptr else Ptr (fresh (dom h)) 0.

(** Two pointers into no common block. *)
Definition separate (p q : pointer) : Prop :=
  ∀ b o o', p = Ptr b o → q ≠ Ptr b o'.

(** The object a constructor argument refers to, if it refers to one. *)
Definition args_source (args : @ctor_args T) : option pointer :=
  match args with
  | FromArgs _ => None
  | FromCopy src | FromMove src => Some src
  end.

(** What a method of a vector with buffer [p] leaves alone: every block
    apart from the vector's own is as before, and apart from the block the
    vector has afterwards. *)
Definition frame (h : heap T) (p : pointer) (h' : heap T) (p' : pointer) : Prop :=
  ∀ q cells,
    block_of h q = Some cells → separate p q →
    block_of h' q = Some cells ∧ separate p' q.

(** The two shapes the result of a method takes, over the heap [ha] its
    arguments leave: the vector's block rewritten in place, or the vector
    moved to the new block [b] and its old block freed. *)
Definition updated (ha : heap T) (p : pointer) (b : N) (h' : heap T) (v' : Vector)
    : Prop :=
  (∃ cells, h' = set_block p cells ha ∧ buffer_ (data_ v') = p)
  ∨ (∃ cells, h' = free_block p (<[b := cells]> ha)
              ∧ buffer_ (data_ v') = Ptr b 0).

(** The outcome of a method: the vector holds some elements again, and
    the rest of the heap is untouched. *)
Definition step_ok (h : heap T) (v : Vector) (h' : heap T) (v' : Vector) : Prop :=
  (∃ es, is_vector h' v' es)
  ∧ frame h (buffer_ (data_ v)) h' (buffer_ (data_ v')).

(** Where the blocks of the heap [h'] a method leaves come from: each is
    the block the vector has afterwards, or a block of [h] other than the
    one the vector had. *)
Definition accounted (h : heap T) (p : pointer) (h' : heap T) (p' : pointer) : Prop :=
  ∀ b, is_Some (h' !! b) → p' = Ptr b 0 ∨ (is_Some (h !! b) ∧ p ≠ Ptr b 0).

(** A call [f(T(x))]: the temporary is materialised in a block of its own,
    handed to [f] by address and destroyed when the call returns. *)
Definition with_temporary {A} (x : T) (f : pointer → M A) : M A :=
  tmp ← Allocate 1;
  construct_at tmp x;;
  r ← f tmp;
  destroy_at tmp;;
  Deallocate tmp;;
  mret r.

End abstraction.

Section element_states.

Context `{ElementType T}.

(** What the slot next to a range shifted by one holds afterwards: its old
    value [a] when the range is empty, else the moved-from state of the
    element that left it. *)
Definition left_behind (a : T) (leaving : option T) : T :=
  from_option moved a leaving.

(** A list of elements with the last one in its moved-from state. *)
Fixpoint last_moved (es : list T) : list T :=
  match es with
  | [] => []
  | e :: es' =>
      match es' with
      | [] => [moved e]
      | _ :: _ => e :: last_moved es'
      end
  end.

(** The state relocation leaves a source element in. *)
Definition relocated (x : T) : T := if relocate_by_move then moved x else x.

End element_states.

(** ** Programs over several vectors

    A world is a set of named vector objects and the heap their blocks
    live in.  The name of an object stands for its address: it is what
    [this != &other] compares.  A call is one use of the public interface
    by client code, with element arguments passed as temporaries and
    positions as offsets from [begin()]. *)

Section program.

Context `{ElementType T}.

Record world : Type := mkWorld {
  vectors : gmap N Vector;
  memory : heap T
}.

Inductive call : Type :=
  | Construct (a : N)
  | ConstructSized (a : N) (n : N)
  | ConstructCopy (a o : N)
  | ConstructMove (a o : N)
  | Destroy (a : N)
  | CallReserve (a : N) (n : N)
  | CallResize (a : N) (n : N)
  | CallPushBack (a : N) (x : T)
  | CallPushBackElement (a o : N) (j : N)
  | CallPushBackMove (a : N) (x : T)
  | CallPopBack (a : N)
  | CallEmplaceBack (a : N) (x : T)
  | CallEmplace (a : N) (i : N) (x : T)
  | CallInsert (a : N) (i : N) (x : T)
  | CallInsertMove (a : N) (i : N) (x : T)
  | CallErase (a : N) (i : N)
  | CallAssign (a o : N)
  | CallMoveAssign (a o : N)
  | CallSwap (a o : N).

(** A method of the object [a] that leaves the object in a new state. *)
Definition on_vector (a : N) (f : Vector → M Vector) (w : world) : option world :=
  v ← vectors w !! a;
  '(v', h') ← f v (memory w);
  Some {| vectors := <[a := v']> (vectors w); memory := h' |}.

(** A newly declared object [a]. *)
Definition declare (a : N) (f : M Vector) (w : world) : option world :=
  match vectors w !! a with
  | Some _ => None
  | None =>
      '(v, h') ← f (memory w);
      Some {| vectors := <[a := v]> (vectors w); memory := h' |}
  end.

(** A method of [a] that takes the object [o] by reference and returns the
    states of both. *)
Definition on_vectors (a o : N) (f : Vector → Vector → Vector * Vector)
    (w : world) : option world :=
  va ← vectors w !! a;
  vo ← vectors w !! o;
  let '(va', vo') := f va vo in
  Some {| vectors := <[a := va']> (<[o := vo']> (vectors w)); memory := memory w |}.

Definition exec (c : call) (w : world) : option world :=
  match c with
  | Construct a => declare a (mret Vector_default) w
  | ConstructSized a n =>
      if (n <? size_modulus)%N then declare a (Vector_sized n) w else None
  | ConstructCopy a o =>
      vo ← vectors w !! o; declare a (Vector_copy vo) w
  | ConstructMove a o =>
      vo ← vectors w !! o;
      let '(v, vo') := Vector_move vo in
      declare a (mret v)
        {| vectors := <[o := vo']> (vectors w); memory := memory w |}
  | Destroy a =>
      v ← vectors w !! a;
      '(_, h') ← Vector_destroy v (memory w);
      Some {| vectors := delete a (vectors w); memory := h' |}
  | CallReserve a n =>
      if (n <? size_modulus)%N then on_vector a (λ v, Reserve v n) w else None
  | CallResize a n =>
      if (n <? size_modulus)%N then on_vector a (λ v, Resize v n) w else None
  | CallPushBack a x => on_vector a (λ v, with_temporary x (PushBack v)) w
  | CallPushBackElement a o j =>
      vo ← vectors w !! o;
      on_vector a (λ v, value ← Vector_index vo j; PushBack v value) w
  | CallPushBackMove a x => on_vector a (λ v, with_temporary x (PushBack_move v)) w
  | CallPopBack a => on_vector a PopBack w
  | CallEmplaceBack a x =>
      on_vector a (λ v, '(v', _) ← EmplaceBack v (FromArgs x); mret v') w
  | CallEmplace a i x =>
      on_vector a (λ v, '(v', _) ← Emplace v (begin v +ₚ i) (FromArgs x); mret v') w
  | CallInsert a i x =>
      on_vector a (λ v, with_temporary x (λ value,
                     '(v', _) ← Insert v (begin v +ₚ i) value; mret v')) w
  | CallInsertMove a i x =>
      on_vector a (λ v, with_temporary x (λ value,
                     '(v', _) ← Insert_move v (begin v +ₚ i) value; mret v')) w
  | CallErase a i =>
      on_vector a (λ v, '(v', _) ← Erase v (begin v +ₚ i); mret v') w
  | CallAssign a o =>
      vo ← vectors w !! o;
      on_vector a (λ v, Vector_assign a o v vo) w
  | CallMoveAssign a o => on_vectors a o Vector_move_assign w
  | CallSwap a o => on_vectors a o Swap w
  end.

(** The worlds a program can reach from a heap that holds no vector. *)
Inductive reachable : world → Prop :=
  | reachable_start h : reachable {| vectors := ∅; memory := h |}
  | reachable_step w c w' : reachable w → exec c w = Some w' → reachable w'.

(** Every object holds some list of elements, and no two objects share a
    block. *)
Definition wf_world (w : world) : Prop :=
  (∀ a v, vectors w !! a = Some v → ∃ es, is_vector (memory w) v es)
  ∧ (∀ a1 a2 v1 v2,
        a1 ≠ a2 → vectors w !! a1 = Some v1 → vectors w !! a2 = Some v2 →
        separate (buffer_ (data_ v1)) (buffer_ (data_ v2))).

(** The invariant of the class: no object holds more elements than its
    block has room for. *)
Definition length_within_capacity (w : world) : Prop :=
  ∀ a v, vectors w !! a = Some v → (0 ≤ Size v ≤ Capacity v)%N.

(** The capacity every object records is a [size_t], as the member
    [capacity_] is. *)
Definition size_t_fields (w : world) : Prop :=
  ∀ a v, vectors w !! a = Some v → (Capacity v < size_modulus)%N.

(** The two together, of one object. *)
Definition in_bounds (v : Vector) : Prop :=
  (Size v ≤ Capacity v)%N ∧ (Capacity v < size_modulus)%N.

(** Every allocated block is the buffer of some object. *)
Definition no_garbage (w : world) : Prop :=
  ∀ b, is_Some (memory w !! b) →
       ∃ a v, vectors w !! a = Some v ∧ buffer_ (data_ v) = Ptr b 0.

(** The buffer of every object is an allocated block or null. *)
Definition no_dangling (w : world) : Prop :=
  ∀ a v, vectors w !! a = Some v →
         buffer_ (data_ v) = nullptr
         ∨ ∃ b, buffer_ (data_ v) = Ptr b 0 ∧ is_Some (memory w !! b).

(** A loop of appends: [for (auto& x : xs) v.EmplaceBack(x);]. *)
Fixpoint EmplaceBack_each (this : Vector) (xs : list T) : M Vector :=
  match xs with
  | [] => mret this
  | x :: xs' =>
      '(this, _) ← EmplaceBack this (FromArgs x);
      EmplaceBack_each this xs'
  end.

(** The capacity appends alone lead to: none for an empty vector, else a
    power of two below twice the length. *)
Definition doubled (v : Vector) : Prop :=
  (Size v = 0%N ∧ Capacity v = 0%N)
  ∨ ∃ k : N, Capacity v = (2 ^ k)%N ∧ (Capacity v < 2 * Size v)%N.

(** A program: calls run one after the other, stopping at the first that
    faults. *)
Fixpoint run (cs : list call) (w : world) : option world :=
  match cs with
  | [] => Some w
  | c :: cs' => w' ← exec c w; run cs' w'
  end.

End program.

(** ** Element types of the examples *)

(** [int]: a moved-from [int] keeps its value. *)
Global Instance int_element : ElementType Z :=
  {| moved := λ x, x; value_init := 0%Z; relocate_by_move := true;
     sizeof_T := 4 |}.

(** [std::unique_ptr<int>], as the integer it owns or [None] for the null
    pointer: a moved-from pointer is null, and the type cannot be copied. *)
Global Instance unique_ptr_element : ElementType (option Z) :=
  {| moved := λ _, None; value_init := None; relocate_by_move := true;
     sizeof_T := 8 |}.

(** A class holding a string, with a copy constructor and a move
    constructor that is not [noexcept]: relocation copies, and a
    moved-from object is empty. *)
Global Instance name_element : ElementType string :=
  {| moved := λ _, EmptyString; value_init := EmptyString;
     relocate_by_move := false; sizeof_T := 32 |}.

(** ** Example states *)

(** [Vector<int>] holding 1, 2, 3 in a block of four slots. *)
Definition ints_heap : heap Z := {[ 7%N := [Some 1; Some 2; Some 3; None]%Z ]}.

Definition ints : Vector :=
  {| data_ := {| buffer_ := Ptr 7 0; capacity_ := 4 |}; size_ := 3 |}.

(** [Vector<int>] holding 1, 2, 3 in a block of three slots. *)
Definition full_ints_heap : heap Z := {[ 7%N := [Some 1; Some 2; Some 3]%Z ]}.

Definition full_ints : Vector :=
  {| data_ := {| buffer_ := Ptr 7 0; capacity_ := 3 |}; size_ := 3 |}.

(** [Vector<std::unique_ptr<int>>] holding pointers to 1 and 2 in a block
    of four slots. *)
Definition pointers_heap : heap (option Z) :=
  {[ 7%N := [Some (Some 1); Some (Some 2); None; None]%Z ]}.

Definition pointers : Vector :=
  {| data_ := {| buffer_ := Ptr 7 0; capacity_ := 4 |}; size_ := 2 |}.

(** [Vector<std::unique_ptr<int>>] holding pointers to 1 and 2 in a block
    of two slots. *)
Definition full_pointers_heap : heap (option Z) :=
  {[ 7%N := [Some (Some 1); Some (Some 2)]%Z ]}.

Definition full_pointers : Vector :=
  {| data_ := {| buffer_ := Ptr 7 0; capacity_ := 2 |}; size_ := 2 |}.

(** Two vectors of names: one of two names in a block of three slots, one
    of a single name in a block of one slot. *)
Definition names_heap : heap string :=
  {[ 3%N := [Some "ann"; Some "bob"; None]%string;
     5%N := [Some "eve"]%string ]}.

Definition names : Vector :=
  {| data_ := {| buffer_ := Ptr 3 0; capacity_ := 3 |}; size_ := 2 |}.

Definition other_names : Vector :=
  {| data_ := {| buffer_ := Ptr 5 0; capacity_ := 1 |}; size_ := 1 |}.

(** A client of [Vector<int>]: four objects, every kind of call. *)
Definition client_program : list (@call Z) :=
  [ Construct 1; CallPushBack 1 10; CallPushBackMove 1 20; CallEmplaceBack 1 30;
    ConstructCopy 2 1; CallInsert 2 1 15; CallEmplace 2 0 5; CallErase 1 0;
    CallResize 2 7; CallReserve 1 9; CallPushBackElement 1 1 0;
    ConstructSized 3 2; CallSwap 1 3; CallPopBack 3; CallAssign 3 2;
    CallMoveAssign 2 1; ConstructMove 4 3; Destroy 1; CallInsertMove 4 2 99 ]%Z.

Definition client_start : @world Z := {| vectors := ∅; memory := ∅ |}.

(** The world the client ends in. *)
Definition client_world : @world Z :=
  {| vectors :=
       {[ 2%N := {| data_ := {| buffer_ := Ptr 10 0; capacity_ := 2 |}; size_ := 2 |};
          3%N := {| data_ := {| buffer_ := nullptr; capacity_ := 0 |}; size_ := 0 |};
          4%N := {| data_ := {| buffer_ := Ptr 9 0; capacity_ := 9 |}; size_ := 8 |} ]};
     memory :=
       {[ 9%N := [Some 5; Some 10; Some 99; Some 15; Some 20; Some 30;
                  Some 0; Some 0; None]%Z;
          10%N := [Some 0; Some 0]%Z ]} |}.

(** * Properties *)

(** Goals about the lengths of blocks. *)
Ltac len :=
  repeat first
    [ rewrite length_app | rewrite length_fmap | rewrite length_replicate
    | rewrite length_take | rewrite length_drop | rewrite length_insert
    | progress simpl ];
  try lia.

Section proofs.

Context `{ElementType T}.

Implicit Types (h : heap T) (p q : pointer) (b : N) (o n : nat)
  (cells pre post : list (slot T)) (x y : T) (xs ys es : list T)
  (v : Vector) (args : @ctor_args T).

(** ** The monad *)

Lemma bind_Some {A B} (m : M A) (k : A → M B) h a h' :
  m h = Some (a, h') → (m ≫= k) h = k a h'.
Proof. intros Hm. unfold mbind, M_bind, bind. by rewrite Hm. Qed.

Lemma bind_None {A B} (m : M A) (k : A → M B) h :
  m h = None → (m ≫= k) h = None.
Proof. intros Hm. unfold mbind, M_bind, bind. by rewrite Hm. Qed.

Lemma ret_Some {A} (a : A) h : (mret a : M A) h = Some (a, h).
Proof. done. Qed.

(** ** Slots *)

Lemma load_Some h b o cells x :
  h !! b = Some cells → cells !! o = Some (Some x) →
  load (Ptr b o) h = Some (x, h).
Proof. intros Hb Ho. unfold load. by rewrite Hb, Ho. Qed.

Lemma write_slot_Some h b o cells s :
  h !! b = Some cells → o < length cells →
  write_slot (Ptr b o) s h = Some (tt, <[b := <[o := s]> cells]> h).
Proof.
  intros Hb Ho. unfold write_slot. rewrite Hb. by rewrite decide_True.
Qed.

Lemma construct_at_Some h b o cells x :
  h !! b = Some cells → o < length cells →
  construct_at (Ptr b o) x h = Some (tt, <[b := <[o := Some x]> cells]> h).
Proof. apply write_slot_Some. Qed.

Lemma destroy_at_Some h b o cells x :
  h !! b = Some cells → cells !! o = Some (Some x) →
  destroy_at (Ptr b o) h = Some (tt, <[b := <[o := None]> cells]> h).
Proof.
  intros Hb Ho. unfold destroy_at.
  rewrite (bind_Some _ _ _ _ _ (load_Some _ _ _ _ _ Hb Ho)).
  apply write_slot_Some; [done|]. by eapply lookup_lt_Some.
Qed.

Lemma assign_Some h b o cells x y :
  h !! b = Some cells → cells !! o = Some (Some x) →
  assign (Ptr b o) y h = Some (tt, <[b := <[o := Some y]> cells]> h).
Proof.
  intros Hb Ho. unfold assign.
  rewrite (bind_Some _ _ _ _ _ (load_Some _ _ _ _ _ Hb Ho)).
  apply write_slot_Some; [done|]. by eapply lookup_lt_Some.
Qed.

(** ** Lists and blocks *)

Lemma insert_middle {A} (l1 l2 : list A) (x y : A) :
  <[length l1 := y]> (l1 ++ x :: l2) = l1 ++ y :: l2.
Proof. by rewrite insert_app_r_alt, Nat.sub_diag. Qed.

Lemma lookup_middle {A} (l1 l2 : list A) (x : A) :
  (l1 ++ x :: l2) !! length l1 = Some x.
Proof. by apply list_lookup_middle. Qed.

Lemma length_middle {A} (l1 l2 : list A) (x : A) :
  length l1 < length (l1 ++ x :: l2).
Proof. rewrite length_app. simpl. lia. Qed.

Lemma length_snoc {A} (l : list A) (x : A) :
  length l + 1 = length (l ++ [x]).
Proof. by rewrite length_app. Qed.

Lemma uninitialized_value_construct_loop_spec h b pre mid post :
  h !! b = Some (pre ++ mid ++ post) →
  uninitialized_value_construct_loop (Ptr b (length pre)) (length mid) h
  = Some (tt, <[b := pre ++ replicate (length mid) (Some value_init) ++ post]> h).
Proof.
  revert h pre. induction mid as [|s mid IH]; intros h pre Hb; simpl in *.
  - by rewrite insert_id.
  - rewrite (bind_Some _ _ _ _ _
      (construct_at_Some _ _ _ _ _ Hb (length_middle _ _ _))).
    rewrite insert_middle, (length_snoc _ (Some value_init)).
    rewrite (IH _ (pre ++ [Some value_init])).
    + by rewrite insert_insert_eq, <- app_assoc.
    + by rewrite lookup_insert_eq, <- app_assoc.
Qed.

Lemma destroy_loop_spec h b pre xs post :
  h !! b = Some (pre ++ (Some <$> xs) ++ post) →
  destroy_loop (Ptr b (length pre)) (length xs) h
  = Some (tt, <[b := pre ++ replicate (length xs) None ++ post]> h).
Proof.
  revert h pre. induction xs as [|x xs IH]; intros h pre Hb; simpl in *.
  - by rewrite insert_id.
  - rewrite (bind_Some _ _ _ _ _
      (destroy_at_Some _ _ _ _ x Hb (lookup_middle _ _ _))).
    rewrite insert_middle, (length_snoc _ None).
    rewrite (IH _ (pre ++ [None])).
    + by rewrite insert_insert_eq, <- app_assoc.
    + by rewrite lookup_insert_eq, <- app_assoc.
Qed.


Lemma copy_construct_Some h bs os bd od cs cd x :
  bs ≠ bd → h !! bs = Some cs → h !! bd = Some cd →
  cs !! os = Some (Some x) → od < length cd →
  copy_construct (Ptr bd od) (Ptr bs os) h
  = Some (tt, <[bd := <[od := Some x]> cd]> h).
Proof.
  intros Hne Hs Hd Hx Hod. unfold copy_construct.
  rewrite (bind_Some _ _ _ _ _ (load_Some _ _ _ _ _ Hs Hx)).
  by apply construct_at_Some.
Qed.

Lemma move_construct_Some h bs os bd od cs cd x :
  bs ≠ bd → h !! bs = Some cs → h !! bd = Some cd →
  cs !! os = Some (Some x) → od < length cd →
  move_construct (Ptr bd od) (Ptr bs os) h
  = Some (tt, <[bd := <[od := Some x]> cd]>
                (<[bs := <[os := Some (moved x)]> cs]> h)).
Proof.
  intros Hne Hs Hd Hx Hod. unfold move_construct.
  rewrite (bind_Some _ _ _ _ _ (load_Some _ _ _ _ _ Hs Hx)).
  rewrite (bind_Some _ _ _ _ _ (assign_Some _ _ _ _ _ _ Hs Hx)).
  apply construct_at_Some; [|done]. by rewrite lookup_insert_ne.
Qed.

Lemma uninitialized_copy_loop_spec h bs bd spre xs spost dpre mid dpost :
  bs ≠ bd →
  h !! bs = Some (spre ++ (Some <$> xs) ++ spost) →
  h !! bd = Some (dpre ++ mid ++ dpost) →
  length mid = length xs →
  uninitialized_copy_loop (Ptr bs (length spre)) (length xs) (Ptr bd (length dpre)) h
  = Some (tt, <[bd := dpre ++ (Some <$> xs) ++ dpost]> h).
Proof.
  intros Hne. revert h spre dpre mid.
  induction xs as [|x xs IH]; intros h spre dpre mid Hs Hd Hlen.
  - destruct mid; [|done]. simpl. by rewrite insert_id.
  - destruct mid as [|s mid]; [done|]. simpl in *.
    rewrite (bind_Some _ _ _ _ _
      (copy_construct_Some _ _ _ _ _ _ _ x Hne Hs Hd
         (lookup_middle _ _ _) (length_middle _ _ _))).
    rewrite insert_middle, (length_snoc spre (Some x)), (length_snoc dpre (Some x)).
    rewrite (IH _ (spre ++ [Some x]) (dpre ++ [Some x]) mid).
    + by rewrite insert_insert_eq, <- app_assoc.
    + by rewrite lookup_insert_ne, <- app_assoc.
    + by rewrite lookup_insert_eq, <- app_assoc.
    + by simplify_eq.
Qed.

Lemma uninitialized_move_loop_spec h bs bd spre xs spost dpre mid dpost :
  bs ≠ bd →
  h !! bs = Some (spre ++ (Some <$> xs) ++ spost) →
  h !! bd = Some (dpre ++ mid ++ dpost) →
  length mid = length xs →
  uninitialized_move_loop (Ptr bs (length spre)) (length xs) (Ptr bd (length dpre)) h
  = Some (tt, <[bd := dpre ++ (Some <$> xs) ++ dpost]>
                (<[bs := spre ++ (Some <$> (moved <$> xs)) ++ spost]> h)).
Proof.
  intros Hne. revert h spre dpre mid.
  induction xs as [|x xs IH]; intros h spre dpre mid Hs Hd Hlen.
  - destruct mid; [|done]. simpl. by rewrite !insert_id by by rewrite ?lookup_insert_ne.
  - destruct mid as [|s mid]; [done|]. simpl in *.
    rewrite (bind_Some _ _ _ _ _
      (move_construct_Some _ _ _ _ _ _ _ x Hne Hs Hd
         (lookup_middle _ _ _) (length_middle _ _ _))).
    rewrite !insert_middle, (length_snoc spre (Some (moved x))),
      (length_snoc dpre (Some x)).
    rewrite (IH _ (spre ++ [Some (moved x)]) (dpre ++ [Some x]) mid).
    + rewrite (insert_insert_ne _ bs bd) by done.
      by rewrite !insert_insert_eq, <- !app_assoc.
    + rewrite lookup_insert_ne by done. by rewrite lookup_insert_eq, <- app_assoc.
    + by rewrite lookup_insert_eq, <- app_assoc.
    + by simplify_eq.
Qed.


Lemma copy_assign_Some h bs os bd od cs cd x y :
  bs ≠ bd → h !! bs = Some cs → h !! bd = Some cd →
  cs !! os = Some (Some x) → cd !! od = Some (Some y) →
  copy_assign (Ptr bd od) (Ptr bs os) h
  = Some (tt, <[bd := <[od := Some x]> cd]> h).
Proof.
  intros Hne Hs Hd Hx Hy. unfold copy_assign.
  rewrite (bind_Some _ _ _ _ _ (load_Some _ _ _ _ _ Hs Hx)).
  by eapply assign_Some.
Qed.

Lemma copy_loop_spec h bs bd spre xs spost dpre ys dpost :
  bs ≠ bd →
  h !! bs = Some (spre ++ (Some <$> xs) ++ spost) →
  h !! bd = Some (dpre ++ (Some <$> ys) ++ dpost) →
  length ys = length xs →
  copy_loop (Ptr bs (length spre)) (length xs) (Ptr bd (length dpre)) h
  = Some (tt, <[bd := dpre ++ (Some <$> xs) ++ dpost]> h).
Proof.
  intros Hne. revert h spre dpre ys.
  induction xs as [|x xs IH]; intros h spre dpre ys Hs Hd Hlen.
  - destruct ys; [|done]. simpl. by rewrite insert_id.
  - destruct ys as [|y ys]; [done|]. simpl in *.
    rewrite (bind_Some _ _ _ _ _
      (copy_assign_Some _ _ _ _ _ _ _ x y Hne Hs Hd
         (lookup_middle _ _ _) (lookup_middle _ _ _))).
    rewrite insert_middle, (length_snoc spre (Some x)), (length_snoc dpre (Some x)).
    rewrite (IH _ (spre ++ [Some x]) (dpre ++ [Some x]) ys).
    + by rewrite insert_insert_eq, <- app_assoc.
    + by rewrite lookup_insert_ne, <- app_assoc.
    + by rewrite lookup_insert_eq, <- app_assoc.
    + by simplify_eq.
Qed.

(** Move assignment between two neighbouring live objects of one block,
    to the left and to the right. *)
Lemma move_assign_left h b pre post x y :
  h !! b = Some (pre ++ Some y :: Some x :: post) →
  move_assign (Ptr b (length pre)) (Ptr b (length pre + 1)) h
  = Some (tt, <[b := pre ++ Some x :: Some (moved x) :: post]> h).
Proof.
  intros Hb. unfold move_assign.
  assert (Hx : (pre ++ Some y :: Some x :: post) !! (length pre + 1) = Some (Some x)).
  { rewrite lookup_app_r by lia. by replace (length pre + 1 - length pre) with 1 by lia. }
  rewrite (bind_Some _ _ _ _ _ (load_Some _ _ _ _ _ Hb Hx)).
  rewrite (bind_Some _ _ _ _ _ (assign_Some _ _ _ _ _ _ Hb Hx)).
  rewrite insert_app_r. simpl.
  erewrite assign_Some; [|apply lookup_insert_eq|apply lookup_middle].
  by rewrite insert_insert_eq, insert_middle.
Qed.

Lemma move_assign_right h b pre post x y :
  h !! b = Some (pre ++ Some x :: Some y :: post) →
  move_assign (Ptr b (length pre + 1)) (Ptr b (length pre)) h
  = Some (tt, <[b := pre ++ Some (moved x) :: Some x :: post]> h).
Proof.
  intros Hb. unfold move_assign.
  rewrite (bind_Some _ _ _ _ _ (load_Some _ _ _ _ _ Hb (lookup_middle _ _ _))).
  rewrite (bind_Some _ _ _ _ _ (assign_Some _ _ _ _ _ _ Hb (lookup_middle _ _ _))).
  rewrite insert_middle.
  erewrite assign_Some; [|apply lookup_insert_eq|].
  - by rewrite insert_insert_eq, insert_app_r.
  - rewrite lookup_app_r by lia. by replace (length pre + 1 - length pre) with 1 by lia.
Qed.

Lemma left_behind_last_cons a x xs :
  left_behind a (list.last (x :: xs)) = left_behind (moved x) (list.last xs).
Proof.
  destruct xs as [|z xs]; [done|].
  change (list.last (x :: z :: xs)) with (list.last (z :: xs)).
  destruct (list.last (z :: xs)) eqn:E; [done|]. by apply last_None in E.
Qed.

Lemma left_behind_head_snoc a x xs :
  left_behind a (head (xs ++ [x])) = left_behind (moved x) (head xs).
Proof. destruct xs; reflexivity. Qed.

Lemma move_loop_spec h b pre a xs post :
  h !! b = Some (pre ++ Some a :: (Some <$> xs) ++ post) →
  move_loop (Ptr b (length pre + 1)) (length xs) (Ptr b (length pre)) h
  = Some (tt, <[b := pre ++ (Some <$> xs) ++ Some (left_behind a (list.last xs)) :: post]> h).
Proof.
  revert h pre a. induction xs as [|x xs IH]; intros h pre a Hb; simpl in *.
  - by rewrite insert_id.
  - rewrite (bind_Some _ _ _ _ _ (move_assign_left _ _ _ _ _ _ Hb)).
    rewrite (length_snoc pre (Some x)).
    rewrite (IH _ (pre ++ [Some x]) (moved x)).
    + rewrite insert_insert_eq, <- app_assoc. simpl.
      by rewrite left_behind_last_cons.
    + by rewrite lookup_insert_eq, <- app_assoc.
Qed.

Lemma move_backward_loop_spec h b pre xs a post :
  h !! b = Some (pre ++ (Some <$> xs) ++ Some a :: post) →
  move_backward_loop (Ptr b (length pre + length xs)) (length xs)
                     (Ptr b (length pre + length xs + 1)) h
  = Some (tt, <[b := pre ++ Some (left_behind a (head xs)) :: (Some <$> xs) ++ post]> h).
Proof.
  revert h a post. induction xs as [|x xs IH] using rev_ind; intros h a post Hb.
  - simpl in *. by rewrite insert_id.
  - rewrite length_app. simpl.
    replace (length xs + 1) with (S (length xs)) by lia.
    cbn [move_backward_loop].
    replace (length pre + S (length xs)) with (S (length pre + length xs)) by lia.
    cbn [ptr_prev lift].
    replace (S (length pre + length xs) + 1) with (S (S (length pre + length xs))) by lia.
    rewrite fmap_app in Hb. simpl in Hb. rewrite <- app_assoc in Hb. simpl in Hb.
    rewrite app_assoc in Hb.
    assert (Hlen : length pre + length xs = length (pre ++ (Some <$> xs))).
    { by rewrite length_app, length_fmap. }
    unfold mbind at 1 2, M_bind, bind. cbn [lift ptr_prev].
    replace (S (length pre + length xs)) with (length (pre ++ (Some <$> xs)) + 1) by lia.
    rewrite Hlen.
    rewrite (bind_Some _ _ _ _ _ (move_assign_right _ _ _ _ _ _ Hb)).
    rewrite <- Hlen.
    replace (length pre + length xs + 1) with (S (length pre + length xs)) by lia.
    replace (S (length pre + length xs)) with (length pre + length xs + 1) by lia.
    rewrite (IH _ (moved x) (Some x :: post)).
    + rewrite insert_insert_eq. rewrite fmap_app. simpl.
      rewrite <- !app_assoc. simpl. by rewrite left_behind_head_snoc.
    + by rewrite lookup_insert_eq, <- app_assoc.
Qed.


(** ** Buffers: the block a pointer owns *)

Lemma ptr_add_0 p : p +ₚ 0 = p.
Proof. destruct p as [|b o]; [done|]. unfold ptr_add. simpl. by rewrite Nat.add_0_r. Qed.

Lemma ptr_add_add p (i j : N) : p +ₚ i +ₚ j = p +ₚ (i + j).
Proof.
  destruct p as [|b o]; [done|]. unfold ptr_add. simpl. f_equal. lia.
Qed.

Lemma ptr_add_start b (k : N) : Ptr b 0 +ₚ k = Ptr b (N.to_nat k).
Proof. done. Qed.

Lemma block_of_cases h p cells :
  block_of h p = Some cells →
  (p = nullptr ∧ cells = []) ∨ (∃ b, p = Ptr b 0 ∧ h !! b = Some cells).
Proof.
  destruct p as [|b [|o]]; simpl; intros Hb; simplify_eq; eauto.
Qed.

Lemma block_of_set_block h p cells cells' :
  block_of h p = Some cells → length cells' = length cells →
  block_of (set_block p cells' h) p = Some cells'.
Proof.
  intros [[-> ->]|(b & -> & Hb)]%block_of_cases Hlen; simpl.
  - by destruct cells'.
  - by rewrite lookup_insert_eq.
Qed.

Lemma load_at h p (k : N) pre x post :
  block_of h p = Some (pre ++ Some x :: post) → N.to_nat k = length pre →
  load (p +ₚ k) h = Some (x, h).
Proof.
  intros [[-> Hnil]|(b & -> & Hb)]%block_of_cases Hk.
  - by destruct pre.
  - rewrite ptr_add_start, Hk. eapply load_Some; [done|]. apply lookup_middle.
Qed.

Lemma write_slot_at h p (k : N) pre s s' post :
  block_of h p = Some (pre ++ s :: post) → N.to_nat k = length pre →
  write_slot (p +ₚ k) s' h = Some (tt, set_block p (pre ++ s' :: post) h).
Proof.
  intros [[-> Hnil]|(b & -> & Hb)]%block_of_cases Hk.
  - by destruct pre.
  - rewrite ptr_add_start, Hk.
    erewrite write_slot_Some; [|done|apply length_middle].
    by rewrite insert_middle.
Qed.

Lemma construct_at_at h p (k : N) pre s x post :
  block_of h p = Some (pre ++ s :: post) → N.to_nat k = length pre →
  construct_at (p +ₚ k) x h = Some (tt, set_block p (pre ++ Some x :: post) h).
Proof. apply write_slot_at. Qed.

Lemma destroy_at_at h p (k : N) pre x post :
  block_of h p = Some (pre ++ Some x :: post) → N.to_nat k = length pre →
  destroy_at (p +ₚ k) h = Some (tt, set_block p (pre ++ None :: post) h).
Proof.
  intros Hb Hk. unfold destroy_at.
  rewrite (bind_Some _ _ _ _ _ (load_at _ _ _ _ _ _ Hb Hk)).
  by eapply write_slot_at.
Qed.

Lemma destroy_n_at h p (k n : N) pre xs post :
  block_of h p = Some (pre ++ (Some <$> xs) ++ post) →
  N.to_nat k = length pre → N.to_nat n = length xs →
  destroy_n (p +ₚ k) n h
  = Some (tt, set_block p (pre ++ replicate (length xs) None ++ post) h).
Proof.
  intros [[-> Hnil]|(b & -> & Hb)]%block_of_cases Hk Hn; unfold destroy_n; rewrite Hn.
  - apply app_eq_nil in Hnil as [-> [?%fmap_nil_inv ->]%app_eq_nil].
    by subst.
  - rewrite ptr_add_start, Hk. by apply destroy_loop_spec.
Qed.

Lemma uninitialized_value_construct_n_at h p (k n : N) pre mid post :
  block_of h p = Some (pre ++ mid ++ post) →
  N.to_nat k = length pre → N.to_nat n = length mid →
  uninitialized_value_construct_n (p +ₚ k) n h
  = Some (tt, set_block p (pre ++ replicate (length mid) (Some value_init) ++ post) h).
Proof.
  intros [[-> Hnil]|(b & -> & Hb)]%block_of_cases Hk Hn;
    unfold uninitialized_value_construct_n; rewrite Hn.
  - apply app_eq_nil in Hnil as [-> [-> ->]%app_eq_nil]. done.
  - rewrite ptr_add_start, Hk. by apply uninitialized_value_construct_loop_spec.
Qed.


Lemma set_block_id h p cells :
  block_of h p = Some cells → set_block p cells h = h.
Proof.
  intros [[-> ->]|(b & -> & Hb)]%block_of_cases; [done|]. by apply insert_id.
Qed.

Lemma separate_ne b b' o o' : separate (Ptr b o) (Ptr b' o') → b ≠ b'.
Proof. intros Hsep ->. by eapply Hsep. Qed.

Lemma separate_sym p q : separate p q → separate q p.
Proof. intros Hsep b o o' -> ->. by eapply Hsep. Qed.

Lemma block_of_set_block_ne h p q cells :
  separate p q → block_of (set_block p cells h) q = block_of h q.
Proof.
  intros Hsep. destruct p as [|b [|o]]; [done| |done].
  destruct q as [|b' [|o']]; [done| |done]. simpl.
  apply lookup_insert_ne. by eapply separate_ne.
Qed.

Lemma uninitialized_copy_n_at h p q (ks kd n : N) spre xs spost dpre mid dpost :
  separate p q →
  block_of h p = Some (spre ++ (Some <$> xs) ++ spost) →
  block_of h q = Some (dpre ++ mid ++ dpost) →
  length mid = length xs →
  N.to_nat ks = length spre → N.to_nat kd = length dpre → N.to_nat n = length xs →
  uninitialized_copy_n (p +ₚ ks) n (q +ₚ kd) h
  = Some (tt, set_block q (dpre ++ (Some <$> xs) ++ dpost) h).
Proof.
  intros Hsep Hp Hq Hlen Hks Hkd Hn. unfold uninitialized_copy_n. rewrite Hn.
  destruct xs as [|x xs].
  { destruct mid; [|done]. simpl. by rewrite set_block_id. }
  apply block_of_cases in Hp as [[-> Hnil]|(bs & -> & Hs)].
  { by apply app_eq_nil in Hnil as [-> [?%fmap_nil_inv ->]%app_eq_nil]. }
  apply block_of_cases in Hq as [[-> Hnil]|(bd & -> & Hd)].
  { apply app_eq_nil in Hnil as [-> [-> ->]%app_eq_nil]. done. }
  rewrite !ptr_add_start, Hks, Hkd.
  eapply uninitialized_copy_loop_spec; eauto using separate_ne.
Qed.

Lemma uninitialized_move_n_at h p q (ks kd n : N) spre xs spost dpre mid dpost :
  separate p q →
  block_of h p = Some (spre ++ (Some <$> xs) ++ spost) →
  block_of h q = Some (dpre ++ mid ++ dpost) →
  length mid = length xs →
  N.to_nat ks = length spre → N.to_nat kd = length dpre → N.to_nat n = length xs →
  uninitialized_move_n (p +ₚ ks) n (q +ₚ kd) h
  = Some (tt, set_block q (dpre ++ (Some <$> xs) ++ dpost)
                (set_block p (spre ++ (Some <$> (moved <$> xs)) ++ spost) h)).
Proof.
  intros Hsep Hp Hq Hlen Hks Hkd Hn. unfold uninitialized_move_n. rewrite Hn.
  destruct xs as [|x xs].
  { destruct mid; [|done]. simpl. rewrite (set_block_id _ p) by done.
    by rewrite set_block_id. }
  apply block_of_cases in Hp as [[-> Hnil]|(bs & -> & Hs)].
  { by apply app_eq_nil in Hnil as [-> [?%fmap_nil_inv ->]%app_eq_nil]. }
  apply block_of_cases in Hq as [[-> Hnil]|(bd & -> & Hd)].
  { apply app_eq_nil in Hnil as [-> [-> ->]%app_eq_nil]. done. }
  rewrite !ptr_add_start, Hks, Hkd.
  eapply uninitialized_move_loop_spec; eauto using separate_ne.
Qed.

Lemma relocate_n_at h p q (ks kd n : N) spre xs spost dpre mid dpost :
  separate p q →
  block_of h p = Some (spre ++ (Some <$> xs) ++ spost) →
  block_of h q = Some (dpre ++ mid ++ dpost) →
  length mid = length xs →
  N.to_nat ks = length spre → N.to_nat kd = length dpre → N.to_nat n = length xs →
  relocate_n (p +ₚ ks) n (q +ₚ kd) h
  = Some (tt, set_block q (dpre ++ (Some <$> xs) ++ dpost)
                (set_block p (spre ++ (Some <$> (relocated <$> xs)) ++ spost) h)).
Proof.
  intros Hsep Hp Hq Hlen Hks Hkd Hn. unfold relocate_n, relocated.
  destruct relocate_by_move.
  - by eapply uninitialized_move_n_at.
  - rewrite list_fmap_id. rewrite (set_block_id _ p) by done.
    by eapply uninitialized_copy_n_at.
Qed.

Lemma ptr_diff_add h p cells (k : N) :
  block_of h p = Some cells → N.to_nat k ≤ length cells →
  ptr_diff (p +ₚ k) p = Some (N.to_nat k).
Proof.
  intros [[-> ->]|(b & -> & Hb)]%block_of_cases Hk; simpl in *.
  - f_equal. lia.
  - rewrite bool_decide_true by (split; [done|lia]). f_equal. lia.
Qed.

Lemma ptr_diff_add_add h p cells (i j : N) :
  block_of h p = Some cells → (i ≤ j)%N → N.to_nat j ≤ length cells →
  ptr_diff (p +ₚ j) (p +ₚ i) = Some (N.to_nat j - N.to_nat i).
Proof.
  intros [[-> ->]|(b & -> & Hb)]%block_of_cases Hij Hj; simpl in *.
  - f_equal. lia.
  - rewrite bool_decide_true by (split; [done|lia]). f_equal.
Qed.

Lemma std_copy_at h p q (k : N) xs spost ys dpost :
  separate p q →
  block_of h p = Some ((Some <$> xs) ++ spost) →
  block_of h q = Some ((Some <$> ys) ++ dpost) →
  length ys = length xs → N.to_nat k = length xs →
  std_copy p (p +ₚ k) q h = Some (tt, set_block q ((Some <$> xs) ++ dpost) h).
Proof.
  intros Hsep Hp Hq Hlen Hk. unfold std_copy.
  erewrite bind_Some; last first.
  { unfold lift. erewrite ptr_diff_add; [done..|].
    rewrite length_app, length_fmap. lia. }
  rewrite Hk. destruct xs as [|x xs].
  { destruct ys; [|done]. simpl. by rewrite set_block_id. }
  apply block_of_cases in Hp as [[-> Hnil]|(bs & -> & Hs)]; [done|].
  apply block_of_cases in Hq as [[-> Hnil]|(bd & -> & Hd)].
  { by destruct ys. }
  apply (copy_loop_spec h bs bd [] (x :: xs) spost [] ys dpost);
    eauto using separate_ne.
Qed.

Lemma std_move_at h p (k n : N) pre a xs post :
  block_of h p = Some (pre ++ Some a :: (Some <$> xs) ++ post) →
  N.to_nat k = length pre → N.to_nat n = length pre + 1 + length xs →
  std_move (p +ₚ k +ₚ 1) (p +ₚ n) (p +ₚ k) h
  = Some (tt, set_block p (pre ++ (Some <$> xs)
                             ++ Some (left_behind a (list.last xs)) :: post) h).
Proof.
  intros Hp Hk Hn. unfold std_move. rewrite ptr_add_add.
  erewrite bind_Some; last first.
  { unfold lift. erewrite ptr_diff_add_add; [done..|lia|].
    rewrite length_app. simpl. rewrite length_app, length_fmap. lia. }
  apply block_of_cases in Hp as [[-> Hnil]|(b & -> & Hb)].
  { by destruct pre. }
  rewrite !ptr_add_start.
  replace (N.to_nat n - N.to_nat (k + 1)) with (length xs) by lia.
  replace (N.to_nat (k + 1)) with (length pre + 1) by lia. rewrite Hk.
  by apply move_loop_spec.
Qed.

Lemma move_backward_at h p (k n : N) pre xs a post :
  block_of h p = Some (pre ++ (Some <$> xs) ++ Some a :: post) →
  N.to_nat k = length pre → N.to_nat n = length pre + length xs →
  move_backward (p +ₚ k) (p +ₚ n) (p +ₚ n +ₚ 1) h
  = Some (tt, set_block p (pre ++ Some (left_behind a (head xs))
                             :: (Some <$> xs) ++ post) h).
Proof.
  intros Hp Hk Hn. unfold move_backward. rewrite ptr_add_add.
  erewrite bind_Some; last first.
  { unfold lift. erewrite ptr_diff_add_add; [done..|lia|].
    rewrite length_app, length_app, length_fmap. simpl. lia. }
  apply block_of_cases in Hp as [[-> Hnil]|(b & -> & Hb)].
  { destruct pre, xs; done. }
  rewrite !ptr_add_start.
  replace (N.to_nat n - N.to_nat k) with (length xs) by lia.
  replace (N.to_nat (n + 1)) with (length pre + length xs + 1) by lia. rewrite Hn.
  by apply move_backward_loop_spec.
Qed.


(** ** [size_t] arithmetic without overflow *)

Lemma size_add_exact (a b : N) :
  (a + b < size_modulus)%N → size_add a b = (a + b)%N.
Proof. intros. unfold size_add, size_t. by apply N.mod_small. Qed.

Lemma size_sub_exact (a b : N) :
  (b ≤ a)%N → (a < size_modulus)%N → size_sub a b = (a - b)%N.
Proof.
  intros Hle Hlt. unfold size_sub, size_t.
  replace (a + size_modulus - b)%N with (a - b + 1 * size_modulus)%N by lia.
  rewrite N.Div0.mod_add. apply N.mod_small. lia.
Qed.

Lemma size_mul_exact (a b : N) :
  (a * b < size_modulus)%N → size_mul a b = (a * b)%N.
Proof. intros. unfold size_mul, size_t. by apply N.mod_small. Qed.

(** ** The layout of a vector's block *)

Lemma length_layout es (c : N) :
  length es ≤ N.to_nat c → length (layout es c) = N.to_nat c.
Proof.
  intros. unfold layout. rewrite length_app, length_fmap, length_replicate. lia.
Qed.

Lemma layout_snoc es x (c : N) :
  length es < N.to_nat c →
  layout (es ++ [x]) c
  = (Some <$> es) ++ Some x :: replicate (N.to_nat c - S (length es)) None.
Proof.
  intros. unfold layout. rewrite fmap_app, <- app_assoc, length_app. simpl.
  do 3 f_equal. lia.
Qed.

Lemma layout_raw es (c : N) :
  length es < N.to_nat c →
  layout es c = (Some <$> es) ++ None :: replicate (N.to_nat c - S (length es)) None.
Proof.
  intros. unfold layout.
  replace (N.to_nat c - length es) with (S (N.to_nat c - S (length es))) by lia.
  done.
Qed.

Lemma layout_full es (c : N) :
  N.to_nat c = length es → layout es c = Some <$> es.
Proof.
  intros Hc. unfold layout. by rewrite Hc, Nat.sub_diag, app_nil_r.
Qed.

Lemma ptr_prev_add h p cells (k : N) :
  block_of h p = Some cells → cells ≠ [] → (0 < k)%N →
  ptr_prev (p +ₚ k) = Some (p +ₚ (k - 1)).
Proof.
  intros [[-> ->]|(b & -> & Hb)]%block_of_cases Hne Hk; [done|].
  rewrite !ptr_add_start. replace (N.to_nat k) with (S (N.to_nat (k - 1))) by lia.
  done.
Qed.

(** ** [PopBack] *)

Lemma PopBack_nonempty h p c s es x :
  is_vector h (mkVector (mkRawMemory p c) s) (es ++ [x]) →
  PopBack (mkVector (mkRawMemory p c) s) h
  = Some (mkVector (mkRawMemory p c) (s - 1),
          set_block p (layout es c) h)
  ∧ is_vector (set_block p (layout es c) h) (mkVector (mkRawMemory p c) (s - 1)) es.
Proof.
  intros (Hb & Hs & Hle & Hc). simpl in *. rewrite length_app in Hs. simpl in Hs.
  assert (Hlt : length es < N.to_nat c) by lia.
  rewrite layout_snoc in Hb by done.
  split.
  - unfold PopBack. simpl. replace (0 <? s)%N with true by (symmetry; apply N.ltb_lt; lia).
    erewrite bind_Some; last first.
    { unfold lift. erewrite ptr_prev_add; [done..| |lia]. by destruct es. }
    erewrite bind_Some; last first.
    { eapply destroy_at_at; [done|]. rewrite length_fmap. lia. }
    rewrite size_sub_exact by lia. by rewrite layout_raw.
  - repeat split; simpl; [|lia..].
    eapply block_of_set_block; [done|].
    rewrite length_layout, length_app, length_fmap by lia. simpl.
    rewrite length_replicate. lia.
Qed.

Lemma PopBack_empty h v : is_vector h v [] → PopBack v h = Some (v, h).
Proof.
  intros (Hb & Hs & Hle & Hc). unfold PopBack. simpl in Hs. by rewrite Hs.
Qed.

(** ** Allocation *)

Lemma fresh_block h : h !! fresh (dom h) = None.
Proof. apply not_elem_of_dom, is_fresh. Qed.

Lemma RawMemory_new_Some h (c : N) :
  c ≠ 0%N →
  RawMemory_new c h
  = Some (mkRawMemory (Ptr (fresh (dom h)) 0) c,
          <[fresh (dom h) := replicate (N.to_nat c) None]> h).
Proof.
  intros Hc. unfold RawMemory_new, Allocate.
  apply N.eqb_neq in Hc. by rewrite Hc.
Qed.

Lemma RawMemory_new_0 h : RawMemory_new 0 h = Some (mkRawMemory nullptr 0, h).
Proof. done. Qed.

Lemma Deallocate_Some h p cells :
  block_of h p = Some cells → Deallocate p h = Some (tt, free_block p h).
Proof.
  intros [[-> ->]|(b & -> & Hb)]%block_of_cases; [done|]. simpl. by rewrite Hb.
Qed.

Lemma separate_fresh h p cells o :
  block_of h p = Some cells → separate p (Ptr (fresh (dom h)) o).
Proof.
  intros [[-> ->]|(b & -> & Hb)]%block_of_cases b' o1 o2 ? ?; simplify_eq.
  by rewrite fresh_block in Hb.
Qed.

Lemma block_of_insert_ne h p b cells :
  separate p (Ptr b 0) → block_of (<[b := cells]> h) p = block_of h p.
Proof.
  intros Hsep. destruct p as [|b' [|o]]; [done| |done]. simpl.
  apply lookup_insert_ne. intros ->. by eapply Hsep.
Qed.

Lemma block_of_free_block_ne h p q :
  separate p q → block_of (free_block p h) q = block_of h q.
Proof.
  intros Hsep. destruct p as [|b [|o]]; [done| |done].
  destruct q as [|b' [|o']]; [done| |done]. simpl.
  apply lookup_delete_ne. by eapply separate_ne.
Qed.

(** Once the elements have left it, the old block is of no consequence:
    freeing it leaves the heap a growing method started from, with the new
    block added. *)
Lemma free_old_block h p b cells0 cells1 cells2 cells :
  separate p (Ptr b 0) →
  free_block p (set_block p cells2 (<[b := cells]>
                  (set_block p cells1 (<[b := cells0]> h))))
  = free_block p (<[b := cells]> h).
Proof.
  intros Hsep. destruct p as [|b' [|o]]; simpl.
  - by rewrite insert_insert_eq.
  - assert (b' ≠ b) by (intros ->; by eapply Hsep).
    rewrite delete_insert_eq.
    rewrite (insert_insert_ne _ b b') by done.
    by rewrite insert_insert_eq, delete_insert_eq.
  - by rewrite insert_insert_eq.
Qed.

(** The algorithms started at the very beginning of a buffer. *)
Lemma relocate_n_start h p q (n : N) xs spost mid dpost :
  separate p q →
  block_of h p = Some ((Some <$> xs) ++ spost) →
  block_of h q = Some (mid ++ dpost) →
  length mid = length xs → N.to_nat n = length xs →
  relocate_n p n q h
  = Some (tt, set_block q ((Some <$> xs) ++ dpost)
                (set_block p ((Some <$> (relocated <$> xs)) ++ spost) h)).
Proof.
  intros. replace (relocate_n p n q h) with (relocate_n (p +ₚ 0) n (q +ₚ 0) h)
    by by rewrite !ptr_add_0.
  by eapply (relocate_n_at _ _ _ 0 0 _ [] _ _ []).
Qed.

Lemma uninitialized_copy_n_start h p q (n : N) xs spost mid dpost :
  separate p q →
  block_of h p = Some ((Some <$> xs) ++ spost) →
  block_of h q = Some (mid ++ dpost) →
  length mid = length xs → N.to_nat n = length xs →
  uninitialized_copy_n p n q h
  = Some (tt, set_block q ((Some <$> xs) ++ dpost) h).
Proof.
  intros. replace (uninitialized_copy_n p n q h)
    with (uninitialized_copy_n (p +ₚ 0) n (q +ₚ 0) h) by by rewrite !ptr_add_0.
  by eapply (uninitialized_copy_n_at _ _ _ 0 0 _ [] _ _ []).
Qed.

Lemma destroy_n_start h p (n : N) xs post :
  block_of h p = Some ((Some <$> xs) ++ post) → N.to_nat n = length xs →
  destroy_n p n h
  = Some (tt, set_block p (replicate (length xs) None ++ post) h).
Proof.
  intros. replace (destroy_n p n h) with (destroy_n (p +ₚ 0) n h)
    by by rewrite !ptr_add_0.
  by eapply (destroy_n_at _ _ 0 _ []).
Qed.

Lemma uninitialized_value_construct_n_start h p (n : N) mid post :
  block_of h p = Some (mid ++ post) → N.to_nat n = length mid →
  uninitialized_value_construct_n p n h
  = Some (tt, set_block p (replicate (length mid) (Some value_init) ++ post) h).
Proof.
  intros. replace (uninitialized_value_construct_n p n h)
    with (uninitialized_value_construct_n (p +ₚ 0) n h) by by rewrite !ptr_add_0.
  by eapply (uninitialized_value_construct_n_at _ _ 0 _ []).
Qed.

(** ** [Reserve] *)

Lemma Reserve_noop h v (n : N) :
  (n ≤ Capacity v)%N → Reserve v n h = Some (v, h).
Proof.
  intros Hn. unfold Reserve.
  by replace (n <=? RawMemory_Capacity (data_ v))%N with true
    by (symmetry; by apply N.leb_le).
Qed.

Lemma block_of_new h b cells : block_of (<[b := cells]> h) (Ptr b 0) = Some cells.
Proof. simpl. apply lookup_insert_eq. Qed.

Lemma block_of_set_new h b cells :
  block_of (set_block (Ptr b 0) cells h) (Ptr b 0) = Some cells.
Proof. apply block_of_new. Qed.

(** The tail of every growing method: the elements are relocated into the
    new block [q], the objects left in the old block are destroyed and the
    old block is freed. *)
Lemma relocate_and_release {A} h p c (s : N) es q mid dpost (k : M A) :
  block_of h p = Some (layout es c) → N.to_nat s = length es →
  separate p q →
  block_of h q = Some (mid ++ dpost) → length mid = length es →
  (relocate_n p s q;; destroy_n p s;; RawMemory_destroy (mkRawMemory p c);; k) h
  = k (free_block p (set_block q ((Some <$> es) ++ dpost) h)).
Proof.
  intros Hp Hs Hsep Hq Hlen. unfold layout in Hp.
  rewrite (bind_Some _ _ _ _ _
    (relocate_n_start _ _ _ _ _ _ _ _ Hsep Hp Hq Hlen Hs)).
  set (old := (Some <$> (relocated <$> es)) ++ _).
  set (new := (Some <$> es) ++ dpost).
  assert (Hp1 : block_of (set_block q new (set_block p old h)) p = Some old).
  { rewrite block_of_set_block_ne by by apply separate_sym.
    eapply block_of_set_block; [done|]. unfold old. len. }
  erewrite bind_Some; last first.
  { eapply destroy_n_start; [exact Hp1|]. by rewrite length_fmap. }
  erewrite bind_Some; last first.
  { eapply Deallocate_Some, block_of_set_block; [exact Hp1|]. unfold old. len. }
  f_equal. clear Hp1.
  destruct p as [|b' [|o]]; [done| |done].
  destruct q as [|b [|o]]; simpl in *.
  - by rewrite insert_insert_eq, delete_insert_eq.
  - assert (b' ≠ b) by by eapply separate_ne.
    rewrite delete_insert_eq. rewrite (insert_insert_ne _ b b') by done.
    by rewrite delete_insert_eq.
  - by rewrite insert_insert_eq, delete_insert_eq.
Qed.

Lemma Reserve_grow h p c s es (n : N) :
  is_vector h (mkVector (mkRawMemory p c) s) es → (c < n)%N → (n < size_modulus)%N →
  let b := fresh (dom h) in
  let h' := free_block p (<[b := layout es n]> h) in
  Reserve (mkVector (mkRawMemory p c) s) n h
  = Some (mkVector (mkRawMemory (Ptr b 0) n) s, h')
  ∧ is_vector h' (mkVector (mkRawMemory (Ptr b 0) n) s) es.
Proof.
  intros (Hb & Hs & Hle & Hc) Hn Hn' b h'. simpl in Hb, Hs, Hle, Hc.
  assert (Hsep : separate p (Ptr b 0)) by by eapply separate_fresh.
  split.
  - unfold Reserve. simpl.
    replace (n <=? c)%N with false by (symmetry; apply N.leb_gt; lia).
    rewrite (bind_Some _ _ _ _ _ (RawMemory_new_Some h n ltac:(lia))). simpl.
    fold b.
    rewrite (relocate_and_release _ p c s es (Ptr b 0)
               (replicate (length es) None)
               (replicate (N.to_nat n - length es) None)); try done.
    + rewrite ret_Some. unfold h'. simpl. by rewrite insert_insert_eq.
    + by rewrite block_of_insert_ne.
    + lia.
    + rewrite block_of_new, <- replicate_add. do 2 f_equal. lia.
    + len.
  - repeat split; cbn [data_ buffer_ capacity_ size_]; [|lia..].
    unfold h'. rewrite block_of_free_block_ne by done. apply block_of_new.
Qed.

(** ** [Resize] *)

Lemma size_t_lt (n : N) : (size_t n < size_modulus)%N.
Proof. unfold size_t. by apply N.mod_lt. Qed.

Lemma layout_take_drop es (c : N) (k : nat) :
  layout es c
  = (Some <$> take k es) ++ (Some <$> drop k es)
      ++ replicate (N.to_nat c - length es) None.
Proof. unfold layout. by rewrite app_assoc, <- fmap_app, take_drop. Qed.

Lemma layout_raw_range es (c : N) (k : nat) :
  length es + k ≤ N.to_nat c →
  layout es c
  = (Some <$> es) ++ replicate k None
      ++ replicate (N.to_nat c - (length es + k)) None.
Proof.
  intros. unfold layout. rewrite <- replicate_add. do 2 f_equal. lia.
Qed.

Lemma layout_app_replicate es x (c : N) (k : nat) :
  layout (es ++ replicate k x) c
  = (Some <$> es) ++ replicate k (Some x)
      ++ replicate (N.to_nat c - (length es + k)) None.
Proof.
  unfold layout. by rewrite fmap_app, fmap_replicate, <- app_assoc, length_app,
    length_replicate.
Qed.

Lemma Resize_shrink h p c s es (n : N) :
  is_vector h (mkVector (mkRawMemory p c) s) es → (n < s)%N →
  let es' := take (N.to_nat n) es in
  let h' := set_block p (layout es' c) h in
  Resize (mkVector (mkRawMemory p c) s) n h
  = Some (mkVector (mkRawMemory p c) n, h')
  ∧ is_vector h' (mkVector (mkRawMemory p c) n) es'.
Proof.
  intros (Hb & Hs & Hle & Hc) Hn es' h'. simpl in Hb, Hs, Hle, Hc.
  assert (Hlen : length es' = N.to_nat n) by (unfold es'; len).
  rewrite (layout_take_drop _ _ (N.to_nat n)) in Hb. fold es' in Hb.
  assert (Heq : (Some <$> es') ++ replicate (length (drop (N.to_nat n) es)) None
                  ++ replicate (N.to_nat c - length es) None = layout es' c).
  { unfold layout. rewrite <- replicate_add, Hlen. do 2 f_equal.
    rewrite length_drop. lia. }
  split.
  - unfold Resize. simpl.
    replace (n <? s)%N with true by (symmetry; apply N.ltb_lt; lia).
    erewrite bind_Some; last first.
    { erewrite bind_Some; [by rewrite ret_Some|].
      eapply destroy_n_at; [exact Hb|len|].
      rewrite size_sub_exact by lia. len. }
    rewrite ret_Some. simpl. by rewrite Heq.
  - repeat split; cbn [data_ buffer_ capacity_ size_]; [|lia..].
    unfold h'. eapply block_of_set_block; [done|].
    rewrite length_layout by lia. len.
Qed.

(** Value-initialising the raw slots from [s] up to [n]. *)
Lemma value_construct_tail h p c s es (n : N) :
  is_vector h (mkVector (mkRawMemory p c) s) es → (s ≤ n)%N → (n ≤ c)%N →
  let es' := es ++ replicate (N.to_nat n - length es) value_init in
  let h' := set_block p (layout es' c) h in
  uninitialized_value_construct_n (p +ₚ s) (size_sub n s) h = Some (tt, h')
  ∧ is_vector h' (mkVector (mkRawMemory p c) n) es'.
Proof.
  intros (Hb & Hs & Hle & Hc) Hsn Hnc es' h'. simpl in Hb, Hs, Hle, Hc.
  assert (Hlen : length es' = N.to_nat n) by (unfold es'; len).
  rewrite (layout_raw_range _ _ (N.to_nat n - length es)) in Hb by lia.
  split.
  - erewrite uninitialized_value_construct_n_at; [|exact Hb|len|].
    + unfold h', es'. by rewrite layout_app_replicate, length_replicate.
    + rewrite size_sub_exact by lia. len.
  - repeat split; cbn [data_ buffer_ capacity_ size_]; [|lia..].
    unfold h'. eapply block_of_set_block; [done|].
    rewrite length_layout by lia. len.
Qed.

Lemma Resize_in_place h p c s es (n : N) :
  is_vector h (mkVector (mkRawMemory p c) s) es → (s ≤ n)%N → (n ≤ c)%N →
  let es' := es ++ replicate (N.to_nat n - length es) value_init in
  let h' := set_block p (layout es' c) h in
  Resize (mkVector (mkRawMemory p c) s) n h
  = Some (mkVector (mkRawMemory p c) n, h')
  ∧ is_vector h' (mkVector (mkRawMemory p c) n) es'.
Proof.
  intros Hv Hsn Hnc es' h'.
  destruct (value_construct_tail _ _ _ _ _ _ Hv Hsn Hnc) as [Hrun Hv'].
  split; [|done].
  unfold Resize. simpl.
  replace (n <? s)%N with false by (symmetry; apply N.ltb_ge; lia).
  replace (c <? n)%N with false by (symmetry; apply N.ltb_ge; lia).
  erewrite bind_Some; last first.
  { rewrite (bind_Some _ _ _ _ _ (ret_Some _ _)). simpl.
    erewrite bind_Some; [by rewrite ret_Some|exact Hrun]. }
  done.
Qed.

Lemma Resize_grow h p c s es (n : N) :
  is_vector h (mkVector (mkRawMemory p c) s) es →
  (c < n)%N → (n < size_modulus)%N →
  let c' := N.max (size_mul c 2) n in
  let es' := es ++ replicate (N.to_nat n - length es) value_init in
  let b := fresh (dom h) in
  let h' := free_block p (<[b := layout es' c']> h) in
  Resize (mkVector (mkRawMemory p c) s) n h
  = Some (mkVector (mkRawMemory (Ptr b 0) c') n, h')
  ∧ is_vector h' (mkVector (mkRawMemory (Ptr b 0) c') n) es'.
Proof.
  intros Hv Hcn Hn c' es' b h'.
  assert (Hc' : (c < c')%N ∧ (n ≤ c')%N ∧ (c' < size_modulus)%N).
  { unfold c'. pose proof (size_t_lt (c * 2)). unfold size_mul. lia. }
  destruct Hc' as (Hcc' & Hnc' & Hc').
  destruct (Reserve_grow _ _ _ _ _ _ Hv Hcc' Hc') as [Hres Hv1].
  fold b in Hres, Hv1.
  pose proof Hv as (Hb & Hs & Hle & Hc). simpl in Hb, Hs, Hle, Hc.
  destruct (value_construct_tail _ _ _ _ _ n Hv1) as [Hrun Hv2]; [lia..|].
  fold es' in Hrun, Hv2.
  assert (Hsep : separate p (Ptr b 0)) by by eapply separate_fresh.
  assert (Hh' : set_block (Ptr b 0) (layout es' c')
                  (free_block p (<[b:=layout es c']> h)) = h').
  { unfold h'. destruct p as [|b' [|o]]; simpl.
    - by rewrite insert_insert_eq.
    - assert (b' ≠ b) by by eapply separate_ne.
      rewrite <- (delete_insert_ne _ b' b) by done.
      by rewrite insert_insert_eq.
    - by rewrite insert_insert_eq. }
  rewrite Hh' in Hrun, Hv2.
  split; [|done].
  unfold Resize. simpl.
  replace (n <? s)%N with false by (symmetry; apply N.ltb_ge; lia).
  replace (c <? n)%N with true by (symmetry; apply N.ltb_lt; lia).
  erewrite bind_Some; last first.
  { rewrite (bind_Some _ _ _ _ _ Hres). simpl.
    erewrite bind_Some; [by rewrite ret_Some|exact Hrun]. }
  done.
Qed.

(** ** Constructor arguments *)

Lemma load_inv h p x h' :
  load p h = Some (x, h') →
  h' = h ∧ ∃ b o cells, p = Ptr b o ∧ h !! b = Some cells ∧ cells !! o = Some (Some x).
Proof.
  unfold load. destruct p as [|b o]; [done|].
  destruct (h !! b) as [cells|] eqn:Hb; [|done].
  destruct (cells !! o) as [[y|]|] eqn:Ho; [|done..].
  intros [= -> ->]. eauto 10.
Qed.

Lemma load_insert_ne h b o cells b' cells' x :
  b ≠ b' → load (Ptr b o) h = Some (x, h) →
  load (Ptr b o) (<[b' := cells']> h) = Some (x, <[b' := cells']> h).
Proof.
  intros Hne (_ & ? & ? & ? & ? & Hb & Ho)%load_inv. simplify_eq.
  eapply load_Some; [|done]. by rewrite lookup_insert_ne.
Qed.

Lemma forward_args_insert h args x ha b cells :
  forward_args args h = Some (x, ha) →
  (∀ src o, args_source args = Some src → src ≠ Ptr b o) →
  forward_args args (<[b := cells]> h) = Some (x, <[b := cells]> ha).
Proof.
  intros Hfw Hsrc. destruct args as [y|src|src]; simpl in *.
  - rewrite ret_Some in Hfw |- *. by simplify_eq.
  - apply load_inv in Hfw as (-> & b' & o & cs & -> & Hb & Ho).
    eapply load_Some; [|done]. rewrite lookup_insert_ne; [done|].
    intros ->. by eapply Hsrc.
  - unfold mbind, M_bind, bind in Hfw |- *.
    destruct (load src h) as [[y h1]|] eqn:Hl; [|done].
    apply load_inv in Hl as (-> & b' & o & cs & -> & Hb & Ho).
    assert (b ≠ b') by (intros ->; by eapply Hsrc).
    erewrite assign_Some in Hfw by done. rewrite ret_Some in Hfw. simplify_eq.
    erewrite load_Some; [|by rewrite lookup_insert_ne|done].
    erewrite assign_Some; [|by rewrite lookup_insert_ne|done].
    by rewrite ret_Some, insert_insert_ne.
Qed.

Lemma forward_args_dom h args x ha b :
  forward_args args h = Some (x, ha) → h !! b = None → ha !! b = None.
Proof.
  intros Hfw Hb. destruct args as [y|src|src]; simpl in *.
  - rewrite ret_Some in Hfw. by simplify_eq.
  - by apply load_inv in Hfw as (-> & _).
  - unfold mbind, M_bind, bind in Hfw.
    destruct (load src h) as [[y h1]|] eqn:Hl; [|done].
    apply load_inv in Hl as (-> & b' & o & cs & -> & Hb' & Ho).
    erewrite assign_Some in Hfw by done. rewrite ret_Some in Hfw. simplify_eq.
    rewrite lookup_insert_ne; [done|]. by intros ->; simplify_eq.
Qed.

Lemma forward_args_fresh h args x ha cells :
  forward_args args h = Some (x, ha) →
  forward_args args (<[fresh (dom h) := cells]> h)
  = Some (x, <[fresh (dom h) := cells]> ha)
  ∧ ha !! fresh (dom h) = None.
Proof.
  intros Hfw. split; [|by eapply forward_args_dom, fresh_block].
  eapply forward_args_insert; [done|]. intros src o Hsrc ->.
  destruct args as [y|src'|src']; simpl in *; simplify_eq.
  - apply load_inv in Hfw as (_ & ? & ? & ? & ? & Hb & _). simplify_eq.
    by rewrite fresh_block in Hb.
  - unfold mbind, M_bind, bind in Hfw.
    destruct (load _ h) as [[y h1]|] eqn:Hl; [|done].
    apply load_inv in Hl as (_ & ? & ? & ? & ? & Hb & _). simplify_eq.
    by rewrite fresh_block in Hb.
Qed.

Lemma construct_from_at h p args x ha (k : N) pre s post :
  forward_args args h = Some (x, ha) →
  block_of ha p = Some (pre ++ s :: post) → N.to_nat k = length pre →
  construct_from (p +ₚ k) args h
  = Some (tt, set_block p (pre ++ Some x :: post) ha).
Proof.
  intros Hfw Hp Hk. unfold construct_from.
  rewrite (bind_Some _ _ _ _ _ Hfw). by eapply construct_at_at.
Qed.

Lemma copy_construct_from dst src : copy_construct dst src = construct_from dst (FromCopy src).
Proof. done. Qed.

Lemma move_construct_from dst src h :
  move_construct dst src h = construct_from dst (FromMove src) h.
Proof.
  unfold move_construct, construct_from, forward_args, mbind, M_bind, bind.
  destruct (load src h) as [[x h1]|]; [|done].
  by destruct (assign src (moved x) h1) as [[[] h2]|].
Qed.

Lemma uninitialized_copy_n_1 src dst h :
  uninitialized_copy_n src 1 dst h = construct_from dst (FromCopy src) h.
Proof.
  rewrite <- copy_construct_from.
  unfold uninitialized_copy_n. simpl. unfold mbind, M_bind, bind.
  by destruct (copy_construct dst src h) as [[[] h1]|].
Qed.

Lemma uninitialized_move_n_1 src dst h :
  uninitialized_move_n src 1 dst h = construct_from dst (FromMove src) h.
Proof.
  rewrite <- move_construct_from.
  unfold uninitialized_move_n. simpl. unfold mbind, M_bind, bind.
  by destruct (move_construct dst src h) as [[[] h1]|].
Qed.

(** ** Appending: [PushBack], [EmplaceBack] *)

Lemma grown_capacity_exact (s : N) :
  (2 * s < size_modulus)%N → grown_capacity s = N.max 1 (2 * s).
Proof.
  intros Hs. unfold grown_capacity. destruct (N.eqb_spec s 0) as [->|Hne]; [done|].
  rewrite size_mul_exact by lia. lia.
Qed.

(** The growing branch, from the construction of the new element in the
    new block to the release of the old one.  [mk] is the statement that
    constructs the element. *)
Lemma append_grow {A} h p c s es args x ha (c' : N) (mk : M unit) (k : M A) :
  let b := fresh (dom h) in
  (∀ h0, mk h0 = construct_from (Ptr b 0 +ₚ s) args h0) →
  forward_args args h = Some (x, ha) →
  is_vector ha (mkVector (mkRawMemory p c) s) es →
  (s < c')%N → (c' < size_modulus)%N →
  let h' := free_block p (<[b := layout (es ++ [x]) c']> ha) in
  (mk;; relocate_n p s (Ptr b 0);; destroy_n p s;;
   RawMemory_destroy (mkRawMemory p c);; k)
    (<[b := replicate (N.to_nat c') None]> h)
  = k h'
  ∧ is_vector h' (mkVector (mkRawMemory (Ptr b 0) c') (s + 1)) (es ++ [x]).
Proof.
  intros b Hmk Hfw (Hb & Hs & Hle & Hc) Hc' Hlt h'. simpl in Hb, Hs, Hle, Hc.
  destruct (forward_args_fresh _ _ _ _ (replicate (N.to_nat c') None) Hfw)
    as [Hfw' Hfresh]. fold b in Hfw', Hfresh.
  assert (Hsep : separate p (Ptr b 0)).
  { intros b' o o' -> [= <-]. destruct o; simpl in Hb; [|done]. by simplify_eq. }
  assert (Hraw : replicate (N.to_nat c') None
                 = replicate (length es) (@None T)
                     ++ None :: replicate (N.to_nat c' - S (length es)) None).
  { replace (N.to_nat c') with (length es + S (N.to_nat c' - S (length es))) at 1
      by lia.
    by rewrite replicate_add. }
  split.
  - erewrite bind_Some; last first.
    { rewrite Hmk. eapply construct_from_at; [exact Hfw'| |].
      - rewrite block_of_new. f_equal. exact Hraw.
      - len. }
    cbn [set_block]. rewrite insert_insert_eq.
    erewrite (relocate_and_release _ p c s es (Ptr b 0)); [|try done..].
    + f_equal. unfold h'. cbn [set_block]. rewrite insert_insert_eq.
      by rewrite layout_snoc by lia.
    + by rewrite block_of_insert_ne.
    + lia.
    + by rewrite block_of_new.
    + len.
  - repeat split; cbn [data_ buffer_ capacity_ size_]; [|len..].
    unfold h'. rewrite block_of_free_block_ne by done. apply block_of_new.
Qed.

Lemma size_modulus_gt_1 : (1 < size_modulus)%N.
Proof. done. Qed.

Lemma RawMemory_plus_Some h (rm : RawMemory) (offset : N) :
  (offset ≤ capacity_ rm)%N →
  RawMemory_plus rm offset h = Some (buffer_ rm +ₚ offset, h).
Proof.
  intros Hle. unfold RawMemory_plus.
  by replace (offset <=? capacity_ rm)%N with true by (symmetry; by apply N.leb_le).
Qed.

Lemma EmplaceBack_grow h p c s es args x ha :
  forward_args args h = Some (x, ha) →
  is_vector ha (mkVector (mkRawMemory p c) s) es →
  s = c → (2 * c < size_modulus)%N →
  let b := fresh (dom h) in
  let c' := N.max 1 (2 * c) in
  let h' := free_block p (<[b := layout (es ++ [x]) c']> ha) in
  EmplaceBack (mkVector (mkRawMemory p c) s) args h
  = Some ((mkVector (mkRawMemory (Ptr b 0) c') (s + 1), Ptr b 0 +ₚ s), h')
  ∧ is_vector h' (mkVector (mkRawMemory (Ptr b 0) c') (s + 1)) (es ++ [x]).
Proof.
  intros Hfw Hv -> Hc b c' h'. pose proof size_modulus_gt_1.
  edestruct (append_grow h p c c es args x ha c'
               (construct_from (Ptr (fresh (dom h)) 0 +ₚ c) args)
               (mret (mkVector (mkRawMemory (Ptr b 0) c') c, Ptr b 0 +ₚ c)))
    as [Hrun Hv']; [done..|unfold c'; lia|pose proof size_modulus_gt_1; lia|].
  split; [|exact Hv'].
  unfold EmplaceBack, Capacity. simpl.
  rewrite N.eqb_refl, grown_capacity_exact by done. fold c'.
  erewrite bind_Some; last first.
  { rewrite (bind_Some _ _ _ _ _ (RawMemory_new_Some h c' ltac:(unfold c'; lia))).
    rewrite (bind_Some _ _ _ _ _
      (RawMemory_plus_Some _ (mkRawMemory (Ptr b 0) c') c ltac:(unfold c'; simpl; lia))).
    simpl. apply Hrun. }
  simpl. by rewrite size_add_exact by lia.
Qed.

Lemma EmplaceBack_in_place h p c s es args x ha :
  forward_args args h = Some (x, ha) →
  is_vector ha (mkVector (mkRawMemory p c) s) es →
  (s < c)%N →
  let h' := set_block p (layout (es ++ [x]) c) ha in
  EmplaceBack (mkVector (mkRawMemory p c) s) args h
  = Some ((mkVector (mkRawMemory p c) (s + 1), p +ₚ s), h')
  ∧ is_vector h' (mkVector (mkRawMemory p c) (s + 1)) (es ++ [x]).
Proof.
  intros Hfw (Hb & Hs & Hle & Hc) Hlt h'. simpl in Hb, Hs, Hle, Hc.
  rewrite layout_raw in Hb by lia.
  split.
  - unfold EmplaceBack, Capacity. simpl.
    replace (s =? c)%N with false by (symmetry; apply N.eqb_neq; lia).
    erewrite bind_Some; last first.
    { rewrite (bind_Some _ _ _ _ _
        (RawMemory_plus_Some _ (mkRawMemory p c) s ltac:(simpl; lia))).
      simpl. erewrite bind_Some; [by rewrite ret_Some|].
      eapply construct_from_at; [done..|len]. }
    simpl. rewrite size_add_exact by lia.
    unfold h'. by rewrite layout_snoc by lia.
  - repeat split; cbn [data_ buffer_ capacity_ size_]; [|len..].
    unfold h'. eapply block_of_set_block; [done|].
    rewrite length_layout by len. len.
Qed.

Lemma PushBack_grow h p c s es value x ha :
  forward_args (FromCopy value) h = Some (x, ha) →
  is_vector ha (mkVector (mkRawMemory p c) s) es →
  s = c → (2 * c < size_modulus)%N →
  let b := fresh (dom h) in
  let c' := N.max 1 (2 * c) in
  let h' := free_block p (<[b := layout (es ++ [x]) c']> ha) in
  PushBack (mkVector (mkRawMemory p c) s) value h
  = Some (mkVector (mkRawMemory (Ptr b 0) c') (s + 1), h')
  ∧ is_vector h' (mkVector (mkRawMemory (Ptr b 0) c') (s + 1)) (es ++ [x]).
Proof.
  intros Hfw Hv -> Hc b c' h'. pose proof size_modulus_gt_1.
  edestruct (append_grow h p c c es (FromCopy value) x ha c'
               (uninitialized_copy_n value 1 (Ptr (fresh (dom h)) 0 +ₚ c))
               (mret (mkVector (mkRawMemory (Ptr b 0) c') c)))
    as [Hrun Hv']; [apply uninitialized_copy_n_1|done..|unfold c'; lia|lia|].
  split; [|exact Hv'].
  unfold PushBack, Capacity. simpl.
  rewrite N.eqb_refl, grown_capacity_exact by done. fold c'.
  erewrite bind_Some; last first.
  { rewrite (bind_Some _ _ _ _ _ (RawMemory_new_Some h c' ltac:(unfold c'; lia))).
    simpl. apply Hrun. }
  simpl. by rewrite size_add_exact by lia.
Qed.

Lemma PushBack_in_place h p c s es value x ha :
  forward_args (FromCopy value) h = Some (x, ha) →
  is_vector ha (mkVector (mkRawMemory p c) s) es →
  (s < c)%N →
  let h' := set_block p (layout (es ++ [x]) c) ha in
  PushBack (mkVector (mkRawMemory p c) s) value h
  = Some (mkVector (mkRawMemory p c) (s + 1), h')
  ∧ is_vector h' (mkVector (mkRawMemory p c) (s + 1)) (es ++ [x]).
Proof.
  intros Hfw Hv Hlt h'.
  destruct (EmplaceBack_in_place _ _ _ _ _ _ _ _ Hfw Hv Hlt) as [_ Hv'].
  split; [|exact Hv'].
  destruct Hv as (Hb & Hs & Hle & Hc). simpl in Hb, Hs, Hle, Hc.
  rewrite layout_raw in Hb by lia.
  unfold PushBack, Capacity. simpl.
  replace (s =? c)%N with false by (symmetry; apply N.eqb_neq; lia).
  erewrite bind_Some; last first.
  { rewrite (bind_Some _ _ _ _ _
      (RawMemory_plus_Some _ (mkRawMemory p c) s ltac:(simpl; lia))).
    simpl. erewrite bind_Some; [by rewrite ret_Some|].
    rewrite copy_construct_from. eapply construct_from_at; [done..|len]. }
  simpl. rewrite size_add_exact by lia.
  unfold h'. by rewrite layout_snoc by lia.
Qed.

Lemma PushBack_move_grow h p c s es value x ha :
  forward_args (FromMove value) h = Some (x, ha) →
  is_vector ha (mkVector (mkRawMemory p c) s) es →
  s = c → (2 * c < size_modulus)%N →
  let b := fresh (dom h) in
  let c' := N.max 1 (2 * c) in
  let h' := free_block p (<[b := layout (es ++ [x]) c']> ha) in
  PushBack_move (mkVector (mkRawMemory p c) s) value h
  = Some (mkVector (mkRawMemory (Ptr b 0) c') (s + 1), h')
  ∧ is_vector h' (mkVector (mkRawMemory (Ptr b 0) c') (s + 1)) (es ++ [x]).
Proof.
  intros Hfw Hv -> Hc b c' h'. pose proof size_modulus_gt_1.
  edestruct (append_grow h p c c es (FromMove value) x ha c'
               (uninitialized_move_n value 1 (Ptr (fresh (dom h)) 0 +ₚ c))
               (mret (mkVector (mkRawMemory (Ptr b 0) c') c)))
    as [Hrun Hv']; [apply uninitialized_move_n_1|done..|unfold c'; lia|lia|].
  split; [|exact Hv'].
  unfold PushBack_move, Capacity. simpl.
  rewrite N.eqb_refl, grown_capacity_exact by done. fold c'.
  erewrite bind_Some; last first.
  { rewrite (bind_Some _ _ _ _ _ (RawMemory_new_Some h c' ltac:(unfold c'; lia))).
    simpl. apply Hrun. }
  simpl. by rewrite size_add_exact by lia.
Qed.

Lemma PushBack_move_in_place h p c s es value x ha :
  forward_args (FromMove value) h = Some (x, ha) →
  is_vector ha (mkVector (mkRawMemory p c) s) es →
  (s < c)%N →
  let h' := set_block p (layout (es ++ [x]) c) ha in
  PushBack_move (mkVector (mkRawMemory p c) s) value h
  = Some (mkVector (mkRawMemory p c) (s + 1), h')
  ∧ is_vector h' (mkVector (mkRawMemory p c) (s + 1)) (es ++ [x]).
Proof.
  intros Hfw Hv Hlt h'.
  destruct (EmplaceBack_in_place _ _ _ _ _ _ _ _ Hfw Hv Hlt) as [_ Hv'].
  split; [|exact Hv'].
  destruct Hv as (Hb & Hs & Hle & Hc). simpl in Hb, Hs, Hle, Hc.
  rewrite layout_raw in Hb by lia.
  unfold PushBack_move, Capacity. simpl.
  replace (s =? c)%N with false by (symmetry; apply N.eqb_neq; lia).
  erewrite bind_Some; last first.
  { rewrite (bind_Some _ _ _ _ _
      (RawMemory_plus_Some _ (mkRawMemory p c) s ltac:(simpl; lia))).
    simpl. erewrite bind_Some; [by rewrite ret_Some|].
    rewrite move_construct_from. eapply construct_from_at; [done..|len]. }
  simpl. rewrite size_add_exact by lia.
  unfold h'. by rewrite layout_snoc by lia.
Qed.

(** ** Positions *)

Lemma ptr_le_add h p cells (k : N) :
  block_of h p = Some cells → ptr_le p (p +ₚ k) = true.
Proof.
  intros [[-> ->]|(b & -> & Hb)]%block_of_cases; [done|].
  rewrite ptr_add_start. simpl. by rewrite !bool_decide_true by (done || lia).
Qed.

Lemma ptr_le_add_add h p cells (i j : N) :
  block_of h p = Some cells → (i ≤ j)%N → ptr_le (p +ₚ i) (p +ₚ j) = true.
Proof.
  intros [[-> ->]|(b & -> & Hb)]%block_of_cases Hij; [done|].
  rewrite !ptr_add_start. simpl. by rewrite !bool_decide_true by (done || lia).
Qed.

Lemma ptr_lt_add_add h p cells (i j : N) :
  block_of h p = Some cells → cells ≠ [] → (i < j)%N →
  ptr_lt (p +ₚ i) (p +ₚ j) = true.
Proof.
  intros [[-> ->]|(b & -> & Hb)]%block_of_cases Hne Hij; [done|].
  rewrite !ptr_add_start. simpl. by rewrite !bool_decide_true by (done || lia).
Qed.

Lemma set_block_set_block h p cells cells' :
  set_block p cells (set_block p cells' h) = set_block p cells h.
Proof. destruct p as [|b [|o]]; [done| |done]. simpl. apply insert_insert_eq. Qed.

(** ** [Erase] *)

Lemma Erase_spec h p c s es1 a es2 (i : N) :
  is_vector h (mkVector (mkRawMemory p c) s) (es1 ++ a :: es2) →
  N.to_nat i = length es1 →
  let h' := set_block p (layout (es1 ++ es2) c) h in
  Erase (mkVector (mkRawMemory p c) s) (p +ₚ i) h
  = Some ((mkVector (mkRawMemory p c) (s - 1), p +ₚ i), h')
  ∧ is_vector h' (mkVector (mkRawMemory p c) (s - 1)) (es1 ++ es2).
Proof.
  intros Hv Hi h'.
  pose proof Hv as (Hb & Hs & Hle & Hc). simpl in Hb, Hs, Hle, Hc.
  rewrite length_app in Hs. simpl in Hs.
  set (z := left_behind a (list.last es2)).
  set (h1 := set_block p (layout ((es1 ++ es2) ++ [z]) c) h).
  assert (Hmove : std_move (p +ₚ i +ₚ 1) (p +ₚ s) (p +ₚ i) h = Some (tt, h1)).
  { erewrite (std_move_at _ _ _ _ (Some <$> es1) a es2
                (replicate (N.to_nat c - length (es1 ++ a :: es2)) None)); [|..].
    - unfold h1, layout. rewrite !fmap_app, <- !app_assoc. simpl.
      do 6 f_equal. len. f_equal. lia.
    - rewrite Hb. unfold layout. by rewrite fmap_app, fmap_cons, <- app_assoc.
    - len.
    - len. }
  assert (Hv1 : is_vector h1 (mkVector (mkRawMemory p c) s) ((es1 ++ es2) ++ [z])).
  { repeat split; cbn [data_ buffer_ capacity_ size_]; [|len..].
    unfold h1. eapply block_of_set_block; [done|].
    by rewrite !length_layout by len. }
  destruct (PopBack_nonempty _ _ _ _ _ _ Hv1) as [Hpop Hv2].
  unfold h1 in Hpop, Hv2. rewrite set_block_set_block in Hpop, Hv2.
  split; [|exact Hv2].
  unfold Erase, begin, end_. simpl.
  erewrite bind_Some; last first.
  { erewrite ptr_le_add by done.
    erewrite (ptr_lt_add_add _ _ _ i s); [done..| |lia].
    unfold layout. by destruct es1. }
  erewrite bind_Some; last first.
  { unfold lift. erewrite ptr_diff_add; [done..|].
    rewrite length_layout; len. }
  rewrite N2Nat.id.
  rewrite (bind_Some _ _ _ _ _ Hmove).
  rewrite (bind_Some _ _ _ _ _ Hpop). done.
Qed.

(** ** Two buffers at once *)

Lemma set_block_commute h p q cells cells' :
  separate p q →
  set_block p cells (set_block q cells' h) = set_block q cells' (set_block p cells h).
Proof.
  intros Hsep. destruct p as [|b [|o]]; [done| |done].
  destruct q as [|b' [|o']]; [done| |done]. simpl.
  apply insert_insert_ne. by eapply separate_ne.
Qed.

Lemma set_block_pair_twice h p q old new old' new' :
  separate p q →
  set_block q new' (set_block p old' (set_block q new (set_block p old h)))
  = set_block q new' (set_block p old' h).
Proof.
  intros Hsep. rewrite (set_block_commute _ p q) by done.
  by rewrite !set_block_set_block.
Qed.

Lemma block_of_pair_old h p q old old0 new :
  separate p q → block_of h p = Some old0 → length old = length old0 →
  block_of (set_block q new (set_block p old h)) p = Some old.
Proof.
  intros Hsep Hp Hlen. rewrite block_of_set_block_ne by by apply separate_sym.
  by eapply block_of_set_block.
Qed.

Lemma block_of_pair_new h p b old new :
  block_of (set_block (Ptr b 0) new (set_block p old h)) (Ptr b 0) = Some new.
Proof. apply block_of_new. Qed.

Lemma free_block_pair h p b old new :
  separate p (Ptr b 0) →
  free_block p (set_block (Ptr b 0) new (set_block p old h))
  = free_block p (<[b := new]> h).
Proof.
  intros Hsep. rewrite <- (set_block_commute _ p) by done.
  destruct p as [|b' [|o]]; [done| |done]. simpl. by rewrite delete_insert_eq.
Qed.

(** ** [Emplace]: the growing branch *)

Lemma position_in_range h0 h p cells (i s : N) :
  block_of h0 p = Some cells → (i ≤ s)%N →
  assert (ptr_le p (p +ₚ i) && ptr_le (p +ₚ i) (p +ₚ s)) h = Some (tt, h).
Proof. intros Hb Hi. by erewrite ptr_le_add, ptr_le_add_add by done. Qed.

Lemma position_shift h0 h p cells (i : N) :
  block_of h0 p = Some cells → N.to_nat i ≤ length cells →
  lift (ptr_diff (p +ₚ i) p) h = Some (N.to_nat i, h).
Proof. intros Hb Hi. unfold lift. by erewrite ptr_diff_add. Qed.

Lemma Emplace_grow h p c s es1 es2 args x ha (i : N) :
  forward_args args h = Some (x, ha) →
  is_vector ha (mkVector (mkRawMemory p c) s) (es1 ++ es2) →
  N.to_nat i = length es1 → s = c → (2 * c < size_modulus)%N →
  let b := fresh (dom h) in
  let c' := N.max 1 (2 * c) in
  let h' := free_block p (<[b := layout (es1 ++ x :: es2) c']> ha) in
  Emplace (mkVector (mkRawMemory p c) s) (p +ₚ i) args h
  = Some ((mkVector (mkRawMemory (Ptr b 0) c') (s + 1), Ptr b 0 +ₚ i), h')
  ∧ is_vector h' (mkVector (mkRawMemory (Ptr b 0) c') (s + 1)) (es1 ++ x :: es2).
Proof.
  intros Hfw Hv Hi -> Hc b c' h'. pose proof size_modulus_gt_1 as Hmod.
  pose proof Hv as (Hb & Hs & _ & _). simpl in Hb, Hs. rewrite length_app in Hs.
  rewrite layout_full, fmap_app in Hb by len.
  destruct (forward_args_fresh _ _ _ _ (replicate (N.to_nat c') None) Hfw)
    as [Hfw' Hfresh]. fold b in Hfw', Hfresh.
  set (q := Ptr b 0).
  assert (Hsep : separate p q).
  { intros b' o o' -> [= <-]. destruct o; simpl in Hb; [|done]. by simplify_eq. }
  assert (Hc' : (c < c')%N ∧ (c' < size_modulus)%N) by (unfold c'; lia).
  set (n1 := length es1) in *. set (n2 := length es2) in *.
  set (rest := replicate (N.to_nat c' - S (n1 + n2)) (@None T)).
  set (old0 := (Some <$> es1) ++ (Some <$> es2)) in *.
  set (new1 := replicate n1 None ++ Some x :: replicate n2 None ++ rest).
  set (old2 := (Some <$> (relocated <$> es1)) ++ (Some <$> es2)).
  set (new2 := (Some <$> es1) ++ Some x :: replicate n2 None ++ rest).
  set (old3 := (Some <$> (relocated <$> es1)) ++ (Some <$> (relocated <$> es2)) ++ []).
  set (new3 := ((Some <$> es1) ++ [Some x]) ++ (Some <$> es2) ++ rest).
  set (old4 := replicate (length (relocated <$> (es1 ++ es2))) (@None T) ++ []).
  set (st := λ old new, set_block q new (set_block p old ha)).
  assert (Hold : ∀ old new, length old = n1 + n2 → block_of (st old new) p = Some old).
  { intros old new Hlen. eapply block_of_pair_old; [done..|]. unfold old0. len. }
  assert (S1 : construct_from (q +ₚ i) args (<[b := replicate (N.to_nat c') None]> h)
               = Some (tt, st old0 new1)).
  { erewrite (construct_from_at _ q _ _ _ _ (replicate n1 None) None
                (replicate n2 None ++ rest)); [|exact Hfw'| |len].
    - unfold st. rewrite (set_block_id _ p) by done. simpl.
      by rewrite insert_insert_eq.
    - rewrite block_of_new. f_equal. unfold rest.
      replace (N.to_nat c') with (n1 + S (n2 + (N.to_nat c' - S (n1 + n2)))) at 1
        by lia.
      rewrite replicate_add. simpl. by rewrite replicate_add. }
  assert (S2 : relocate_n p i q (st old0 new1) = Some (tt, st old2 new2)).
  { erewrite (relocate_n_start _ p q i es1 (Some <$> es2) (replicate n1 None)
                (Some x :: replicate n2 None ++ rest)); [|try done..].
    - unfold st. by rewrite set_block_pair_twice.
    - apply Hold. unfold old0. len.
    - apply block_of_pair_new.
    - len. }
  assert (S3 : relocate_n (p +ₚ i) (size_sub c i) (q +ₚ i +ₚ 1) (st old2 new2)
               = Some (tt, st old3 new3)).
  { rewrite ptr_add_add.
    erewrite (relocate_n_at _ p q i (i + 1) _ (Some <$> (relocated <$> es1)) es2 []
                ((Some <$> es1) ++ [Some x]) (replicate n2 None) rest);
      [|try done..].
    - unfold st. by rewrite set_block_pair_twice.
    - rewrite app_nil_r. apply Hold. unfold old2. len.
    - unfold st, q. rewrite block_of_pair_new. unfold new2.
      by rewrite <- app_assoc.
    - len.
    - len.
    - len.
    - rewrite size_sub_exact by lia. lia. }
  assert (S4 : destroy_n p c (st old3 new3) = Some (tt, st old4 new3)).
  { erewrite (destroy_n_start _ p c (relocated <$> (es1 ++ es2)) []); [| |len].
    - unfold st. rewrite set_block_commute by done.
      by rewrite set_block_set_block.
    - rewrite !fmap_app, <- app_assoc. apply Hold. unfold old3. len. }
  assert (S5 : RawMemory_destroy (mkRawMemory p c) (st old4 new3) = Some (tt, h')).
  { unfold RawMemory_destroy. cbn [buffer_].
    erewrite Deallocate_Some; last first.
    { apply Hold. unfold old4. len. }
    unfold st, h', q. erewrite free_block_pair by done.
    do 4 f_equal. unfold new3, layout, rest.
    rewrite fmap_app, <- !app_assoc. simpl. do 4 f_equal. len. }
  split.
  - unfold Emplace, begin, end_, Capacity. simpl.
    rewrite (bind_Some _ _ _ _ _ (position_in_range _ h _ _ i c Hb ltac:(lia))).
    rewrite (bind_Some _ _ _ _ _
      (position_shift _ h _ _ i Hb ltac:(unfold old0; len))).
    rewrite N2Nat.id.
    rewrite N.eqb_refl, grown_capacity_exact by done. fold c'.
    erewrite bind_Some; last first.
    { rewrite (bind_Some _ _ _ _ _ (RawMemory_new_Some h c' ltac:(lia))).
      rewrite (bind_Some _ _ _ _ _
        (RawMemory_plus_Some _ (mkRawMemory (Ptr b 0) c') i ltac:(simpl; lia))).
      simpl. fold b q.
      rewrite (bind_Some _ _ _ _ _ S1), (bind_Some _ _ _ _ _ S2),
        (bind_Some _ _ _ _ _ S3), (bind_Some _ _ _ _ _ S4),
        (bind_Some _ _ _ _ _ S5).
      by rewrite ret_Some. }
    simpl. by rewrite size_add_exact by lia.
  - repeat split; cbn [data_ buffer_ capacity_ size_]; [|len..].
    unfold h'. rewrite block_of_free_block_ne by done. apply block_of_new.
Qed.

(** ** [Emplace]: the branch without growth *)

Lemma last_moved_snoc es x : last_moved (es ++ [x]) = es ++ [moved x].
Proof.
  induction es as [|e es IH]; [done|]. simpl. rewrite IH.
  by destruct es.
Qed.

Lemma length_last_moved es : length (last_moved es) = length es.
Proof.
  destruct es as [|e es] using rev_ind; [done|].
  rewrite last_moved_snoc. len.
Qed.

Lemma forward_args_block_ne h args x ha p :
  forward_args args h = Some (x, ha) →
  (∀ src, args_source args = Some src → separate p src) →
  block_of ha p = block_of h p.
Proof.
  intros Hfw Hsrc. destruct args as [y|src|src]; simpl in *.
  - rewrite ret_Some in Hfw. by simplify_eq.
  - by apply load_inv in Hfw as (-> & _).
  - unfold mbind, M_bind, bind in Hfw.
    destruct (load src h) as [[y h1]|] eqn:Hl; [|done].
    apply load_inv in Hl as (-> & b' & o & cs & -> & Hb' & Ho).
    erewrite assign_Some in Hfw by done. rewrite ret_Some in Hfw. simplify_eq.
    destruct p as [|b [|o']]; [done| |done]. simpl.
    apply lookup_insert_ne. intros ->. by eapply (Hsrc _ eq_refl).
Qed.

Lemma forward_args_set_block h args x ha p cells :
  forward_args args h = Some (x, ha) →
  (∀ src, args_source args = Some src → separate p src) →
  forward_args args (set_block p cells h) = Some (x, set_block p cells ha).
Proof.
  intros Hfw Hsrc. destruct p as [|b [|o]]; [done| |done]. simpl.
  eapply forward_args_insert; [done|].
  intros src o Hs ->. by eapply (Hsrc _ Hs).
Qed.

Lemma move_construct_next h p (k : N) pre x s post :
  block_of h p = Some (pre ++ Some x :: s :: post) → N.to_nat k = length pre →
  move_construct (p +ₚ (k + 1)) (p +ₚ k) h
  = Some (tt, set_block p (pre ++ Some (moved x) :: Some x :: post) h).
Proof.
  intros Hb Hk. unfold move_construct.
  rewrite (bind_Some _ _ _ _ _ (load_at _ _ _ _ _ _ Hb Hk)).
  erewrite bind_Some; last first.
  { unfold assign. rewrite (bind_Some _ _ _ _ _ (load_at _ _ _ _ _ _ Hb Hk)).
    by eapply write_slot_at. }
  erewrite (construct_at_at _ _ _ (pre ++ [Some (moved x)]) s x post); [| |len].
  - rewrite set_block_set_block. by rewrite <- app_assoc.
  - rewrite <- app_assoc. eapply block_of_set_block; [done|len].
Qed.

(** The shifting the branch without growth performs before it constructs
    the new element: afterwards slot [i] is raw storage again, the elements
    from [i] on sit one slot further right, and the last of them is in its
    moved-from state. *)
Lemma Emplace_make_room h p c s es (i : N) :
  is_vector h (mkVector (mkRawMemory p c) s) es →
  (i ≤ s)%N → (s < c)%N →
  let lm := last_moved es in
  let room := (Some <$> take (N.to_nat i) lm) ++ None
                :: (Some <$> drop (N.to_nat i) lm)
                ++ replicate (N.to_nat c - S (length es)) None in
  (if negb (s =? 0)%N then
     dst ← RawMemory_plus (mkRawMemory p c) s;
     src ← lift (ptr_prev (p +ₚ s));
     move_construct dst src;;
     move_backward (p +ₚ i) (p +ₚ s) (p +ₚ s +ₚ 1);;
     destroy_at (p +ₚ i)
   else mret tt) h
  = Some (tt, set_block p room h).
Proof.
  intros (Hb & Hs & Hle & Hc) Hi Hlt. cbv zeta. simpl in Hb, Hs, Hle, Hc.
  set (raw := replicate (N.to_nat c - S (length es)) (@None T)) in *.
  destruct es as [|l front _] using rev_ind.
  { simpl in Hs. subst s. simpl. rewrite ret_Some. f_equal. f_equal.
    symmetry. apply set_block_id. rewrite Hb.
    assert (i = 0%N) as -> by lia. f_equal. simpl.
    by rewrite layout_raw by (simpl; lia). }
  rewrite length_app in Hs. simpl in Hs.
  replace (negb (s =? 0)%N) with true
    by (symmetry; apply negb_true_iff, N.eqb_neq; lia).
  rewrite layout_snoc in Hb by lia.
  replace (N.to_nat c - S (length front)) with (S (N.to_nat c - S (length (front ++ [l]))))
    in Hb by len.
  simpl in Hb. fold raw in Hb.
  rewrite last_moved_snoc.
  set (es' := front ++ [moved l]) in *.
  rewrite (bind_Some _ _ _ _ _
    (RawMemory_plus_Some _ (mkRawMemory p c) s ltac:(simpl; lia))).
  erewrite bind_Some; last first.
  { unfold lift. erewrite ptr_prev_add; [done..| |lia]. by destruct front. }
  cbn [buffer_].
  erewrite bind_Some; last first.
  { replace s with (s - 1 + 1)%N at 1 by lia.
    eapply move_construct_next; [done|len]. }
  set (h1 := set_block p _ h).
  assert (H1 : block_of h1 p
               = Some ((Some <$> take (N.to_nat i) es')
                         ++ (Some <$> drop (N.to_nat i) es') ++ Some l :: raw)).
  { unfold h1. erewrite block_of_set_block; [|done|len].
    rewrite app_assoc, <- fmap_app, take_drop. unfold es'.
    by rewrite fmap_app, <- app_assoc. }
  assert (Hlen : length es' = N.to_nat s) by (unfold es'; len).
  erewrite bind_Some; last first.
  { eapply move_backward_at; [exact H1|len|len]. }
  set (z := left_behind l _).
  erewrite (destroy_at_at _ p i (Some <$> take (N.to_nat i) es') z); [| |len].
  - unfold h1. by rewrite !set_block_set_block.
  - eapply block_of_set_block; [exact H1|len].
Qed.

Lemma Emplace_in_place h p c s es args x ha (i : N) :
  forward_args args h = Some (x, ha) →
  (∀ src, args_source args = Some src → separate p src) →
  is_vector h (mkVector (mkRawMemory p c) s) es →
  (i ≤ s)%N → (s < c)%N →
  let es' := take (N.to_nat i) (last_moved es) ++ x
               :: drop (N.to_nat i) (last_moved es) in
  let h' := set_block p (layout es' c) ha in
  Emplace (mkVector (mkRawMemory p c) s) (p +ₚ i) args h
  = Some ((mkVector (mkRawMemory p c) (s + 1), p +ₚ i), h')
  ∧ is_vector h' (mkVector (mkRawMemory p c) (s + 1)) es'.
Proof.
  intros Hfw Hsrc Hv Hi Hlt es' h'.
  pose proof (Emplace_make_room _ _ _ _ _ _ Hv Hi Hlt) as Hroom.
  cbv zeta in Hroom.
  pose proof Hv as (Hb & Hs & Hle & Hc). simpl in Hb, Hs, Hle, Hc.
  set (lm := last_moved es) in *.
  assert (Hlm : length lm = length es) by apply length_last_moved.
  set (room := (Some <$> take (N.to_nat i) lm) ++ None :: _) in Hroom.
  assert (Hlen' : length es' = S (length es)).
  { unfold es'. len. }
  assert (Hha : block_of (set_block p room ha) p = Some room).
  { eapply block_of_set_block.
    - by erewrite forward_args_block_ne.
    - rewrite length_layout by lia. unfold room. len. }
  assert (Hh' : set_block p ((Some <$> take (N.to_nat i) lm) ++ Some x
                               :: (Some <$> drop (N.to_nat i) lm)
                               ++ replicate (N.to_nat c - S (length es)) None)
                  (set_block p room ha) = h').
  { rewrite set_block_set_block. unfold h', layout, es'.
    rewrite fmap_app, fmap_cons, <- app_assoc. simpl. do 3 f_equal.
    fold es'. by rewrite Hlen'. }
  split.
  - unfold Emplace, begin, end_, Capacity. simpl.
    rewrite (bind_Some _ _ _ _ _ (position_in_range _ h _ _ i s Hb Hi)).
    rewrite (bind_Some _ _ _ _ _
      (position_shift _ h _ _ i Hb ltac:(rewrite length_layout; lia))).
    rewrite N2Nat.id.
    replace (s =? c)%N with false by (symmetry; apply N.eqb_neq; lia).
    erewrite bind_Some; last first.
    { rewrite (bind_Some _ _ _ _ _ Hroom).
      rewrite (bind_Some _ _ _ _ _
        (RawMemory_plus_Some _ (mkRawMemory p c) i ltac:(simpl; lia))).
      cbn [buffer_].
      erewrite bind_Some; [by rewrite ret_Some|].
      eapply construct_from_at; [|exact Hha|len].
      by apply forward_args_set_block. }
    simpl. rewrite size_add_exact by lia. by rewrite Hh'.
  - repeat split; cbn [data_ buffer_ capacity_ size_]; [|len..].
    unfold h'. eapply block_of_set_block.
    + rewrite (forward_args_block_ne _ _ _ _ _ Hfw Hsrc). exact Hb.
    + rewrite (length_layout es') by (rewrite Hlen'; lia).
      by rewrite length_layout by lia.
Qed.




(** ** Constructors and the destructor *)

Lemma RawMemory_new_spec h (n : N) :
  RawMemory_new n h
  = Some (mkRawMemory (new_buffer h n) n,
          set_block (new_buffer h n) (replicate (N.to_nat n) None) h).
Proof.
  unfold new_buffer. destruct (N.eqb_spec n 0) as [->|Hn]; [done|].
  by rewrite RawMemory_new_Some.
Qed.

Lemma block_of_new_buffer h (n : N) cells :
  length cells = N.to_nat n →
  block_of (set_block (new_buffer h n) cells h) (new_buffer h n) = Some cells.
Proof.
  intros Hlen. unfold new_buffer. destruct (N.eqb_spec n 0) as [->|Hn].
  - by destruct cells.
  - apply block_of_new.
Qed.

Lemma separate_new_buffer h p cells (n : N) :
  block_of h p = Some cells → separate p (new_buffer h n).
Proof.
  intros Hp. unfold new_buffer. destruct (n =? 0)%N.
  - by intros b o o' ->.
  - by eapply separate_fresh.
Qed.

Lemma Vector_default_is_vector h : is_vector h Vector_default [].
Proof. by repeat split. Qed.

Lemma Vector_sized_spec h (n : N) :
  (n < size_modulus)%N →
  let q := new_buffer h n in
  let es := replicate (N.to_nat n) value_init in
  let h' := set_block q (layout es n) h in
  Vector_sized n h = Some (mkVector (mkRawMemory q n) n, h')
  ∧ is_vector h' (mkVector (mkRawMemory q n) n) es.
Proof.
  intros Hn q es h'.
  assert (Hlay : layout es n = replicate (N.to_nat n) (Some value_init) ++ []).
  { unfold es. rewrite layout_full by len. by rewrite fmap_replicate, app_nil_r. }
  split.
  - unfold Vector_sized. rewrite (bind_Some _ _ _ _ _ (RawMemory_new_spec h n)).
    cbn [GetAddress buffer_]. fold q.
    erewrite bind_Some; [by rewrite ret_Some|].
    erewrite (uninitialized_value_construct_n_start _ q n
                (replicate (N.to_nat n) None) []); [| |len].
    + rewrite set_block_set_block, length_replicate. unfold h'. by rewrite Hlay.
    + rewrite app_nil_r. apply block_of_new_buffer. len.
  - repeat split; cbn [data_ buffer_ capacity_ size_]; [|unfold es; len..].
    apply block_of_new_buffer. rewrite Hlay. len.
Qed.

Lemma Vector_copy_spec h p c s es :
  is_vector h (mkVector (mkRawMemory p c) s) es →
  let q := new_buffer h s in
  let h' := set_block q (layout es s) h in
  Vector_copy (mkVector (mkRawMemory p c) s) h
  = Some (mkVector (mkRawMemory q s) s, h')
  ∧ is_vector h' (mkVector (mkRawMemory q s) s) es
  ∧ separate p q.
Proof.
  intros (Hb & Hs & Hle & Hc) q h'. simpl in Hb, Hs, Hle, Hc.
  assert (Hsep : separate p q) by by eapply separate_new_buffer.
  assert (Hlay : layout es s = (Some <$> es) ++ []).
  { by rewrite layout_full, app_nil_r by lia. }
  split; [|split; [|done]].
  - unfold Vector_copy. cbn [data_ size_ GetAddress buffer_].
    rewrite (bind_Some _ _ _ _ _ (RawMemory_new_spec h s)).
    cbn [GetAddress buffer_]. fold q.
    erewrite bind_Some; [by rewrite ret_Some|].
    erewrite (uninitialized_copy_n_start _ p q s es _
                (replicate (N.to_nat s) None) []); [|try done..].
    + rewrite set_block_set_block. unfold h'. by rewrite Hlay.
    + by rewrite block_of_set_block_ne by by apply separate_sym.
    + rewrite app_nil_r. apply block_of_new_buffer. len.
    + len.
    + lia.
  - repeat split; cbn [data_ buffer_ capacity_ size_]; [|lia..].
    apply block_of_new_buffer. rewrite Hlay. len.
Qed.

Lemma free_block_set_block h p cells :
  free_block p (set_block p cells h) = free_block p h.
Proof. destruct p as [|b [|o]]; [done| |done]. simpl. apply delete_insert_eq. Qed.

Lemma Vector_destroy_spec h p c s es :
  is_vector h (mkVector (mkRawMemory p c) s) es →
  Vector_destroy (mkVector (mkRawMemory p c) s) h = Some (tt, free_block p h).
Proof.
  intros (Hb & Hs & Hle & Hc). simpl in Hb, Hs, Hle, Hc.
  unfold Vector_destroy, RawMemory_destroy. cbn [data_ size_ GetAddress buffer_].
  erewrite bind_Some; last first.
  { eapply destroy_n_start; [exact Hb|lia]. }
  erewrite Deallocate_Some; last first.
  { eapply block_of_set_block; [done|]. rewrite length_layout by lia. len. }
  by rewrite free_block_set_block.
Qed.

(** ** Copy assignment *)

Lemma is_vector_frame h h' v es :
  block_of h' (buffer_ (data_ v)) = block_of h (buffer_ (data_ v)) →
  is_vector h v es → is_vector h' v es.
Proof. intros Heq (Hb & ?). split; [|done]. by rewrite Heq. Qed.

Lemma Vector_assign_self h (a : N) this other :
  Vector_assign a a this other h = Some (this, h).
Proof. unfold Vector_assign. by rewrite bool_decide_false by naive_solver. Qed.

Lemma Vector_assign_fits h (a b : N) pt ct st et po co so eo :
  a ≠ b →
  is_vector h (mkVector (mkRawMemory pt ct) st) et →
  is_vector h (mkVector (mkRawMemory po co) so) eo →
  separate po pt → (so ≤ ct)%N →
  let h' := set_block pt (layout eo ct) h in
  Vector_assign a b (mkVector (mkRawMemory pt ct) st)
                    (mkVector (mkRawMemory po co) so) h
  = Some (mkVector (mkRawMemory pt ct) so, h')
  ∧ is_vector h' (mkVector (mkRawMemory pt ct) so) eo
  ∧ is_vector h' (mkVector (mkRawMemory po co) so) eo.
Proof.
  intros Hab Ht Ho Hsep Hfit h'.
  pose proof Ht as (Hbt & Hst & Hlet & Hct).
  pose proof Ho as (Hbo & Hso & Hleo & Hco).
  simpl in Hbt, Hst, Hlet, Hct, Hbo, Hso, Hleo, Hco.
  split; [|split].
  - unfold Vector_assign. cbn [data_ size_ GetAddress RawMemory_Capacity buffer_ capacity_].
    rewrite bool_decide_true by done.
    replace (so <=? ct)%N with true by (symmetry; by apply N.leb_le).
    destruct (N.leb_spec st so) as [Hle|Hlt].
    + (* the target is the shorter one *)
      set (n := N.to_nat st).
      assert (Hn : length (take n eo) = n) by (unfold n; len).
      erewrite bind_Some; [by rewrite ret_Some|].
      erewrite bind_Some; last first.
      { eapply (std_copy_at _ po pt st (take n eo)
                  ((Some <$> drop n eo) ++ replicate (N.to_nat co - length eo) None)
                  et (replicate (N.to_nat so - n) None
                        ++ replicate (N.to_nat ct - N.to_nat so) None));
          [done| | |lia|lia].
        - rewrite Hbo. f_equal. apply layout_take_drop.
        - rewrite Hbt. unfold layout. rewrite <- replicate_add. do 3 f_equal. lia. }
      erewrite (uninitialized_copy_n_at _ po pt st st (size_sub so st)
                  (Some <$> take n eo) (drop n eo)
                  (replicate (N.to_nat co - length eo) None)
                  (Some <$> take n eo) (replicate (N.to_nat so - n) None)
                  (replicate (N.to_nat ct - N.to_nat so) None)); [|done|..].
      * rewrite set_block_set_block. unfold h', layout.
        rewrite app_assoc, <- fmap_app, take_drop. do 5 f_equal. lia.
      * rewrite block_of_set_block_ne by by apply separate_sym.
        rewrite Hbo. f_equal. apply layout_take_drop.
      * eapply block_of_set_block; [done|]. rewrite length_layout by lia. len.
      * len.
      * len.
      * len.
      * rewrite size_sub_exact by lia. len.
    + (* the target is the longer one *)
      set (n := N.to_nat so).
      erewrite bind_Some; [by rewrite ret_Some|].
      erewrite bind_Some; last first.
      { eapply (std_copy_at _ po pt so eo
                  (replicate (N.to_nat co - length eo) None)
                  (take n et)
                  ((Some <$> drop n et) ++ replicate (N.to_nat ct - length et) None));
          [done|done| |unfold n; len|lia].
        rewrite Hbt. f_equal. apply layout_take_drop. }
      erewrite (destroy_n_at _ pt so (size_sub st so) (Some <$> eo) (drop n et)
                  (replicate (N.to_nat ct - length et) None)).
      * rewrite set_block_set_block. unfold h', layout.
        rewrite <- replicate_add. do 4 f_equal. unfold n. len. f_equal. lia.
      * eapply block_of_set_block; [done|].
        rewrite length_layout by lia. unfold n. len.
      * len.
      * rewrite size_sub_exact by lia. unfold n. len.
  - repeat split; cbn [data_ buffer_ capacity_ size_]; [|lia..].
    unfold h'. eapply block_of_set_block; [done|]. by rewrite !length_layout by lia.
  - eapply is_vector_frame; [|done]. cbn [data_ buffer_].
    unfold h'. by rewrite block_of_set_block_ne by by apply separate_sym.
Qed.

Lemma Vector_assign_realloc h (a b : N) pt ct st et po co so eo :
  a ≠ b →
  is_vector h (mkVector (mkRawMemory pt ct) st) et →
  is_vector h (mkVector (mkRawMemory po co) so) eo →
  separate po pt → (ct < so)%N →
  let q := Ptr (fresh (dom h)) 0 in
  let h' := free_block pt (<[fresh (dom h) := layout eo so]> h) in
  Vector_assign a b (mkVector (mkRawMemory pt ct) st)
                    (mkVector (mkRawMemory po co) so) h
  = Some (mkVector (mkRawMemory q so) so, h')
  ∧ is_vector h' (mkVector (mkRawMemory q so) so) eo
  ∧ is_vector h' (mkVector (mkRawMemory po co) so) eo.
Proof.
  intros Hab Ht Ho Hsep Hfit q h'.
  pose proof Ht as (Hbt & Hst & Hlet & Hct).
  pose proof Ho as (Hbo & Hso & Hleo & Hco).
  simpl in Hbt, Hst, Hlet, Hct, Hbo, Hso, Hleo, Hco.
  destruct (Vector_copy_spec _ _ _ _ _ Ho) as (Hcopy & Hvc & _).
  assert (Hq : new_buffer h so = q).
  { unfold new_buffer. by replace (so =? 0)%N with false
      by (symmetry; apply N.eqb_neq; lia). }
  rewrite Hq in Hcopy, Hvc. cbn [set_block q] in Hcopy, Hvc.
  assert (Hsept : separate pt q) by by eapply separate_fresh.
  assert (Hsepo : separate po q) by by eapply separate_fresh.
  split; [|split].
  - unfold Vector_assign. cbn [data_ size_ GetAddress RawMemory_Capacity buffer_ capacity_].
    rewrite bool_decide_true by done.
    replace (so <=? ct)%N with false by (symmetry; apply N.leb_gt; lia).
    rewrite (bind_Some _ _ _ _ _ Hcopy). cbn [Swap RawMemory_Swap data_ size_ buffer_ capacity_].
    erewrite bind_Some; [by rewrite ret_Some|].
    eapply Vector_destroy_spec, is_vector_frame; [|exact Ht]. cbn [data_ buffer_].
    by rewrite block_of_insert_ne.
  - eapply is_vector_frame; [|exact Hvc]. cbn [data_ buffer_].
    unfold h'. by rewrite block_of_free_block_ne.
  - eapply is_vector_frame; [|exact Ho]. cbn [data_ buffer_].
    unfold h'. rewrite block_of_free_block_ne by by apply separate_sym.
    by rewrite block_of_insert_ne.
Qed.

(** * The methods, one by one *)

(** A request that fits is for a number of elements that is a [size_t],
    and its block has room for all of them. *)
Lemma fits_size_t (n : N) : fits n → (n < size_modulus)%N.
Proof. unfold fits. nia. Qed.

Lemma requested_slots_fits (n : N) : fits n → requested_slots n = n.
Proof.
  intros Hn. unfold requested_slots, size_t.
  rewrite N.mod_small by exact Hn. by rewrite N.div_mul.
Qed.

Lemma is_vector_record h v es :
  is_vector h v es →
  is_vector h (mkVector (mkRawMemory (buffer_ (data_ v)) (capacity_ (data_ v)))
                 (size_ v)) es.
Proof. by destruct v as [[p c] s]. Qed.

(** C8.  [PopBack] never fails: on a vector of [n >= 1] elements it ends
    the life of the last one and leaves the first [n - 1] as they were, in
    the same block; on an empty vector it changes nothing. *)
Theorem PopBack_never_fails h v es :
  is_vector h v es →
  ∃ v' h',
    PopBack v h = Some (v', h')
    ∧ is_vector h' v' (take (length es - 1) es)
    ∧ Size v' = N.of_nat (length es - 1)
    ∧ data_ v' = data_ v
    ∧ (es = [] → v' = v ∧ h' = h).
Proof.
  intros Hv. destruct v as [[p c] s].
  destruct es as [|x es _] using rev_ind.
  - exists (mkVector (mkRawMemory p c) s), h.
    rewrite PopBack_empty by done.
    pose proof Hv as (_ & Hs & _). simpl in Hs. by split_and!.
  - destruct (PopBack_nonempty _ _ _ _ _ _ Hv) as [Hrun Hv'].
    eexists _, _. split; [exact Hrun|].
    replace (length (es ++ [x]) - 1) with (length es) by len.
    rewrite take_app_length.
    destruct Hv' as (? & Hs & ?). simpl in *.
    split_and!; try done. by destruct es.
Qed.

(** C10.  The address-plus-offset operator of [RawMemory] asserts
    [offset <= capacity_]: every offset up to and including the capacity
    passes and yields the address [buffer_ + offset], whereas the index
    operator asserts [index < capacity_] and so rejects the capacity
    itself. *)
Theorem RawMemory_plus_accepts_one_past_end h (rm : RawMemory) (offset : N) :
  (offset ≤ capacity_ rm)%N →
  RawMemory_plus rm offset h = Some (buffer_ rm +ₚ offset, h)
  ∧ RawMemory_plus rm (capacity_ rm) h = Some (buffer_ rm +ₚ capacity_ rm, h)
  ∧ RawMemory_index rm (capacity_ rm) h = None
  ∧ (RawMemory_index rm offset h = Some (buffer_ rm +ₚ offset, h)
     ↔ (offset < capacity_ rm)%N).
Proof.
  intros Hle. repeat split.
  - by apply RawMemory_plus_Some.
  - by apply RawMemory_plus_Some.
  - unfold RawMemory_index. by rewrite N.ltb_irrefl.
  - unfold RawMemory_index. destruct (N.ltb_spec offset (capacity_ rm)); [done|].
    by intros.
  - intros Hlt. unfold RawMemory_index.
    by replace (offset <? capacity_ rm)%N with true by (symmetry; by apply N.ltb_lt).
Qed.




(** C2.  An append on a full vector ([size_ == Capacity()]) allocates a
    block of [max 1 (2 * capacity)] slots, provided that number is a
    [size_t]; the vector then holds the old elements, in order, followed by
    the new one, provided building the new element leaves the elements of
    the vector as they are.  The new element [x] is what the argument
    builds; the argument may refer to an element of the vector itself as
    long as it is not moved from.  This holds for [PushBack(const T&)],
    [PushBack(T&&)] and [EmplaceBack].  Without the second proviso the old
    elements do not all keep their values: the new element is built
    before the old ones are relocated, so [v.PushBack(std::move(v[k]))]
    relocates [v[k]] in its moved-from state. *)
Theorem append_at_capacity_doubles h v es args x ha :
  is_vector h v es →
  Size v = Capacity v → (2 * Capacity v < size_modulus)%N →
  forward_args args h = Some (x, ha) → is_vector ha v es →
  (∃ v' r h',
      EmplaceBack v args h = Some ((v', r), h')
      ∧ is_vector h' v' (es ++ [x])
      ∧ Capacity v' = N.max 1 (2 * Capacity v)
      ∧ Size v' = (Size v + 1)%N
      ∧ load r h' = Some (x, h'))
  ∧ (∀ value, args = FromCopy value →
      ∃ v' h',
        PushBack v value h = Some (v', h')
        ∧ is_vector h' v' (es ++ [x])
        ∧ Capacity v' = N.max 1 (2 * Capacity v)
        ∧ Size v' = (Size v + 1)%N)
  ∧ (∀ value, args = FromMove value →
      ∃ v' h',
        PushBack_move v value h = Some (v', h')
        ∧ is_vector h' v' (es ++ [x])
        ∧ Capacity v' = N.max 1 (2 * Capacity v)
        ∧ Size v' = (Size v + 1)%N).
Proof.
  intros Hv Hfull Hc Hfw Hva. destruct v as [[p c] s].
  unfold Capacity, Size in *. simpl in Hfull, Hc |- *.
  split_and!.
  - destruct (EmplaceBack_grow _ _ _ _ _ _ _ _ Hfw Hva Hfull Hc) as [Hrun Hv'].
    set (h' := free_block _ _) in *.
    eexists _, _, _. split; [exact Hrun|]. split_and!; try done.
    pose proof Hv' as (Hb & Hs & _). cbn [data_ buffer_ capacity_ size_] in Hb, Hs.
    pose proof Hva as (_ & Hsa & _). cbn [size_] in Hsa.
    rewrite layout_snoc in Hb by lia.
    eapply load_at; [exact Hb|]. len.
  - intros value ->.
    destruct (PushBack_grow _ _ _ _ _ _ _ _ Hfw Hva Hfull Hc) as [Hrun Hv'].
    eexists _, _. by split; [exact Hrun|].
  - intros value ->.
    destruct (PushBack_move_grow _ _ _ _ _ _ _ _ Hfw Hva Hfull Hc) as [Hrun Hv'].
    eexists _, _. by split; [exact Hrun|].
Qed.

(** C6.  [Erase] at [begin() + i], for [i] below the length, succeeds and
    leaves the elements before position [i] and the elements after it, in
    order; the vector keeps its block and capacity, and no block is
    allocated or freed. *)
Theorem Erase_preserves_order h v es (i : N) :
  is_vector h v es → (i < Size v)%N →
  ∃ v' r h',
    Erase v (begin v +ₚ i) h = Some ((v', r), h')
    ∧ is_vector h' v' (take (N.to_nat i) es ++ drop (S (N.to_nat i)) es)
    ∧ Size v' = (Size v - 1)%N
    ∧ data_ v' = data_ v
    ∧ dom h' = dom h.
Proof.
  intros Hv Hi. destruct v as [[p c] s]. unfold Size, begin in *. simpl in Hi |- *.
  pose proof Hv as (Hb & Hs & _). simpl in Hb, Hs.
  destruct (lookup_lt_is_Some_2 es (N.to_nat i)) as [a Ha]; [lia|].
  rewrite <- (take_drop_middle _ _ _ Ha) in Hv.
  destruct (Erase_spec _ _ _ _ _ _ _ i Hv) as [Hrun Hv']; [len|].
  eexists _, _, _. split; [exact Hrun|]. split_and!; try done.
  destruct (block_of_cases _ _ _ Hb) as [[Hp Hnil]|(b & Hp & Hb0)].
  { destruct es; [done|]. by rewrite layout_take_drop with (k := 0) in Hnil. }
  rewrite Hp. simpl.
  rewrite dom_insert_L. apply elem_of_dom_2 in Hb0.
  apply subseteq_union_1_L. by apply singleton_subseteq_l.
Qed.

(** C9.  [Erase] returns [begin() + i] of the vector as it is afterwards:
    the position of the element that followed the erased one, or [end()]
    when the last element was erased. *)
Theorem Erase_returns_position h v es (i : N) :
  is_vector h v es → (i < Size v)%N →
  ∃ v' r h',
    Erase v (begin v +ₚ i) h = Some ((v', r), h')
    ∧ r = begin v' +ₚ i
    ∧ (∀ y, es !! S (N.to_nat i) = Some y → load r h' = Some (y, h'))
    ∧ ((i + 1)%N = Size v → r = end_ v').
Proof.
  intros Hv Hi. destruct v as [[p c] s]. unfold Size, begin, end_ in *.
  simpl in Hi |- *.
  pose proof Hv as (Hb & Hs & _). simpl in Hb, Hs.
  destruct (lookup_lt_is_Some_2 es (N.to_nat i)) as [a Ha]; [lia|].
  rewrite <- (take_drop_middle _ _ _ Ha) in Hv.
  destruct (Erase_spec _ _ _ _ _ _ _ i Hv) as [Hrun Hv']; [len|].
  set (h' := set_block _ _ _) in *.
  eexists _, _, _. split; [exact Hrun|]. split_and!; [done| |].
  - intros y Hy. destruct Hv' as (Hb' & _). cbn [data_ buffer_ capacity_] in Hb'.
    destruct (drop (S (N.to_nat i)) es) as [|y' rest] eqn:Hdrop.
    { apply (f_equal length) in Hdrop. rewrite length_drop in Hdrop.
      apply lookup_lt_Some in Hy. simpl in Hdrop. lia. }
    assert (y' = y) as ->.
    { apply (f_equal (λ l, l !! 0)) in Hdrop. rewrite lookup_drop in Hdrop.
      rewrite Nat.add_0_r in Hdrop. simpl in Hdrop. congruence. }
    unfold layout in Hb'. rewrite fmap_app, fmap_cons, <- app_assoc in Hb'.
    eapply load_at; [exact Hb'|]. len.
  - intros Hlast. f_equal. simpl. lia.
Qed.

(** C4.  Copy assignment [a = b] between two distinct vectors, where [b]
    has no more elements than [a] has capacity, gives [a] the elements of
    [b], in order, and the length of [b], in the block and with the
    capacity it had; [b] and its block are as before.  Copy assignment of
    a vector to itself changes nothing. *)
Theorem copy_assignment_within_capacity h (a b : N) va vb ea eb :
  a ≠ b →
  is_vector h va ea → is_vector h vb eb →
  separate (buffer_ (data_ vb)) (buffer_ (data_ va)) →
  (Size vb ≤ Capacity va)%N →
  (∃ va' h',
      Vector_assign a b va vb h = Some (va', h')
      ∧ is_vector h' va' eb
      ∧ Size va' = Size vb
      ∧ data_ va' = data_ va
      ∧ is_vector h' vb eb
      ∧ block_of h' (buffer_ (data_ vb)) = block_of h (buffer_ (data_ vb)))
  ∧ Vector_assign a a va va h = Some (va, h).
Proof.
  intros Hab Ha Hb Hsep Hfit. split; [|apply Vector_assign_self].
  destruct va as [[pt ct] st], vb as [[po co] so].
  unfold Capacity, Size in *. simpl in Hsep, Hfit |- *.
  destruct (Vector_assign_fits _ _ _ _ _ _ _ _ _ _ _ Hab Ha Hb Hsep Hfit)
    as (Hrun & Ha' & Hb').
  eexists _, _. split; [exact Hrun|]. split_and!; try done.
  by rewrite block_of_set_block_ne by by apply separate_sym.
Qed.

(** * Programs: the invariant of reachable worlds *)

(** ** Faults

    A store outside a block faults; so a growing method faults when the
    doubled capacity wraps around, since the block it allocates is then
    too small for the elements. *)

Lemma write_slot_shape p s h h' b :
  write_slot p s h = Some (tt, h') → length <$> (h' !! b) = length <$> (h !! b).
Proof.
  unfold write_slot. destruct p as [|b' o]; [done|].
  destruct (h !! b') as [cells|] eqn:Hb; [|done].
  case_decide; [|done]. intros [= <-].
  destruct (decide (b = b')) as [->|Hne].
  - rewrite lookup_insert_eq, Hb. simpl. by rewrite length_insert.
  - by rewrite lookup_insert_ne.
Qed.

Lemma load_same_heap p h x h' : load p h = Some (x, h') → h' = h.
Proof. by intros [-> _]%load_inv. Qed.

Lemma assign_shape p x h h' b :
  assign p x h = Some (tt, h') → length <$> (h' !! b) = length <$> (h !! b).
Proof.
  unfold assign, mbind, M_bind, bind.
  destruct (load p h) as [[y h1]|] eqn:Hl; [|done].
  apply load_same_heap in Hl as ->. apply write_slot_shape.
Qed.

Lemma forward_args_shape args h x ha b :
  forward_args args h = Some (x, ha) →
  length <$> (ha !! b) = length <$> (h !! b).
Proof.
  destruct args as [y|src|src]; simpl.
  - rewrite ret_Some. by intros [= _ <-].
  - by intros ->%load_same_heap.
  - unfold mbind, M_bind, bind.
    destruct (load src h) as [[y h1]|] eqn:Hl; [|done].
    apply load_same_heap in Hl as ->.
    destruct (assign src (moved y) h) as [[[] h2]|] eqn:Ha; [|done].
    rewrite ret_Some. intros [= _ <-]. by eapply assign_shape.
Qed.

Lemma write_slot_out_of_range h b o s :
  (∀ cells, h !! b = Some cells → length cells ≤ o) →
  write_slot (Ptr b o) s h = None.
Proof.
  intros Hlen. unfold write_slot. destruct (h !! b) as [cells|] eqn:Hb; [|done].
  rewrite decide_False; [done|]. specialize (Hlen _ eq_refl). lia.
Qed.

Lemma construct_from_out_of_range h b o args :
  (∀ cells, h !! b = Some cells → length cells ≤ o) →
  construct_from (Ptr b o) args h = None.
Proof.
  intros Hlen. unfold construct_from, mbind, M_bind, bind.
  destruct (forward_args args h) as [[x ha]|] eqn:Hfw; [|done].
  apply write_slot_out_of_range. intros cells Hb.
  pose proof (forward_args_shape _ _ _ _ b Hfw) as Hshape.
  rewrite Hb in Hshape. simpl in Hshape.
  destruct (h !! b) as [cells0|] eqn:Hb0; [|done].
  simpl in Hshape. simplify_eq. rewrite Hshape. by apply Hlen.
Qed.

Lemma construct_from_shape dst args h h' b :
  construct_from dst args h = Some (tt, h') →
  length <$> (h' !! b) = length <$> (h !! b).
Proof.
  unfold construct_from, mbind, M_bind, bind.
  destruct (forward_args args h) as [[x ha]|] eqn:Hfw; [|done].
  intros Hw. rewrite <- (forward_args_shape _ _ _ _ b Hfw).
  by eapply write_slot_shape.
Qed.

Lemma construct_from_null args h : construct_from nullptr args h = None.
Proof.
  unfold construct_from, mbind, M_bind, bind.
  by destruct (forward_args args h) as [[x ha]|].
Qed.

(** Relocating [n] elements to a destination with fewer than [n] slots
    left faults. *)
Lemma relocation_overrun (step : pointer → pointer → M unit)
    (loop : pointer → nat → pointer → M unit) args_of :
  (∀ dst src h, step dst src h = construct_from dst (args_of src) h) →
  (∀ src n dst, loop src (S n) dst
                = (step dst src;; loop (ptr_shift src 1) n (ptr_shift dst 1))) →
  ∀ n src b o h,
    0 < n →
    (∀ cells, h !! b = Some cells → length cells < o + n) →
    loop src n (Ptr b o) h = None.
Proof.
  intros Hstep Hloop n. induction n as [|n IH]; intros src b o h Hn Hlen; [lia|].
  rewrite Hloop. unfold mbind, M_bind, bind. rewrite Hstep.
  destruct (construct_from (Ptr b o) (args_of src) h) as [[[] h1]|] eqn:Hc; [|done].
  destruct (h !! b) as [cells|] eqn:Hb; last first.
  { rewrite construct_from_out_of_range in Hc; [done|]. by intros cells; rewrite Hb. }
  destruct (decide (length cells ≤ o)) as [Hle|Hgt].
  { rewrite construct_from_out_of_range in Hc; [done|].
    intros cells'. rewrite Hb. by intros [= <-]. }
  specialize (Hlen _ eq_refl). simpl.
  apply IH; [lia|]. intros cells1 Hb1.
  pose proof (construct_from_shape _ _ _ _ b Hc) as Hshape.
  rewrite Hb, Hb1 in Hshape. simpl in Hshape. simplify_eq. lia.
Qed.

Lemma relocate_n_overrun src (n : N) b o h :
  (0 < n)%N →
  (∀ cells, h !! b = Some cells → length cells < o + N.to_nat n) →
  relocate_n src n (Ptr b o) h = None.
Proof.
  intros Hn Hlen. unfold relocate_n. destruct relocate_by_move.
  - unfold uninitialized_move_n.
    eapply (relocation_overrun move_construct uninitialized_move_loop FromMove);
      [apply move_construct_from|done|lia|done].
  - unfold uninitialized_copy_n.
    eapply (relocation_overrun copy_construct uninitialized_copy_loop FromCopy);
      [done|done|lia|done].
Qed.

Lemma relocation_shape (step : pointer → pointer → M unit)
    (loop : pointer → nat → pointer → M unit) args_of :
  (∀ dst src h, step dst src h = construct_from dst (args_of src) h) →
  (∀ src dst h, loop src 0 dst h = Some (tt, h)) →
  (∀ src n dst, loop src (S n) dst
                = (step dst src;; loop (ptr_shift src 1) n (ptr_shift dst 1))) →
  ∀ n src dst h h' b,
    loop src n dst h = Some (tt, h') →
    length <$> (h' !! b) = length <$> (h !! b).
Proof.
  intros Hstep Hloop0 Hloop n.
  induction n as [|n IH]; intros src dst h h' b.
  - rewrite Hloop0. by intros [= <-].
  - rewrite Hloop. unfold mbind, M_bind, bind. rewrite Hstep.
    destruct (construct_from dst (args_of src) h) as [[[] h1]|] eqn:Hc; [|done].
    intros Hrest. rewrite (IH _ _ _ _ _ Hrest).
    by eapply construct_from_shape.
Qed.

Lemma relocate_n_shape src (n : N) dst h h' b :
  relocate_n src n dst h = Some (tt, h') →
  length <$> (h' !! b) = length <$> (h !! b).
Proof.
  unfold relocate_n. destruct relocate_by_move.
  - unfold uninitialized_move_n.
    by eapply (relocation_shape move_construct uninitialized_move_loop FromMove);
      [apply move_construct_from|..].
  - unfold uninitialized_copy_n.
    by eapply (relocation_shape copy_construct uninitialized_copy_loop FromCopy).
Qed.

Lemma grown_capacity_wrapped (c : N) :
  (c < size_modulus)%N → (size_modulus ≤ 2 * c)%N → (grown_capacity c < c)%N.
Proof.
  intros Hc Hwrap. unfold grown_capacity.
  destruct (N.eqb_spec c 0) as [->|_]; [lia|].
  unfold size_mul, size_t.
  replace (c * 2)%N with (c * 2 - size_modulus + 1 * size_modulus)%N by lia.
  rewrite N.Div0.mod_add, N.mod_small; lia.
Qed.

Lemma length_new_block h (n : N) b cells :
  new_buffer h n = Ptr b 0 →
  set_block (new_buffer h n) (replicate (N.to_nat n) None) h !! b = Some cells →
  length cells = N.to_nat n.
Proof.
  intros Hq. rewrite Hq. simpl. rewrite lookup_insert_eq. intros [= <-]. len.
Qed.

Lemma new_buffer_cases h (n : N) :
  new_buffer h n = nullptr ∨ new_buffer h n = Ptr (fresh (dom h)) 0.
Proof. unfold new_buffer. destruct (n =? 0)%N; eauto. Qed.

(** With a capacity whose double is no [size_t], the new block cannot
    take the new element. *)
Lemma construct_in_wrapped_block h (c c' : N) args :
  (c' ≤ c)%N →
  construct_from (new_buffer h c' +ₚ c) args
    (set_block (new_buffer h c') (replicate (N.to_nat c') None) h) = None.
Proof.
  intros Hc'. destruct (new_buffer_cases h c') as [Hq|Hq].
  - rewrite Hq. apply construct_from_null.
  - rewrite Hq at 1. rewrite ptr_add_start. apply construct_from_out_of_range.
    intros cells Hb. erewrite (length_new_block _ _ _ _ Hq Hb). lia.
Qed.

(** ** Runs that return *)

Lemma bind_inv {A B} (m : M A) (k : A → M B) h r :
  (m ≫= k) h = Some r → ∃ a h1, m h = Some (a, h1) ∧ k a h1 = Some r.
Proof.
  unfold mbind, M_bind, bind. destruct (m h) as [[a h1]|]; [|done]. eauto.
Qed.

Lemma assert_inv (c : bool) h u h1 : assert c h = Some (u, h1) → c = true ∧ h1 = h.
Proof. destruct c; [|done]. by intros [= _ <-]. Qed.

Lemma lift_inv {A} (o : option A) h a h1 : lift o h = Some (a, h1) → o = Some a ∧ h1 = h.
Proof. destruct o; [|done]. by intros [= <- <-]. Qed.

Lemma ret_inv {A} (a a' : A) h h1 : (mret a : M A) h = Some (a', h1) → a' = a ∧ h1 = h.
Proof. by intros [= <- <-]. Qed.

Lemma RawMemory_plus_inv (rm : RawMemory) (offset : N) h q h1 :
  RawMemory_plus rm offset h = Some (q, h1) →
  (offset ≤ capacity_ rm)%N ∧ q = buffer_ rm +ₚ offset ∧ h1 = h.
Proof.
  unfold RawMemory_plus. intros (u & h2 & [Hc ->]%assert_inv & [-> ->]%ret_inv)%bind_inv.
  split; [|done]. by apply N.leb_le.
Qed.

Lemma EmplaceBack_wrapped h p (c : N) args :
  (c < size_modulus)%N → (size_modulus ≤ 2 * c)%N →
  EmplaceBack (mkVector (mkRawMemory p c) c) args h = None.
Proof.
  intros Hc Hwrap. pose proof (grown_capacity_wrapped _ Hc Hwrap) as Hc'.
  destruct (EmplaceBack _ _ _) as [r|] eqn:Hrun; [exfalso|done].
  unfold EmplaceBack, Capacity in Hrun. simpl in Hrun. rewrite N.eqb_refl in Hrun.
  apply bind_inv in Hrun as (? & ? & Hrun & _).
  rewrite (bind_Some _ _ _ _ _ (RawMemory_new_spec _ _)) in Hrun.
  apply bind_inv in Hrun as (? & ? & (Hle & _)%RawMemory_plus_inv & _).
  simpl in Hle. lia.
Qed.

Lemma PushBack_wrapped h p (c : N) value :
  (c < size_modulus)%N → (size_modulus ≤ 2 * c)%N →
  PushBack (mkVector (mkRawMemory p c) c) value h = None.
Proof.
  intros Hc Hwrap. pose proof (grown_capacity_wrapped _ Hc Hwrap) as Hc'.
  destruct (PushBack _ _ _) as [r|] eqn:Hrun; [exfalso|done].
  unfold PushBack, Capacity in Hrun. simpl in Hrun. rewrite N.eqb_refl in Hrun.
  apply bind_inv in Hrun as (? & ? & Hrun & _).
  rewrite (bind_Some _ _ _ _ _ (RawMemory_new_spec _ _)) in Hrun.
  apply bind_inv in Hrun as (? & ? & Hrun & _). cbn [GetAddress buffer_] in Hrun.
  rewrite uninitialized_copy_n_1, construct_in_wrapped_block in Hrun; [done|lia].
Qed.

Lemma PushBack_move_wrapped h p (c : N) value :
  (c < size_modulus)%N → (size_modulus ≤ 2 * c)%N →
  PushBack_move (mkVector (mkRawMemory p c) c) value h = None.
Proof.
  intros Hc Hwrap. pose proof (grown_capacity_wrapped _ Hc Hwrap) as Hc'.
  destruct (PushBack_move _ _ _) as [r|] eqn:Hrun; [exfalso|done].
  unfold PushBack_move, Capacity in Hrun. simpl in Hrun. rewrite N.eqb_refl in Hrun.
  apply bind_inv in Hrun as (? & ? & Hrun & _).
  rewrite (bind_Some _ _ _ _ _ (RawMemory_new_spec _ _)) in Hrun.
  apply bind_inv in Hrun as (? & ? & Hrun & _). cbn [GetAddress buffer_] in Hrun.
  rewrite uninitialized_move_n_1, construct_in_wrapped_block in Hrun; [done|lia].
Qed.

Lemma Emplace_wrapped h p (c : N) pos args :
  (c < size_modulus)%N → (size_modulus ≤ 2 * c)%N →
  Emplace (mkVector (mkRawMemory p c) c) pos args h = None.
Proof.
  intros Hc Hwrap. pose proof (grown_capacity_wrapped _ Hc Hwrap) as Hc'.
  destruct (Emplace _ _ _ _) as [r|] eqn:Hrun; [exfalso|done].
  unfold Emplace, Capacity, begin, end_ in Hrun. simpl in Hrun.
  rewrite N.eqb_refl in Hrun.
  apply bind_inv in Hrun as (? & ? & [_ ->]%assert_inv & Hrun).
  apply bind_inv in Hrun as (d & ? & [_ ->]%lift_inv & Hrun).
  apply bind_inv in Hrun as (? & ? & Hrun & _).
  rewrite (bind_Some _ _ _ _ _ (RawMemory_new_spec _ _)) in Hrun.
  set (c' := grown_capacity c) in *. set (q := new_buffer h c') in *.
  apply bind_inv in Hrun as (? & ? & (Hle & -> & ->)%RawMemory_plus_inv & Hrun).
  cbn [buffer_ capacity_ GetAddress] in Hle, Hrun.
  apply bind_inv in Hrun as ([] & h2 & Hctor & Hrun).
  apply bind_inv in Hrun as ([] & h3 & Hrel & Hrun).
  apply bind_inv in Hrun as ([] & h4 & Hrel' & _).
  destruct (new_buffer_cases h c') as [Hq|Hq]; fold q in Hq.
  { rewrite Hq in Hctor. by rewrite construct_from_null in Hctor. }
  rewrite ptr_add_add, Hq, ptr_add_start in Hrel'.
  rewrite relocate_n_overrun in Hrel'; [done| |].
  - rewrite size_sub_exact by lia. lia.
  - intros cells Hb.
    pose proof (relocate_n_shape _ _ _ _ _ (fresh (dom h)) Hrel) as S3.
    pose proof (construct_from_shape _ _ _ _ (fresh (dom h)) Hctor) as S2.
    rewrite Hb, S2 in S3. unfold q in S3 at 1. 
    destruct (set_block (new_buffer h c') _ h !! fresh (dom h)) as [cells0|] eqn:Hb0;
      [|done].
    pose proof (length_new_block _ _ _ _ Hq Hb0) as Hlen0.
    simpl in S3. simplify_eq. rewrite S3, Hlen0.
    rewrite size_sub_exact by lia. lia.
Qed.

(** ** What a method leaves alone *)

Lemma separate_null_l q : separate nullptr q.
Proof. by intros b o o'. Qed.

Lemma separate_null_r p : separate p nullptr.
Proof. by intros b o o' _. Qed.

Lemma separate_unallocated h q cells b o :
  block_of h q = Some cells → h !! b = None → separate (Ptr b o) q.
Proof.
  intros Hq Hb b' o1 o2 [= <- <-] ->. destruct o2; simpl in Hq; [|done].
  by rewrite Hb in Hq.
Qed.

Lemma frame_refl h p : frame h p h p.
Proof. by intros q cells Hq Hsep. Qed.

Lemma frame_in_place h p cells : frame h p (set_block p cells h) p.
Proof. intros q cells' Hq Hsep. by rewrite block_of_set_block_ne. Qed.

Lemma frame_grow h p b cells :
  h !! b = None → frame h p (free_block p (<[b := cells]> h)) (Ptr b 0).
Proof.
  intros Hb q cells' Hq Hsep.
  assert (Hsep' : separate (Ptr b 0) q) by by eapply separate_unallocated.
  rewrite block_of_free_block_ne by done.
  by rewrite block_of_insert_ne by by apply separate_sym.
Qed.

Lemma frame_new_buffer h (n : N) cells :
  frame h nullptr (set_block (new_buffer h n) cells h) (new_buffer h n).
Proof.
  intros q cells' Hq _.
  assert (Hsep : separate (new_buffer h n) q).
  { apply separate_sym. by eapply separate_new_buffer. }
  by rewrite block_of_set_block_ne.
Qed.

Lemma step_ok_same h v es : is_vector h v es → step_ok h v h v.
Proof. intros Hv. split; [eauto|apply frame_refl]. Qed.

Lemma step_ok_in_place h p c s c' s' cells es :
  is_vector (set_block p cells h) (mkVector (mkRawMemory p c') s') es →
  step_ok h (mkVector (mkRawMemory p c) s) (set_block p cells h)
    (mkVector (mkRawMemory p c') s').
Proof. intros Hv. split; [eauto|apply frame_in_place]. Qed.

Lemma step_ok_grow h p c s b c' s' cells es :
  h !! b = None →
  is_vector (free_block p (<[b := cells]> h)) (mkVector (mkRawMemory (Ptr b 0) c') s') es →
  step_ok h (mkVector (mkRawMemory p c) s) (free_block p (<[b := cells]> h))
    (mkVector (mkRawMemory (Ptr b 0) c') s').
Proof. intros Hb Hv. split; [eauto|by apply frame_grow]. Qed.

(** ** Methods that return leave a vector behind *)

Lemma PopBack_ok h v es v' h' :
  is_vector h v es → PopBack v h = Some (v', h') → step_ok h v h' v'.
Proof.
  intros Hv Hrun. destruct v as [[p c] s].
  destruct es as [|x es _] using rev_ind.
  - rewrite PopBack_empty in Hrun by done. simplify_eq. by eapply step_ok_same.
  - destruct (PopBack_nonempty _ _ _ _ _ _ Hv) as [Hrun' Hv'].
    rewrite Hrun' in Hrun. simplify_eq. by eapply step_ok_in_place.
Qed.

Lemma Reserve_ok h v es (n : N) v' h' :
  is_vector h v es → (n < size_modulus)%N →
  Reserve v n h = Some (v', h') → step_ok h v h' v'.
Proof.
  intros Hv Hn Hrun. destruct v as [[p c] s].
  destruct (N.le_gt_cases n c) as [Hle|Hgt].
  - rewrite Reserve_noop in Hrun by done. simplify_eq. by eapply step_ok_same.
  - destruct (Reserve_grow _ _ _ _ _ _ Hv Hgt Hn) as [Hrun' Hv'].
    rewrite Hrun' in Hrun. simplify_eq. eapply step_ok_grow; [apply fresh_block|done].
Qed.

Lemma Resize_ok h v es (n : N) v' h' :
  is_vector h v es → (n < size_modulus)%N →
  Resize v n h = Some (v', h') → step_ok h v h' v'.
Proof.
  intros Hv Hn Hrun. destruct v as [[p c] s].
  pose proof Hv as (_ & Hs & Hle & _). simpl in Hs, Hle.
  destruct (N.lt_ge_cases n s) as [Hlt|Hge].
  - destruct (Resize_shrink _ _ _ _ _ _ Hv Hlt) as [Hrun' Hv'].
    rewrite Hrun' in Hrun. simplify_eq. by eapply step_ok_in_place.
  - destruct (N.le_gt_cases n c) as [Hfit|Hgrow].
    + destruct (Resize_in_place _ _ _ _ _ _ Hv Hge Hfit) as [Hrun' Hv'].
      rewrite Hrun' in Hrun. simplify_eq. by eapply step_ok_in_place.
    + destruct (Resize_grow _ _ _ _ _ _ Hv Hgrow Hn) as [Hrun' Hv'].
      rewrite Hrun' in Hrun. simplify_eq.
      eapply step_ok_grow; [apply fresh_block|done].
Qed.

Lemma frame_updated h p b h' v' :
  h !! b = None → updated h p b h' v' → frame h p h' (buffer_ (data_ v')).
Proof.
  intros Hb [(cells & -> & ->)|(cells & -> & ->)].
  - apply frame_in_place.
  - by apply frame_grow.
Qed.

Lemma is_vector_separate_self h v es b o :
  is_vector h v es → h !! b = None → separate (buffer_ (data_ v)) (Ptr b o).
Proof.
  intros (Hb & _) Hfresh. apply separate_sym.
  by eapply separate_unallocated.
Qed.

(** An append, whatever builds the new element: either it faults, or the
    vector holds the old elements and the new one. *)
Lemma EmplaceBack_returns h v es args x ha :
  forward_args args h = Some (x, ha) → is_vector ha v es →
  EmplaceBack v args h = None
  ∨ ∃ v' r h',
      EmplaceBack v args h = Some ((v', r), h')
      ∧ is_vector h' v' (es ++ [x])
      ∧ updated ha (buffer_ (data_ v)) (fresh (dom h)) h' v'.
Proof.
  intros Hfw Hv. destruct v as [[p c] s].
  pose proof Hv as (_ & _ & Hle & Hc). simpl in Hle, Hc.
  destruct (decide (s = c)) as [->|Hne].
  - destruct (decide (2 * c < size_modulus)%N) as [Hfit|Hwrap].
    + destruct (EmplaceBack_grow _ _ _ _ _ _ _ _ Hfw Hv eq_refl Hfit) as [Hrun Hv'].
      right. eexists _, _, _. split; [exact Hrun|]. split; [done|].
      right. by eexists.
    + left. apply EmplaceBack_wrapped; lia.
  - destruct (EmplaceBack_in_place _ _ _ _ _ _ _ _ Hfw Hv) as [Hrun Hv']; [lia|].
    right. eexists _, _, _. split; [exact Hrun|]. split; [done|].
    left. by eexists.
Qed.

Lemma PushBack_returns h v es value x ha :
  forward_args (FromCopy value) h = Some (x, ha) → is_vector ha v es →
  PushBack v value h = None
  ∨ ∃ v' h',
      PushBack v value h = Some (v', h')
      ∧ is_vector h' v' (es ++ [x])
      ∧ updated ha (buffer_ (data_ v)) (fresh (dom h)) h' v'.
Proof.
  intros Hfw Hv. destruct v as [[p c] s].
  pose proof Hv as (_ & _ & Hle & Hc). simpl in Hle, Hc.
  destruct (decide (s = c)) as [->|Hne].
  - destruct (decide (2 * c < size_modulus)%N) as [Hfit|Hwrap].
    + destruct (PushBack_grow _ _ _ _ _ _ _ _ Hfw Hv eq_refl Hfit) as [Hrun Hv'].
      right. eexists _, _. split; [exact Hrun|]. split; [done|].
      right. by eexists.
    + left. apply PushBack_wrapped; lia.
  - destruct (PushBack_in_place _ _ _ _ _ _ _ _ Hfw Hv) as [Hrun Hv']; [lia|].
    right. eexists _, _. split; [exact Hrun|]. split; [done|].
    left. by eexists.
Qed.

Lemma PushBack_move_returns h v es value x ha :
  forward_args (FromMove value) h = Some (x, ha) → is_vector ha v es →
  PushBack_move v value h = None
  ∨ ∃ v' h',
      PushBack_move v value h = Some (v', h')
      ∧ is_vector h' v' (es ++ [x])
      ∧ updated ha (buffer_ (data_ v)) (fresh (dom h)) h' v'.
Proof.
  intros Hfw Hv. destruct v as [[p c] s].
  pose proof Hv as (_ & _ & Hle & Hc). simpl in Hle, Hc.
  destruct (decide (s = c)) as [->|Hne].
  - destruct (decide (2 * c < size_modulus)%N) as [Hfit|Hwrap].
    + destruct (PushBack_move_grow _ _ _ _ _ _ _ _ Hfw Hv eq_refl Hfit) as [Hrun Hv'].
      right. eexists _, _. split; [exact Hrun|]. split; [done|].
      right. by eexists.
    + left. apply PushBack_move_wrapped; lia.
  - destruct (PushBack_move_in_place _ _ _ _ _ _ _ _ Hfw Hv) as [Hrun Hv']; [lia|].
    right. eexists _, _. split; [exact Hrun|]. split; [done|].
    left. by eexists.
Qed.

(** A position past the end fails the assertion of [Emplace] and
    [Erase]. *)
Lemma ptr_le_past_end b (i s : N) :
  (s < i)%N → ptr_le (Ptr b 0 +ₚ i) (Ptr b 0 +ₚ s) = false.
Proof.
  intros Hi. rewrite !ptr_add_start. simpl. rewrite bool_decide_true by done.
  by rewrite bool_decide_false by lia.
Qed.

Lemma ptr_lt_past_end p (i s : N) : (s ≤ i)%N → ptr_lt (p +ₚ i) (p +ₚ s) = false.
Proof.
  intros Hi. destruct p as [|b o]; [done|]. simpl.
  rewrite bool_decide_true by done. by rewrite bool_decide_false by lia.
Qed.

Lemma ptr_add_null (i : N) : nullptr +ₚ i = nullptr.
Proof. done. Qed.

Lemma Emplace_returns h v es args x ha (i : N) :
  is_vector h v es →
  forward_args args h = Some (x, ha) →
  (∀ src, args_source args = Some src → separate (buffer_ (data_ v)) src) →
  Emplace v (begin v +ₚ i) args h = None
  ∨ ∃ v' r h' es',
      Emplace v (begin v +ₚ i) args h = Some ((v', r), h')
      ∧ is_vector h' v' es'
      ∧ updated ha (buffer_ (data_ v)) (fresh (dom h)) h' v'.
Proof.
  intros Hv Hfw Hsrc. destruct v as [[p c] s]. unfold begin. simpl in Hsrc |- *.
  pose proof Hv as (Hb & Hs & Hle & Hc). simpl in Hb, Hs, Hle, Hc.
  assert (Hva : is_vector ha (mkVector (mkRawMemory p c) s) es).
  { eapply is_vector_frame; [|exact Hv]. by eapply forward_args_block_ne. }
  (* a position in range, or one that stands for it, or a fault *)
  assert (Hpos : (∃ j : N, p +ₚ i = p +ₚ j ∧ (j ≤ s)%N)
                 ∨ Emplace (mkVector (mkRawMemory p c) s) (p +ₚ i) args h = None).
  { destruct (decide (i ≤ s)%N) as [Hi|Hi]; [left; eauto|].
    destruct (block_of_cases _ _ _ Hb) as [[-> _]|(b & -> & Hb0)].
    - left. exists 0%N. split; [done|lia].
    - right. unfold Emplace, begin, end_. cbn [data_ size_ buffer_ capacity_ GetAddress].
      apply bind_None. by rewrite ptr_le_past_end, andb_false_r by lia. }
  destruct Hpos as [(j & -> & Hj)|Hfault]; [|by left].
  destruct (decide (s = c)) as [->|Hne].
  - destruct (decide (2 * c < size_modulus)%N) as [Hfit|Hwrap].
    + rewrite <- (take_drop (N.to_nat j) es) in Hva.
      destruct (Emplace_grow _ _ _ _ _ _ _ _ _ j Hfw Hva) as [Hrun Hv'];
        [len|done|done|].
      right. eexists _, _, _, _. split; [exact Hrun|]. split; [done|].
      right. by eexists.
    + left. apply Emplace_wrapped; lia.
  - destruct (Emplace_in_place _ _ _ _ _ _ _ _ j Hfw Hsrc Hv Hj) as [Hrun Hv'];
      [lia|].
    right. eexists _, _, _, _. split; [exact Hrun|]. split; [done|].
    left. by eexists.
Qed.

Lemma Erase_returns h v es (i : N) :
  is_vector h v es →
  Erase v (begin v +ₚ i) h = None
  ∨ ∃ v' r h' es',
      Erase v (begin v +ₚ i) h = Some ((v', r), h')
      ∧ is_vector h' v' es'
      ∧ updated h (buffer_ (data_ v)) (fresh (dom h)) h' v'.
Proof.
  intros Hv. destruct v as [[p c] s]. unfold begin. simpl.
  pose proof Hv as (Hb & Hs & Hle & Hc). simpl in Hb, Hs, Hle, Hc.
  destruct (decide (i < s)%N) as [Hi|Hi].
  - destruct (lookup_lt_is_Some_2 es (N.to_nat i)) as [a Ha]; [lia|].
    rewrite <- (take_drop_middle _ _ _ Ha) in Hv.
    destruct (Erase_spec _ _ _ _ _ _ _ i Hv) as [Hrun Hv']; [len|].
    right. eexists _, _, _, _. split; [exact Hrun|]. split; [done|].
    left. by eexists.
  - left. unfold Erase, begin, end_. cbn [data_ size_ buffer_ capacity_ GetAddress].
    apply bind_None. by rewrite ptr_lt_past_end, andb_false_r by lia.
Qed.

(** ** Temporaries *)

Lemma with_temporary_run {A} x (f : pointer → M A) h :
  let t := fresh (dom h) in
  with_temporary x f h
  = match f (Ptr t 0) (<[t := [Some x]]> h) with
    | Some (r, h1) =>
        match h1 !! t with
        | Some (Some _ :: rest) => Some (r, delete t h1)
        | _ => None
        end
    | None => None
    end.
Proof.
  intros t. unfold with_temporary.
  erewrite bind_Some; last first.
  { unfold Allocate. simpl. reflexivity. }
  fold t.
  erewrite bind_Some; last first.
  { eapply construct_at_Some; [apply lookup_insert_eq|simpl; lia]. }
  rewrite insert_insert_eq. simpl.
  destruct (f (Ptr t 0) (<[t:=[Some x]]> h)) as [[r h1]|] eqn:Hf;
    [|by apply bind_None].
  rewrite (bind_Some _ _ _ _ _ Hf).
  destruct (h1 !! t) as [[|[y|] rest]|] eqn:Ht.
  - apply bind_None. unfold destroy_at. apply bind_None.
    unfold load. by rewrite Ht.
  - erewrite bind_Some; last first.
    { eapply (destroy_at_Some _ _ 0); [exact Ht|done]. }
    erewrite bind_Some; last first.
    { simpl. by rewrite lookup_insert_eq. }
    by rewrite ret_Some, delete_insert_eq.
  - apply bind_None. unfold destroy_at. apply bind_None.
    unfold load. by rewrite Ht.
  - apply bind_None. unfold destroy_at. apply bind_None.
    unfold load. by rewrite Ht.
Qed.

Lemma forward_temporary_copy h (t : N) x :
  forward_args (FromCopy (Ptr t 0)) (<[t := [Some x]]> h)
  = Some (x, <[t := [Some x]]> h).
Proof. simpl. eapply load_Some; [apply lookup_insert_eq|done]. Qed.

Lemma forward_temporary_move h (t : N) x :
  forward_args (FromMove (Ptr t 0)) (<[t := [Some x]]> h)
  = Some (x, <[t := [Some (moved x)]]> h).
Proof.
  simpl. erewrite bind_Some; last first.
  { eapply load_Some; [apply lookup_insert_eq|done]. }
  erewrite bind_Some; last first.
  { eapply assign_Some; [apply lookup_insert_eq|done]. }
  by rewrite ret_Some, insert_insert_eq.
Qed.

Lemma fresh_after_insert h (t : N) cells :
  h !! fresh (dom (<[t := cells]> h)) = None
  ∧ fresh (dom (<[t := cells]> h)) ≠ t.
Proof.
  pose proof (fresh_block (<[t := cells]> h)) as Hf.
  apply lookup_insert_None in Hf as [? ?]. by split.
Qed.

(** When the temporary has gone, the result of a method is as if it had
    never been in the heap. *)
Lemma temporary_updated h (t : N) cells p b h1 v' :
  h !! t = None → separate p (Ptr t 0) → b ≠ t →
  updated (<[t := cells]> h) p b h1 v' →
  h1 !! t = Some cells
  ∧ updated h p b (delete t h1) v'
  ∧ (∀ es, is_vector h1 v' es → is_vector (delete t h1) v' es).
Proof.
  intros Ht Hsep Hb [(new & -> & Hv')|(new & -> & Hv')].
  - assert (Hp : ∀ o, p ≠ Ptr t o).
    { intros o ->. by eapply Hsep. }
    assert (H1 : set_block p new (<[t:=cells]> h) !! t = Some cells).
    { destruct p as [|b' [|o]]; simpl; try apply lookup_insert_eq.
      rewrite lookup_insert_ne by (intros ->; by eapply Hp). apply lookup_insert_eq. }
    assert (H2 : delete t (set_block p new (<[t:=cells]> h)) = set_block p new h).
    { destruct p as [|b' [|o]]; simpl; try by apply delete_insert_id.
      rewrite delete_insert_ne by (intros ->; by eapply Hp).
      by rewrite delete_insert_id. }
    split_and!; [done|left; eauto|].
    intros es Hv. eapply is_vector_frame; [|exact Hv]. rewrite Hv', H2.
    destruct p as [|b' [|o]]; simpl; [done| |done].
    by rewrite !lookup_insert_eq.
  - assert (Hp : ∀ o, p ≠ Ptr t o).
    { intros o ->. by eapply Hsep. }
    assert (H1 : free_block p (<[b:=new]> (<[t:=cells]> h)) !! t = Some cells).
    { destruct p as [|b' [|o]]; simpl.
      - rewrite lookup_insert_ne by done. apply lookup_insert_eq.
      - rewrite lookup_delete_ne by (intros ->; by eapply Hp).
        rewrite lookup_insert_ne by done. apply lookup_insert_eq.
      - rewrite lookup_insert_ne by done. apply lookup_insert_eq. }
    assert (H2 : delete t (free_block p (<[b:=new]> (<[t:=cells]> h)))
                 = free_block p (<[b:=new]> h)).
    { assert (delete t (<[b:=new]> (<[t:=cells]> h)) = <[b:=new]> h) as Hd.
      { rewrite delete_insert_ne by done. by rewrite delete_insert_id. }
      destruct p as [|b' [|o]]; simpl; try done.
      by rewrite delete_delete, Hd. }
    split_and!; [done|right; eauto|].
    intros es Hv. eapply is_vector_frame; [|exact Hv]. rewrite Hv', H2.
    destruct p as [|b' [|o]]; simpl; [by rewrite !lookup_insert_eq| |
      by rewrite !lookup_insert_eq].
    destruct (decide (b' = b)) as [->|Hne].
    + by rewrite !lookup_delete_eq.
    + rewrite !lookup_delete_ne by done. by rewrite !lookup_insert_eq.
Qed.

Lemma with_temporary_ok h v es x (f : pointer → M Vector) v' h' :
  is_vector h v es →
  (∀ h1,
     is_vector (<[fresh (dom h) := [Some x]]> h) v es →
     separate (buffer_ (data_ v)) (Ptr (fresh (dom h)) 0) →
     f (Ptr (fresh (dom h)) 0) (<[fresh (dom h) := [Some x]]> h) = Some (v', h1) →
     ∃ es' cells,
       is_vector h1 v' es'
       ∧ updated (<[fresh (dom h) := cells]> h) (buffer_ (data_ v))
           (fresh (dom (<[fresh (dom h) := [Some x]]> h))) h1 v') →
  with_temporary x f h = Some (v', h') → step_ok h v h' v'.
Proof.
  intros Hv Hf. rewrite with_temporary_run. cbv zeta.
  set (t := fresh (dom h)) in *.
  assert (Hsep : separate (buffer_ (data_ v)) (Ptr t 0)).
  { destruct Hv as (Hb & _). by eapply separate_fresh. }
  assert (Hvt : is_vector (<[t := [Some x]]> h) v es).
  { eapply is_vector_frame; [|exact Hv]. by apply block_of_insert_ne. }
  destruct (f (Ptr t 0) (<[t := [Some x]]> h)) as [[r h1]|] eqn:Hrun; [|done].
  destruct (h1 !! t) as [[|[y|] rest]|] eqn:Ht; try done.
  intros [= -> <-].
  destruct (Hf h1 Hvt Hsep eq_refl) as (es' & cells & Hv' & Hup).
  destruct (fresh_after_insert h t [Some x]) as [Hfresh Hne].
  destruct (temporary_updated _ _ _ _ _ _ _ (fresh_block h) Hsep Hne Hup)
    as (_ & Hup' & Hkeep).
  split; [exists es'; by apply Hkeep|]. by eapply frame_updated.
Qed.

Lemma CallPushBack_ok h v es x v' h' :
  is_vector h v es →
  with_temporary x (PushBack v) h = Some (v', h') → step_ok h v h' v'.
Proof.
  intros Hv. apply (with_temporary_ok _ _ es); [done|]. intros h1 Hvt _ Hrun.
  destruct (PushBack_returns _ _ _ _ _ _ (forward_temporary_copy h _ x) Hvt)
    as [Hnone|(v1 & h2 & Hsome & Hv1 & Hup)]; [congruence|].
  rewrite Hrun in Hsome. injection Hsome as <- <-. eauto.
Qed.

Lemma CallPushBackMove_ok h v es x v' h' :
  is_vector h v es →
  with_temporary x (PushBack_move v) h = Some (v', h') → step_ok h v h' v'.
Proof.
  intros Hv. apply (with_temporary_ok _ _ es); [done|]. intros h1 Hvt Hsep Hrun.
  assert (Hvm : is_vector (<[fresh (dom h) := [Some (moved x)]]> h) v es).
  { eapply is_vector_frame; [|exact Hv]. by apply block_of_insert_ne. }
  destruct (PushBack_move_returns _ _ _ _ _ _ (forward_temporary_move h _ x) Hvm)
    as [Hnone|(v1 & h2 & Hsome & Hv1 & Hup)]; [congruence|].
  rewrite Hrun in Hsome. injection Hsome as <- <-. eauto.
Qed.

Lemma Emplace_result h v es args x ha (i : N) v' h' :
  is_vector h v es →
  forward_args args h = Some (x, ha) →
  (∀ src, args_source args = Some src → separate (buffer_ (data_ v)) src) →
  ('(v1, _) ← Emplace v (begin v +ₚ i) args; mret v1) h = Some (v', h') →
  ∃ es', is_vector h' v' es'
         ∧ updated ha (buffer_ (data_ v)) (fresh (dom h)) h' v'.
Proof.
  intros Hv Hfw Hsrc Hrun.
  destruct (bind_inv _ _ _ _ Hrun) as ([v1 r] & h1 & Hem & Hret).
  apply ret_inv in Hret as [[= ->] ->].
  destruct (Emplace_returns _ _ _ _ _ _ i Hv Hfw Hsrc)
    as [Hnone|(v2 & r2 & h2 & es' & Hsome & Hv2 & Hup)]; [congruence|].
  rewrite Hem in Hsome. injection Hsome as <- <- <-. eauto.
Qed.

Lemma CallEmplace_ok h v es (i : N) x v' h' :
  is_vector h v es →
  ('(v1, _) ← Emplace v (begin v +ₚ i) (FromArgs x); mret v1) h = Some (v', h') →
  step_ok h v h' v'.
Proof.
  intros Hv Hrun.
  destruct (Emplace_result h v es (FromArgs x) x h i v' h' Hv eq_refl)
    as (es' & Hv' & Hup); [done|done|].
  split; [eauto|]. eapply frame_updated; [apply fresh_block|done].
Qed.

Lemma CallInsert_ok h v es (i : N) x v' h' :
  is_vector h v es →
  with_temporary x (λ value, '(v1, _) ← Insert v (begin v +ₚ i) value; mret v1) h
  = Some (v', h') →
  step_ok h v h' v'.
Proof.
  intros Hv. apply (with_temporary_ok _ _ es); [done|]. intros h1 Hvt Hsep Hrun.
  unfold Insert in Hrun.
  destruct (Emplace_result _ _ _ _ _ _ _ _ _ Hvt (forward_temporary_copy h _ x)
              ltac:(by intros src [= <-]) Hrun) as (es' & Hv' & Hup).
  eauto.
Qed.

Lemma CallInsertMove_ok h v es (i : N) x v' h' :
  is_vector h v es →
  with_temporary x (λ value, '(v1, _) ← Insert_move v (begin v +ₚ i) value; mret v1) h
  = Some (v', h') →
  step_ok h v h' v'.
Proof.
  intros Hv. apply (with_temporary_ok _ _ es); [done|]. intros h1 Hvt Hsep Hrun.
  unfold Insert_move in Hrun.
  destruct (Emplace_result _ _ _ _ _ _ _ _ _ Hvt (forward_temporary_move h _ x)
              ltac:(by intros src [= <-]) Hrun) as (es' & Hv' & Hup).
  eauto.
Qed.

Lemma CallEmplaceBack_ok h v es x v' h' :
  is_vector h v es →
  ('(v1, _) ← EmplaceBack v (FromArgs x); mret v1) h = Some (v', h') →
  step_ok h v h' v'.
Proof.
  intros Hv Hrun.
  destruct (bind_inv _ _ _ _ Hrun) as ([v1 r] & h1 & Hem & Hret).
  apply ret_inv in Hret as [[= ->] ->].
  destruct (EmplaceBack_returns h v es (FromArgs x) x h eq_refl Hv)
    as [Hnone|(v2 & r2 & h2 & Hsome & Hv2 & Hup)]; [congruence|].
  rewrite Hem in Hsome. injection Hsome as <- <- <-.
  split; [eauto|]. eapply frame_updated; [apply fresh_block|done].
Qed.

Lemma CallErase_ok h v es (i : N) v' h' :
  is_vector h v es →
  ('(v1, _) ← Erase v (begin v +ₚ i); mret v1) h = Some (v', h') →
  step_ok h v h' v'.
Proof.
  intros Hv Hrun.
  destruct (bind_inv _ _ _ _ Hrun) as ([v1 r] & h1 & Hem & Hret).
  apply ret_inv in Hret as [[= ->] ->].
  destruct (Erase_returns h v es i Hv)
    as [Hnone|(v2 & r2 & h2 & es' & Hsome & Hv2 & Hup)]; [congruence|].
  rewrite Hem in Hsome. injection Hsome as <- <- <-.
  split; [eauto|]. eapply frame_updated; [apply fresh_block|done].
Qed.

Lemma element_reference h vo eo (j : N) value h1 :
  is_vector h vo eo →
  Vector_index vo j h = Some (value, h1) →
  h1 = h ∧ ∃ x, eo !! N.to_nat j = Some x ∧ load value h = Some (x, h).
Proof.
  intros Hvo Hidx. pose proof Hvo as (Hb & Hs & Hle & Hc).
  unfold Vector_index in Hidx.
  destruct (bind_inv _ _ _ _ Hidx) as (u & h2 & Has & Hidx2).
  apply assert_inv in Has as [Hj ->]. apply N.ltb_lt in Hj.
  unfold RawMemory_index in Hidx2.
  destruct (bind_inv _ _ _ _ Hidx2) as (u2 & h3 & Has2 & Hret).
  apply assert_inv in Has2 as [_ ->]. injection Hret as <- <-.
  split; [done|].
  destruct (lookup_lt_is_Some_2 eo (N.to_nat j)) as [x Hx]; [lia|].
  exists x. split; [done|].
  rewrite <- (take_drop_middle _ _ _ Hx) in Hb.
  unfold layout in Hb. rewrite fmap_app, fmap_cons, <- app_assoc in Hb. simpl in Hb.
  eapply load_at; [exact Hb|]. rewrite length_fmap, length_take.
  apply lookup_lt_Some in Hx. lia.
Qed.

Lemma CallPushBackElement_ok h v es vo eo (j : N) v' h' :
  is_vector h v es → is_vector h vo eo →
  (value ← Vector_index vo j; PushBack v value) h = Some (v', h') →
  step_ok h v h' v'.
Proof.
  intros Hv Hvo Hrun.
  destruct (bind_inv _ _ _ _ Hrun) as (value & h1 & Hidx & Hpush).
  destruct (element_reference _ _ _ _ _ _ Hvo Hidx) as (-> & x & _ & Hload).
  destruct (PushBack_returns h v es value x h Hload Hv)
    as [Hnone|(v2 & h2 & Hsome & Hv2 & Hup)]; [congruence|].
  rewrite Hpush in Hsome. injection Hsome as <- <-.
  split; [eauto|]. eapply frame_updated; [apply fresh_block|done].
Qed.

Lemma Vector_assign_ok h (a b : N) va vb ea eb va' h' :
  is_vector h va ea → is_vector h vb eb →
  (a ≠ b → separate (buffer_ (data_ vb)) (buffer_ (data_ va))) →
  Vector_assign a b va vb h = Some (va', h') →
  step_ok h va h' va'.
Proof.
  intros Hva Hvb Hsep Hrun. destruct (decide (a = b)) as [->|Hne].
  - rewrite Vector_assign_self in Hrun. injection Hrun as <- <-.
    by eapply step_ok_same.
  - specialize (Hsep Hne). destruct va as [[pt ct] st], vb as [[po co] so].
    simpl in Hsep. destruct (decide (so ≤ ct)%N) as [Hfit|Hbig].
    + destruct (Vector_assign_fits _ _ _ _ _ _ _ _ _ _ _ Hne Hva Hvb Hsep Hfit)
        as (Hsome & Hv' & _).
      rewrite Hrun in Hsome. injection Hsome as -> ->.
      by eapply step_ok_in_place.
    + destruct (Vector_assign_realloc _ _ _ _ _ _ _ _ _ _ _ Hne Hva Hvb Hsep
                  ltac:(lia)) as (Hsome & Hv' & _).
      rewrite Hrun in Hsome. injection Hsome as -> ->.
      eapply step_ok_grow; [apply fresh_block|done].
Qed.

(** ** Worlds *)

Lemma wf_insert (w : world) (a : N) p v' h' :
  wf_world w →
  (∀ a2 v2, a2 ≠ a → vectors w !! a2 = Some v2 → separate p (buffer_ (data_ v2))) →
  (∃ es', is_vector h' v' es') →
  frame (memory w) p h' (buffer_ (data_ v')) →
  wf_world {| vectors := <[a := v']> (vectors w); memory := h' |}.
Proof.
  intros [Hall Hsep] Hp [es' Hv'] Hframe.
  assert (Hrest : ∀ a2 v2, a2 ≠ a → vectors w !! a2 = Some v2 →
            (∃ es2, is_vector h' v2 es2)
            ∧ separate (buffer_ (data_ v')) (buffer_ (data_ v2))).
  { intros a2 v2 Hne H2. destruct (Hall _ _ H2) as [es2 Hv2].
    pose proof Hv2 as (Hb2 & _).
    destruct (Hframe _ _ Hb2) as [Hb2' Hsep2]; [by eapply Hp|].
    split; [|done]. exists es2. eapply is_vector_frame; [|exact Hv2]. congruence. }
  split; simpl.
  - intros a2 v2. destruct (decide (a2 = a)) as [->|Hne].
    + rewrite lookup_insert_eq. intros [= <-]. eauto.
    + rewrite lookup_insert_ne by done. intros H2. by apply (Hrest a2).
  - intros a1 a2 v1 v2 Hne.
    destruct (decide (a1 = a)) as [->|Hne1]; destruct (decide (a2 = a)) as [->|Hne2];
      try done; rewrite ?lookup_insert_eq, ?lookup_insert_ne by done.
    + intros [= <-] H2. by apply (Hrest a2).
    + intros H1 [= <-]. apply separate_sym. by apply (Hrest a1).
    + by apply Hsep.
Qed.

Lemma wf_update (w : world) (a : N) v v' h' :
  wf_world w → vectors w !! a = Some v →
  step_ok (memory w) v h' v' →
  wf_world {| vectors := <[a := v']> (vectors w); memory := h' |}.
Proof.
  intros Hw Ha [Hv' Hframe]. eapply wf_insert; [done| |done|done].
  intros a2 v2 Hne H2. by eapply (proj2 Hw a a2).
Qed.

Lemma on_vector_ok (w w' : world) (a : N) (f : Vector → M Vector) :
  wf_world w →
  (∀ v es v' h', vectors w !! a = Some v → is_vector (memory w) v es →
     f v (memory w) = Some (v', h') → step_ok (memory w) v h' v') →
  on_vector a f w = Some w' → wf_world w'.
Proof.
  intros Hw Hf. unfold on_vector.
  destruct (vectors w !! a) as [v|] eqn:Ha; [|done]. simpl.
  destruct (f v (memory w)) as [[v' h']|] eqn:Hrun; [|done]. simpl.
  intros [= <-]. destruct (proj1 Hw _ _ Ha) as [es Hv].
  eapply wf_update; eauto.
Qed.


Lemma declare_ok (w w' : world) (a : N) (f : M Vector) :
  wf_world w →
  (∀ v h', f (memory w) = Some (v, h') →
     (∃ es, is_vector h' v es) ∧ frame (memory w) nullptr h' (buffer_ (data_ v))) →
  declare a f w = Some w' → wf_world w'.
Proof.
  intros Hw Hf. unfold declare. destruct (vectors w !! a); [done|].
  destruct (f (memory w)) as [[v h']|] eqn:Hrun; [|done]. simpl.
  intros [= <-]. destruct (Hf _ _ eq_refl) as [Hv Hframe].
  eapply wf_insert; [done| |done|done]. intros. apply separate_null_l.
Qed.

Lemma wf_exchange (w : @world T) (a o : N) va vo :
  wf_world w → vectors w !! a = Some va → vectors w !! o = Some vo →
  wf_world {| vectors := <[a := vo]> (<[o := va]> (vectors w)); memory := memory w |}.
Proof.
  intros [Hall Hsep] Ha Ho.
  set (π := λ k : N, if decide (k = a) then o else if decide (k = o) then a else k).
  assert (Hπ : ∀ k, (<[a := vo]> (<[o := va]> (vectors w))) !! k = vectors w !! π k).
  { intros k. unfold π. destruct (decide (k = a)) as [->|Hka].
    - by rewrite lookup_insert_eq.
    - rewrite lookup_insert_ne by done. destruct (decide (k = o)) as [->|Hko].
      + by rewrite lookup_insert_eq.
      + by rewrite lookup_insert_ne. }
  assert (Hinj : ∀ k1 k2, k1 ≠ k2 → π k1 ≠ π k2).
  { intros k1 k2. unfold π. repeat case_decide; congruence. }
  split; simpl.
  - intros k v. rewrite Hπ. apply Hall.
  - intros k1 k2 v1 v2 Hne. rewrite !Hπ. apply Hsep. by apply Hinj.
Qed.

Lemma on_vectors_ok (w w' : @world T) (a o : N) :
  wf_world w → on_vectors a o Swap w = Some w' → wf_world w'.
Proof.
  intros Hw. unfold on_vectors.
  destruct (vectors w !! a) as [[[pa ca] sa]|] eqn:Ha; [|done]. simpl.
  destruct (vectors w !! o) as [[[po co] so]|] eqn:Ho; [|done]. simpl.
  intros [= <-]. by apply wf_exchange.
Qed.

Lemma ConstructMove_ok (w w' : @world T) (a o : N) :
  wf_world w → exec (ConstructMove a o) w = Some w' → wf_world w'.
Proof.
  intros Hw. cbn [exec].
  destruct (vectors w !! o) as [[[po co] so]|] eqn:Ho; [|done].
  cbn [mbind option_bind Vector_move RawMemory_move data_ size_ buffer_ capacity_].
  destruct (proj1 Hw _ _ Ho) as [eo Hvo].
  unfold declare. cbn [vectors memory]. destruct (<[o:=_]> (vectors w) !! a) eqn:Ha; [done|].
  cbn. intros [= <-].
  apply lookup_insert_None in Ha as [Ha Hoa].
  pose proof (wf_insert
    {| vectors := <[o := mkVector (mkRawMemory nullptr 0) 0]> (vectors w);
       memory := memory w |} a po (mkVector (mkRawMemory po co) so) (memory w))
    as Hins.
  cbn [vectors memory data_ buffer_] in Hins. apply Hins; clear Hins.
  - eapply (wf_update w o); [done|done|]. split.
    + exists []. apply Vector_default_is_vector.
    + intros q cells Hq _. split; [done|apply separate_null_l].
  - intros a2 v2 Hne. destruct (decide (a2 = o)) as [->|Hno].
    + rewrite lookup_insert_eq. intros [= <-]. apply separate_null_r.
    + rewrite lookup_insert_ne by done. intros H2.
      by apply (proj2 Hw o a2 _ _ ltac:(done) Ho H2).
  - by exists eo.
  - apply frame_refl.
Qed.

Lemma Destroy_ok (w w' : @world T) (a : N) :
  wf_world w → exec (Destroy a) w = Some w' → wf_world w'.
Proof.
  intros [Hall Hsep]. simpl.
  destruct (vectors w !! a) as [[[p c] s]|] eqn:Ha; [|done]. simpl.
  destruct (Hall _ _ Ha) as [es Hv].
  rewrite (Vector_destroy_spec _ _ _ _ _ Hv). simpl. intros [= <-].
  split; simpl.
  - intros a2 v2 [Hne H2]%lookup_delete_Some.
    destruct (Hall _ _ H2) as [es2 Hv2]. exists es2.
    eapply is_vector_frame; [|exact Hv2]. apply block_of_free_block_ne.
    by apply (Hsep a a2 _ _ ltac:(done) Ha H2).
  - intros a1 a2 v1 v2 Hne [_ H1]%lookup_delete_Some [_ H2]%lookup_delete_Some.
    by eapply Hsep.
Qed.

Lemma exec_preserves (w w' : @world T) (c : call) :
  wf_world w → exec c w = Some w' → wf_world w'.
Proof.
  intros Hw. destruct c; cbn [exec].
  - apply declare_ok; [done|]. intros v h' [= <- <-]. split.
    + exists []. apply Vector_default_is_vector.
    + apply frame_refl.
  - case_match eqn:Hn; [|done]. apply N.ltb_lt in Hn.
    apply declare_ok; [done|]. intros v h' Hrun.
    destruct (Vector_sized_spec (memory w) n Hn) as [Hsome Hv].
    rewrite Hrun in Hsome. injection Hsome as -> ->.
    split; [eauto|]. apply frame_new_buffer.
  - destruct (vectors w !! o) as [[[po co] so]|] eqn:Ho; [|done]. simpl.
    destruct (proj1 Hw _ _ Ho) as [eo Hvo].
    apply declare_ok; [done|]. intros v h' Hrun.
    destruct (Vector_copy_spec _ _ _ _ _ Hvo) as (Hsome & Hv & _).
    rewrite Hrun in Hsome. injection Hsome as -> ->.
    split; [eauto|]. apply frame_new_buffer.
  - by apply ConstructMove_ok.
  - by apply Destroy_ok.
  - case_match eqn:Hn; [|done]. apply N.ltb_lt in Hn.
    apply on_vector_ok; [done|]. intros v es v' h' _ Hv. by eapply Reserve_ok.
  - case_match eqn:Hn; [|done]. apply N.ltb_lt in Hn.
    apply on_vector_ok; [done|]. intros v es v' h' _ Hv. by eapply Resize_ok.
  - apply on_vector_ok; [done|]. intros v es v' h' _ Hv. by eapply CallPushBack_ok.
  - destruct (vectors w !! o) as [vo|] eqn:Ho; [|done]. simpl.
    destruct (proj1 Hw _ _ Ho) as [eo Hvo].
    apply on_vector_ok; [done|]. intros v es v' h' _ Hv.
    by eapply CallPushBackElement_ok.
  - apply on_vector_ok; [done|]. intros v es v' h' _ Hv. by eapply CallPushBackMove_ok.
  - apply on_vector_ok; [done|]. intros v es v' h' _ Hv. by eapply PopBack_ok.
  - apply on_vector_ok; [done|]. intros v es v' h' _ Hv. by eapply CallEmplaceBack_ok.
  - apply on_vector_ok; [done|]. intros v es v' h' _ Hv. by eapply CallEmplace_ok.
  - apply on_vector_ok; [done|]. intros v es v' h' _ Hv. by eapply CallInsert_ok.
  - apply on_vector_ok; [done|]. intros v es v' h' _ Hv. by eapply CallInsertMove_ok.
  - apply on_vector_ok; [done|]. intros v es v' h' _ Hv. by eapply CallErase_ok.
  - destruct (vectors w !! o) as [vo|] eqn:Ho; [|done]. simpl.
    destruct (proj1 Hw _ _ Ho) as [eo Hvo].
    apply on_vector_ok; [done|]. intros v es v' h' Ha Hv.
    eapply Vector_assign_ok; [done|done|].
    intros Hne. by apply (proj2 Hw o a _ _ ltac:(done) Ho Ha).
  - by apply on_vectors_ok.
  - by apply on_vectors_ok.
Qed.

Lemma reachable_wf (w : @world T) : reachable w → wf_world w.
Proof.
  induction 1 as [h|w c w' _ IH Hexec].
  - split; simpl; intros *; by rewrite ?lookup_empty.
  - by eapply exec_preserves.
Qed.


Lemma run_reachable (cs : list call) (w w' : @world T) :
  reachable w → run cs w = Some w' → reachable w'.
Proof.
  revert w. induction cs as [|c cs IH]; intros w Hw; simpl.
  - by intros [= <-].
  - destruct (exec c w) as [w1|] eqn:Hexec; [|done]. simpl.
    apply IH. by eapply reachable_step.
Qed.

Lemma wf_length_within_capacity (w : @world T) :
  wf_world w → length_within_capacity w.
Proof.
  intros [Hall _] a v Ha. destruct (Hall _ _ Ha) as (es & _ & _ & Hle & _).
  unfold Size, Capacity, RawMemory_Capacity. lia.
Qed.

(** ** What a call that returns leaves in the fields

    The methods compute the fields [size_] and [capacity_] from the fields
    and the arguments alone.  The lemmas below follow a run that returns,
    in whatever heap, to the fields it leaves; where [size_ * 2] wraps
    around there is no such run. *)

Lemma RawMemory_new_inv (n : N) h rm h1 :
  RawMemory_new n h = Some (rm, h1) → capacity_ rm = n.
Proof. rewrite RawMemory_new_spec. by intros [= <- _]. Qed.

Lemma in_bounds_fields p (c s : N) :
  in_bounds (mkVector (mkRawMemory p c) s) ↔ (s ≤ c)%N ∧ (c < size_modulus)%N.
Proof. done. Qed.

Lemma grown_capacity_bounds (c : N) :
  (2 * c < size_modulus)%N →
  (c + 1 ≤ grown_capacity c)%N ∧ (grown_capacity c < size_modulus)%N.
Proof.
  intros Hc. unfold grown_capacity. destruct (N.eqb_spec c 0) as [->|Hne].
  - split; [lia|done].
  - rewrite size_mul_exact by lia. lia.
Qed.

Lemma Vector_sized_in_bounds (n : N) h v h' :
  (n < size_modulus)%N → Vector_sized n h = Some (v, h') → in_bounds v.
Proof.
  intros Hn Hrun. unfold Vector_sized in Hrun.
  apply bind_inv in Hrun as (rm & ? & Hnew%RawMemory_new_inv & Hrun).
  apply bind_inv in Hrun as (? & ? & _ & [-> _]%ret_inv).
  unfold in_bounds, Size, Capacity, RawMemory_Capacity. simpl. lia.
Qed.

Lemma Vector_copy_in_bounds (other : Vector) h v h' :
  in_bounds other → Vector_copy other h = Some (v, h') → in_bounds v.
Proof.
  intros [Hle Hc] Hrun. unfold Vector_copy in Hrun.
  apply bind_inv in Hrun as (rm & ? & Hnew%RawMemory_new_inv & Hrun).
  apply bind_inv in Hrun as (? & ? & _ & [-> _]%ret_inv).
  unfold in_bounds, Size, Capacity, RawMemory_Capacity in *. simpl. lia.
Qed.

Lemma Reserve_in_bounds v (n : N) h v' h' :
  in_bounds v → (n < size_modulus)%N → Reserve v n h = Some (v', h') →
  in_bounds v' ∧ Size v' = Size v ∧ (n ≤ Capacity v')%N.
Proof.
  intros [Hle Hc] Hn Hrun. destruct v as [[p c] s].
  unfold in_bounds, Size, Capacity, RawMemory_Capacity in *.
  cbn [data_ size_ capacity_] in *. unfold Reserve in Hrun.
  cbn [data_ size_ capacity_ RawMemory_Capacity] in Hrun.
  destruct (N.leb_spec n c) as [Hnc|Hnc].
  - apply ret_inv in Hrun as [-> _]. simpl. lia.
  - apply bind_inv in Hrun as ([q c'] & ? & Hnew%RawMemory_new_inv & Hrun).
    apply bind_inv in Hrun as (? & ? & _ & Hrun).
    apply bind_inv in Hrun as (? & ? & _ & Hrun).
    cbn [RawMemory_Swap] in Hrun.
    apply bind_inv in Hrun as (? & ? & _ & [-> _]%ret_inv).
    simpl in *. lia.
Qed.

Lemma Resize_in_bounds v (n : N) h v' h' :
  in_bounds v → (n < size_modulus)%N → Resize v n h = Some (v', h') → in_bounds v'.
Proof.
  intros Hv Hn Hrun. pose proof Hv as [Hle Hc]. unfold Resize in Hrun.
  apply bind_inv in Hrun as (v1 & ? & Hrun & [-> _]%ret_inv).
  assert (in_bounds v1 ∧ (n ≤ Capacity v1)%N) as [[_ Hc1] Hn1]; last first.
  { unfold in_bounds, Size, Capacity, RawMemory_Capacity in *. simpl. lia. }
  destruct (N.ltb_spec n (size_ v)) as [Hlt|Hge].
  - apply bind_inv in Hrun as (? & ? & _ & [-> _]%ret_inv).
    unfold Size, Capacity, RawMemory_Capacity in *. split; [done|lia].
  - apply bind_inv in Hrun as (v2 & ? & Hrun & Hrest).
    apply bind_inv in Hrest as (? & ? & _ & [-> _]%ret_inv).
    destruct (N.ltb_spec (RawMemory_Capacity (data_ v)) n) as [Hgrow|Hfit].
    + apply Reserve_in_bounds in Hrun as (Hv2 & _ & Hcap); [|done|].
      * split; [done|lia].
      * unfold size_mul, size_t.
        pose proof (N.mod_upper_bound (RawMemory_Capacity (data_ v) * 2) size_modulus).
        assert (size_modulus ≠ 0%N) by done. lia.
    + apply ret_inv in Hrun as [-> _]. by split.
Qed.

Lemma PopBack_in_bounds v h v' h' :
  in_bounds v → PopBack v h = Some (v', h') → in_bounds v'.
Proof.
  intros [Hle Hc] Hrun. unfold PopBack in Hrun.
  destruct (N.ltb_spec 0 (size_ v)) as [Hpos|Hzero].
  - apply bind_inv in Hrun as (? & ? & _ & Hrun).
    apply bind_inv in Hrun as (? & ? & _ & [-> _]%ret_inv).
    unfold in_bounds, Size, Capacity, RawMemory_Capacity in *. simpl.
    rewrite size_sub_exact by lia. lia.
  - by apply ret_inv in Hrun as [-> _].
Qed.

Lemma grown_in_bounds (c : N) q :
  (2 * c < size_modulus)%N →
  in_bounds (mkVector (mkRawMemory q (grown_capacity c)) (size_add c 1)).
Proof.
  intros Hc. destruct (grown_capacity_bounds c Hc).
  apply in_bounds_fields. rewrite size_add_exact by lia. lia.
Qed.

Lemma appended_in_bounds p (c s : N) :
  (s ≤ c)%N → (c < size_modulus)%N → s ≠ c →
  in_bounds (mkVector (mkRawMemory p c) (size_add s 1)).
Proof.
  intros Hle Hc Hne. apply in_bounds_fields. rewrite size_add_exact by lia. lia.
Qed.

Lemma PushBack_in_bounds v value h v' h' :
  in_bounds v → PushBack v value h = Some (v', h') → in_bounds v'.
Proof.
  intros [Hle Hc] Hrun. destruct v as [[p c] s].
  unfold in_bounds, Size, Capacity, RawMemory_Capacity in Hle, Hc.
  cbn [data_ size_ capacity_] in Hle, Hc.
  destruct (N.eqb_spec s c) as [->|Hne].
  - destruct (N.lt_ge_cases (2 * c) size_modulus) as [Hfit|Hwrap];
      [|by rewrite PushBack_wrapped in Hrun].
    unfold PushBack, Capacity, RawMemory_Capacity in Hrun.
    cbn [data_ size_ capacity_ buffer_ GetAddress] in Hrun.
    rewrite N.eqb_refl in Hrun.
    apply bind_inv in Hrun as (v1 & ? & Hrun & [-> _]%ret_inv).
    apply bind_inv in Hrun as ([q c'] & ? & Hnew%RawMemory_new_inv & Hrun).
    apply bind_inv in Hrun as (? & ? & _ & Hrun).
    apply bind_inv in Hrun as (? & ? & _ & Hrun).
    apply bind_inv in Hrun as (? & ? & _ & Hrun).
    cbn [RawMemory_Swap] in Hrun.
    apply bind_inv in Hrun as (? & ? & _ & [-> _]%ret_inv).
    simpl in Hnew. subst c'. cbn [data_ size_]. by apply grown_in_bounds.
  - unfold PushBack, Capacity, RawMemory_Capacity in Hrun.
    cbn [data_ size_ capacity_ buffer_ GetAddress] in Hrun.
    replace (s =? c)%N with false in Hrun by (symmetry; by apply N.eqb_neq).
    apply bind_inv in Hrun as (v1 & ? & Hrun & [-> _]%ret_inv).
    apply bind_inv in Hrun as (? & ? & _ & Hrun).
    apply bind_inv in Hrun as (? & ? & _ & [-> _]%ret_inv).
    cbn [data_ size_]. by apply appended_in_bounds.
Qed.

Lemma PushBack_move_in_bounds v value h v' h' :
  in_bounds v → PushBack_move v value h = Some (v', h') → in_bounds v'.
Proof.
  intros [Hle Hc] Hrun. destruct v as [[p c] s].
  unfold in_bounds, Size, Capacity, RawMemory_Capacity in Hle, Hc.
  cbn [data_ size_ capacity_] in Hle, Hc.
  destruct (N.eqb_spec s c) as [->|Hne].
  - destruct (N.lt_ge_cases (2 * c) size_modulus) as [Hfit|Hwrap];
      [|by rewrite PushBack_move_wrapped in Hrun].
    unfold PushBack_move, Capacity, RawMemory_Capacity in Hrun.
    cbn [data_ size_ capacity_ buffer_ GetAddress] in Hrun.
    rewrite N.eqb_refl in Hrun.
    apply bind_inv in Hrun as (v1 & ? & Hrun & [-> _]%ret_inv).
    apply bind_inv in Hrun as ([q c'] & ? & Hnew%RawMemory_new_inv & Hrun).
    apply bind_inv in Hrun as (? & ? & _ & Hrun).
    apply bind_inv in Hrun as (? & ? & _ & Hrun).
    apply bind_inv in Hrun as (? & ? & _ & Hrun).
    cbn [RawMemory_Swap] in Hrun.
    apply bind_inv in Hrun as (? & ? & _ & [-> _]%ret_inv).
    simpl in Hnew. subst c'. cbn [data_ size_]. by apply grown_in_bounds.
  - unfold PushBack_move, Capacity, RawMemory_Capacity in Hrun.
    cbn [data_ size_ capacity_ buffer_ GetAddress] in Hrun.
    replace (s =? c)%N with false in Hrun by (symmetry; by apply N.eqb_neq).
    apply bind_inv in Hrun as (v1 & ? & Hrun & [-> _]%ret_inv).
    apply bind_inv in Hrun as (? & ? & _ & Hrun).
    apply bind_inv in Hrun as (? & ? & _ & [-> _]%ret_inv).
    cbn [data_ size_]. by apply appended_in_bounds.
Qed.

Lemma EmplaceBack_in_bounds v args h v' r h' :
  in_bounds v → EmplaceBack v args h = Some ((v', r), h') → in_bounds v'.
Proof.
  intros [Hle Hc] Hrun. destruct v as [[p c] s].
  unfold in_bounds, Size, Capacity, RawMemory_Capacity in Hle, Hc.
  cbn [data_ size_ capacity_] in Hle, Hc.
  destruct (N.eqb_spec s c) as [->|Hne].
  - destruct (N.lt_ge_cases (2 * c) size_modulus) as [Hfit|Hwrap];
      [|by rewrite EmplaceBack_wrapped in Hrun].
    unfold EmplaceBack, Capacity, RawMemory_Capacity in Hrun.
    cbn [data_ size_ capacity_ buffer_ GetAddress] in Hrun.
    rewrite N.eqb_refl in Hrun.
    apply bind_inv in Hrun as ([v1 r1] & ? & Hrun & [[= -> ->] _]%ret_inv).
    apply bind_inv in Hrun as ([q c'] & ? & Hnew%RawMemory_new_inv & Hrun).
    apply bind_inv in Hrun as (? & ? & _ & Hrun).
    apply bind_inv in Hrun as (? & ? & _ & Hrun).
    apply bind_inv in Hrun as (? & ? & _ & Hrun).
    apply bind_inv in Hrun as (? & ? & _ & Hrun).
    cbn [RawMemory_Swap] in Hrun.
    apply bind_inv in Hrun as (? & ? & _ & [[= -> ->] _]%ret_inv).
    simpl in Hnew. subst c'. cbn [data_ size_]. by apply grown_in_bounds.
  - unfold EmplaceBack, Capacity, RawMemory_Capacity in Hrun.
    cbn [data_ size_ capacity_ buffer_ GetAddress] in Hrun.
    replace (s =? c)%N with false in Hrun by (symmetry; by apply N.eqb_neq).
    apply bind_inv in Hrun as ([v1 r1] & ? & Hrun & [[= -> ->] _]%ret_inv).
    apply bind_inv in Hrun as (? & ? & _ & Hrun).
    apply bind_inv in Hrun as (? & ? & _ & [[= -> ->] _]%ret_inv).
    cbn [data_ size_]. by apply appended_in_bounds.
Qed.


Lemma Emplace_in_bounds v pos args h v' r h' :
  in_bounds v → Emplace v pos args h = Some ((v', r), h') → in_bounds v'.
Proof.
  intros [Hle Hc] Hrun. destruct v as [[p c] s].
  unfold in_bounds, Size, Capacity, RawMemory_Capacity in Hle, Hc.
  cbn [data_ size_ capacity_] in Hle, Hc.
  destruct (N.eqb_spec s c) as [->|Hne].
  - destruct (N.lt_ge_cases (2 * c) size_modulus) as [Hfit|Hwrap];
      [|by rewrite Emplace_wrapped in Hrun].
    unfold Emplace, Capacity, RawMemory_Capacity in Hrun.
    cbn [data_ size_ capacity_ buffer_ GetAddress] in Hrun.
    rewrite N.eqb_refl in Hrun.
    apply bind_inv in Hrun as (? & ? & _ & Hrun).
    apply bind_inv in Hrun as (? & ? & _ & Hrun).
    apply bind_inv in Hrun as ([v1 r1] & ? & Hrun & [[= -> ->] _]%ret_inv).
    apply bind_inv in Hrun as ([q c'] & ? & Hnew%RawMemory_new_inv & Hrun).
    apply bind_inv in Hrun as (? & ? & _ & Hrun).
    apply bind_inv in Hrun as (? & ? & _ & Hrun).
    apply bind_inv in Hrun as (? & ? & _ & Hrun).
    apply bind_inv in Hrun as (? & ? & _ & Hrun).
    apply bind_inv in Hrun as (? & ? & _ & Hrun).
    cbn [RawMemory_Swap] in Hrun.
    apply bind_inv in Hrun as (? & ? & _ & [[= -> ->] _]%ret_inv).
    simpl in Hnew. subst c'. cbn [data_ size_]. by apply grown_in_bounds.
  - unfold Emplace, Capacity, RawMemory_Capacity in Hrun.
    cbn [data_ size_ capacity_ buffer_ GetAddress] in Hrun.
    replace (s =? c)%N with false in Hrun by (symmetry; by apply N.eqb_neq).
    apply bind_inv in Hrun as (? & ? & _ & Hrun).
    apply bind_inv in Hrun as (? & ? & _ & Hrun).
    apply bind_inv in Hrun as ([v1 r1] & ? & Hrun & [[= -> ->] _]%ret_inv).
    apply bind_inv in Hrun as (? & ? & _ & Hrun).
    apply bind_inv in Hrun as (? & ? & _ & Hrun).
    apply bind_inv in Hrun as (? & ? & _ & [[= -> ->] _]%ret_inv).
    cbn [data_ size_]. by apply appended_in_bounds.
Qed.

Lemma Erase_in_bounds v pos h v' r h' :
  in_bounds v → Erase v pos h = Some ((v', r), h') → in_bounds v'.
Proof.
  intros Hv Hrun. unfold Erase in Hrun.
  apply bind_inv in Hrun as (? & ? & _ & Hrun).
  apply bind_inv in Hrun as (? & ? & _ & Hrun).
  apply bind_inv in Hrun as (? & ? & _ & Hrun).
  apply bind_inv in Hrun as (v1 & ? & Hpop & [[= -> _] _]%ret_inv).
  by eapply PopBack_in_bounds.
Qed.

Lemma Swap_in_bounds (this other this' other' : Vector) :
  in_bounds this → in_bounds other → Swap this other = (this', other') →
  in_bounds this' ∧ in_bounds other'.
Proof. intros Ht Ho [= <- <-]. by destruct this as [[??]?], other as [[??]?]. Qed.

Lemma Vector_move_in_bounds (other v other' : Vector) :
  in_bounds other → Vector_move other = (v, other') →
  in_bounds v ∧ in_bounds other'.
Proof.
  intros Ho [= <- <-]. destruct other as [[??]?]. split; [done|].
  apply in_bounds_fields. split; [lia|done].
Qed.

Lemma Vector_assign_in_bounds (a o : N) (this other : Vector) h v' h' :
  in_bounds this → in_bounds other →
  Vector_assign a o this other h = Some (v', h') → in_bounds v'.
Proof.
  intros Ht Ho Hrun. unfold Vector_assign in Hrun.
  case_bool_decide; [|by apply ret_inv in Hrun as [-> _]].
  destruct (N.leb_spec (size_ other) (RawMemory_Capacity (data_ this))) as [Hfit|Hgrow].
  - apply bind_inv in Hrun as (? & ? & _ & [-> _]%ret_inv).
    destruct Ht as [_ Hc]. split; [done|exact Hc].
  - apply bind_inv in Hrun as (copy & ? & Hcopy%Vector_copy_in_bounds & Hrun); [|done].
    destruct (Swap this copy) as [this' copy'] eqn:Hswap.
    apply bind_inv in Hrun as (? & ? & _ & [-> _]%ret_inv).
    by destruct (Swap_in_bounds _ _ _ _ Ht Hcopy Hswap).
Qed.

Lemma with_temporary_inv {A} x (f : pointer → M A) h r h' :
  with_temporary x f h = Some (r, h') →
  ∃ tmp h0 h1, f tmp h0 = Some (r, h1).
Proof.
  rewrite with_temporary_run. cbv zeta.
  destruct (f _ _) as [[r1 h1]|] eqn:Hf; [|done].
  destruct (h1 !! _) as [[|[?|] ?]|]; try done.
  intros [= <- _]. eauto.
Qed.


(** ** The fields of the objects of a world *)

Lemma in_bounds_insert (m : gmap N Vector) (a : N) (v : Vector) :
  (∀ a' v', m !! a' = Some v' → in_bounds v') → in_bounds v →
  ∀ a' v', <[a := v]> m !! a' = Some v' → in_bounds v'.
Proof.
  intros Hall Hv a' v'. destruct (decide (a' = a)) as [->|Hne].
  - rewrite lookup_insert_eq. by intros [= <-].
  - rewrite lookup_insert_ne by done. apply Hall.
Qed.

Lemma on_vector_in_bounds (a : N) (f : Vector → M Vector) (w w' : @world T) :
  (∀ a' v', vectors w !! a' = Some v' → in_bounds v') →
  (∀ v h v' h', in_bounds v → f v h = Some (v', h') → in_bounds v') →
  on_vector a f w = Some w' →
  ∀ a' v', vectors w' !! a' = Some v' → in_bounds v'.
Proof.
  intros Hall Hf Hrun. unfold on_vector in Hrun.
  destruct (vectors w !! a) as [v|] eqn:Ha; [|done]. simpl in Hrun.
  destruct (f v (memory w)) as [[v1 h1]|] eqn:Hfv; [|done]. simpl in Hrun.
  injection Hrun as <-. cbn [vectors]. apply in_bounds_insert; [done|].
  eapply Hf; [|exact Hfv]. by eapply Hall.
Qed.

Lemma declare_in_bounds (a : N) (f : M Vector) (w w' : @world T) :
  (∀ a' v', vectors w !! a' = Some v' → in_bounds v') →
  (∀ h v h', f h = Some (v, h') → in_bounds v) →
  declare a f w = Some w' →
  ∀ a' v', vectors w' !! a' = Some v' → in_bounds v'.
Proof.
  intros Hall Hf Hrun. unfold declare in Hrun.
  destruct (vectors w !! a); [done|].
  destruct (f (memory w)) as [[v1 h1]|] eqn:Hfv; [|done]. simpl in Hrun.
  injection Hrun as <-. cbn [vectors]. apply in_bounds_insert; [done|].
  by eapply Hf.
Qed.

Lemma on_vectors_in_bounds (a o : N) (f : Vector → Vector → Vector * Vector)
    (w w' : @world T) :
  (∀ a' v', vectors w !! a' = Some v' → in_bounds v') →
  (∀ va vo va' vo', in_bounds va → in_bounds vo → f va vo = (va', vo') →
                    in_bounds va' ∧ in_bounds vo') →
  on_vectors a o f w = Some w' →
  ∀ a' v', vectors w' !! a' = Some v' → in_bounds v'.
Proof.
  intros Hall Hf Hrun. unfold on_vectors in Hrun.
  destruct (vectors w !! a) as [va|] eqn:Ha; [|done]. simpl in Hrun.
  destruct (vectors w !! o) as [vo|] eqn:Ho; [|done]. simpl in Hrun.
  destruct (f va vo) as [va' vo'] eqn:Hfv. injection Hrun as <-. cbn [vectors].
  destruct (Hf _ _ _ _ (Hall _ _ Ha) (Hall _ _ Ho) Hfv).
  by repeat apply in_bounds_insert.
Qed.

Lemma exec_in_bounds (c : call) (w w' : @world T) :
  (∀ a v, vectors w !! a = Some v → in_bounds v) →
  exec c w = Some w' →
  ∀ a v, vectors w' !! a = Some v → in_bounds v.
Proof.
  intros Hall. destruct c; cbn [exec].
  - apply declare_in_bounds; [done|]. intros h v h' [-> _]%ret_inv.
    apply in_bounds_fields. split; [lia|done].
  - case_match eqn:Hn; [|done]. apply N.ltb_lt in Hn.
    apply declare_in_bounds; [done|]. intros h v h'. by apply Vector_sized_in_bounds.
  - destruct (vectors w !! o) as [vo|] eqn:Ho; [|done]. simpl.
    apply declare_in_bounds; [done|]. intros h v h'.
    apply Vector_copy_in_bounds. by eapply Hall.
  - destruct (vectors w !! o) as [[[po co] so]|] eqn:Ho; [|done]. simpl.
    apply declare_in_bounds.
    + cbn [vectors]. apply in_bounds_insert; [done|].
      apply in_bounds_fields. split; [lia|done].
    + intros h v1 h' [-> _]%ret_inv. exact (Hall _ _ Ho).
  - destruct (vectors w !! a) as [v|] eqn:Ha; [|done]. simpl.
    destruct (Vector_destroy v (memory w)) as [[[] h']|]; [|done]. simpl.
    intros [= <-] a' v'. cbn [vectors].
    intros Hv'%lookup_delete_Some. apply (Hall a'), Hv'.
  - case_match eqn:Hn; [|done]. apply N.ltb_lt in Hn.
    apply on_vector_in_bounds; [done|]. intros v h v' h' Hv Hrun.
    by destruct (Reserve_in_bounds _ _ _ _ _ Hv Hn Hrun).
  - case_match eqn:Hn; [|done]. apply N.ltb_lt in Hn.
    apply on_vector_in_bounds; [done|]. intros v h v' h' Hv.
    by apply Resize_in_bounds.
  - apply on_vector_in_bounds; [done|].
    intros v h v' h' Hv (tmp & h0 & h1 & Hrun)%with_temporary_inv.
    by eapply PushBack_in_bounds.
  - destruct (vectors w !! o) as [vo|] eqn:Ho; [|done]. simpl.
    apply on_vector_in_bounds; [done|].
    intros v h v' h' Hv (value & h1 & _ & Hrun)%bind_inv.
    by eapply PushBack_in_bounds.
  - apply on_vector_in_bounds; [done|].
    intros v h v' h' Hv (tmp & h0 & h1 & Hrun)%with_temporary_inv.
    by eapply PushBack_move_in_bounds.
  - apply on_vector_in_bounds; [done|]. intros v h v' h' Hv. by apply PopBack_in_bounds.
  - apply on_vector_in_bounds; [done|].
    intros v h v' h' Hv ([v1 r] & h1 & Hrun & [-> _]%ret_inv)%bind_inv.
    by eapply EmplaceBack_in_bounds.
  - apply on_vector_in_bounds; [done|].
    intros v h v' h' Hv ([v1 r] & h1 & Hrun & [-> _]%ret_inv)%bind_inv.
    by eapply Emplace_in_bounds.
  - apply on_vector_in_bounds; [done|].
    intros v h v' h' Hv (tmp & h0 & h1 & Hrun)%with_temporary_inv.
    apply bind_inv in Hrun as ([v1 r] & h2 & Hrun & [-> _]%ret_inv).
    by eapply Emplace_in_bounds.
  - apply on_vector_in_bounds; [done|].
    intros v h v' h' Hv (tmp & h0 & h1 & Hrun)%with_temporary_inv.
    apply bind_inv in Hrun as ([v1 r] & h2 & Hrun & [-> _]%ret_inv).
    by eapply Emplace_in_bounds.
  - apply on_vector_in_bounds; [done|].
    intros v h v' h' Hv ([v1 r] & h1 & Hrun & [-> _]%ret_inv)%bind_inv.
    by eapply Erase_in_bounds.
  - destruct (vectors w !! o) as [vo|] eqn:Ho; [|done]. simpl.
    apply on_vector_in_bounds; [done|]. intros v h v' h' Hv.
    apply Vector_assign_in_bounds; [done|]. by eapply Hall.
  - apply on_vectors_in_bounds; [done|]. intros va vo va' vo'. apply Swap_in_bounds.
  - apply on_vectors_in_bounds; [done|]. intros va vo va' vo'. apply Swap_in_bounds.
Qed.

Lemma in_bounds_world (w : @world T) :
  (∀ a v, vectors w !! a = Some v → in_bounds v)
  ↔ length_within_capacity w ∧ size_t_fields w.
Proof.
  split.
  - intros Hall. split; intros a v Ha; destruct (Hall _ _ Ha); [lia|done].
  - intros [Hlen Hc] a v Ha. split; [by apply (Hlen a)|by apply (Hc a)].
Qed.

Lemma reachable_in_bounds (w : @world T) :
  reachable w → ∀ a v, vectors w !! a = Some v → in_bounds v.
Proof.
  induction 1 as [h|w c w' _ IH Hexec].
  - intros a v. simpl. by rewrite lookup_empty.
  - by eapply exec_in_bounds.
Qed.

(** C3. The invariant [0 <= size_ <= Capacity()] holds of every object in
    every world a program reaches from its start, where no vector exists
    yet, by constructors, destructors and calls of the public methods;
    and every call that returns takes a world that satisfies the
    invariant, whatever its heap holds, to one that satisfies it, given
    that the capacities are [size_t] numbers, which they then remain.  A
    call is followed through the fields alone: nothing is assumed of the
    blocks, so the second part covers every state of the program, also
    one whose block is smaller than the capacity it records.  An append
    whose [size_ * 2] wraps around does not return; the blocks of the
    model are never smaller than those of the program, which lets more
    calls return, not fewer. *)
Theorem length_within_capacity_invariant (w : @world T) :
  (reachable w → length_within_capacity w)
  ∧ (size_t_fields w → length_within_capacity w →
     ∀ c w', exec c w = Some w' → length_within_capacity w' ∧ size_t_fields w').
Proof.
  split.
  - intros Hw. by apply in_bounds_world, reachable_in_bounds.
  - intros Hc Hlen c w' Hexec. apply in_bounds_world.
    eapply exec_in_bounds; [|exact Hexec]. by apply in_bounds_world.
Qed.

(** C1. [Emplace] at [begin() + i], and with it both overloads of [Insert],
    returns a vector of [n + 1] elements with the new element at position
    [i].  When the vector is full and grows, the other elements are the old
    ones in their order, as the specification says.  When it has room left
    they are not: the last element is first moved into the new trailing
    slot and then overwritten by [std::move_backward], whose source range
    ends at [data_ + size_] and so starts from the slot just moved from;
    what ends up around the new element is the old list with its last
    element in the moved-from state. *)
Theorem Emplace_moves_last_element_twice h v es args x ha (i : N) :
  is_vector h v es →
  forward_args args h = Some (x, ha) →
  (∀ src, args_source args = Some src → separate (buffer_ (data_ v)) src) →
  (i ≤ Size v)%N →
  (Size v = Capacity v → (2 * Capacity v < size_modulus)%N) →
  let around := if (Size v =? Capacity v)%N then es else last_moved es in
  ∃ v' r h',
    Emplace v (begin v +ₚ i) args h = Some ((v', r), h')
    ∧ is_vector h' v' (take (N.to_nat i) around ++ x :: drop (N.to_nat i) around)
    ∧ Size v' = (Size v + 1)%N
    ∧ r = begin v' +ₚ i
    ∧ (∀ value, args = FromCopy value →
         Insert v (begin v +ₚ i) value h = Some ((v', r), h'))
    ∧ (∀ value, args = FromMove value →
         Insert_move v (begin v +ₚ i) value h = Some ((v', r), h')).
Proof.
  intros Hv Hfw Hsrc Hi Hfit around. destruct v as [[p c] s].
  unfold Size, Capacity, RawMemory_Capacity, begin, GetAddress in *.
  cbn [data_ size_ buffer_ capacity_] in *.
  pose proof Hv as (Hb & Hs & Hle & Hc). cbn [data_ size_ buffer_ capacity_] in *.
  assert (Hins : ∀ res,
    Emplace (mkVector (mkRawMemory p c) s) (p +ₚ i) args h = res →
    (∀ value, args = FromCopy value →
       Insert (mkVector (mkRawMemory p c) s) (p +ₚ i) value h = res)
    ∧ (∀ value, args = FromMove value →
         Insert_move (mkVector (mkRawMemory p c) s) (p +ₚ i) value h = res)).
  { intros res <-. split; by intros value ->. }
  destruct (N.eqb_spec s c) as [->|Hne]; subst around.
  - assert (Hva : is_vector ha (mkVector (mkRawMemory p c) c) es).
    { eapply is_vector_frame; [|exact Hv]. by eapply forward_args_block_ne. }
    rewrite <- (take_drop (N.to_nat i) es) in Hva.
    destruct (Emplace_grow _ _ _ _ _ _ _ _ _ i Hfw Hva) as [Hrun Hv'];
      [len|done|by apply Hfit|].
    eexists _, _, _. split; [exact Hrun|]. split; [done|].
    split; [done|]. split; [done|]. by apply Hins.
  - destruct (Emplace_in_place _ _ _ _ _ _ _ _ i Hfw Hsrc Hv Hi) as [Hrun Hv'];
      [lia|].
    eexists _, _, _. split; [exact Hrun|]. split; [done|].
    split; [done|]. split; [done|]. by apply Hins.
Qed.

End proofs.

(** * The methods on the example states *)

(** A state given in full holds the elements it shows. *)
Ltac holds :=
  split_and!; [reflexivity | reflexivity | apply N.leb_le; reflexivity | reflexivity].

Lemma PopBack_never_fails_witness :
  ∃ v' h',
    PopBack ints ints_heap = Some (v', h')
    ∧ is_vector h' v' [1; 2]%Z ∧ Size v' = 2%N.
Proof.
  destruct (PopBack_never_fails ints_heap ints [1; 2; 3]%Z)
    as (v' & h' & Hrun & Hv' & Hs & _); [holds|].
  exists v', h'. split; [exact Hrun|]. split; [exact Hv'|exact Hs].
Defined.

Lemma RawMemory_plus_accepts_one_past_end_witness :
  RawMemory_plus (data_ ints) 4 ints_heap = Some (Ptr 7 4, ints_heap)
  ∧ @RawMemory_index Z (data_ ints) 4 ints_heap = None.
Proof.
  destruct (RawMemory_plus_accepts_one_past_end ints_heap (data_ ints) 4)
    as (Hplus & _ & Hindex & _); [apply N.leb_le; reflexivity|].
  split; [exact Hplus|exact Hindex].
Defined.


(** [Reserve(2^62 + 1)] on a [Vector<int>] is a request that does not fit:
    the byte count wraps around to 4, the size of one element. *)
Example request_that_wraps :
  ¬ fits (T := Z) (2 ^ 62 + 1) ∧ requested_slots (T := Z) (2 ^ 62 + 1) = 1%N.
Proof. split; [intros Hfits; vm_compute in Hfits; discriminate Hfits|reflexivity]. Qed.


Lemma append_at_capacity_doubles_witness :
  ∃ v' r h',
    EmplaceBack full_ints (FromArgs 4%Z) full_ints_heap = Some ((v', r), h')
    ∧ is_vector h' v' [1; 2; 3; 4]%Z ∧ Capacity v' = 6%N ∧ Size v' = 4%N.
Proof.
  destruct (append_at_capacity_doubles full_ints_heap full_ints [1; 2; 3]%Z
              (FromArgs 4%Z) 4%Z full_ints_heap)
    as ((v' & r & h' & Hrun & Hv' & Hc & Hs & _) & _);
    [holds|reflexivity|reflexivity|reflexivity|holds|].
  exists v', r, h'. split; [exact Hrun|]. split; [exact Hv'|].
  split; [exact Hc|exact Hs].
Defined.

(** [v.PushBack(std::move(v[0]))] and [v.EmplaceBack(std::move(v[0]))] on
    a full vector of two pointers: the capacity doubles and the length
    grows by one, but the first element arrives in the new block as a
    null pointer, not as the pointer to 1 it was. *)
Lemma append_of_moved_own_element_loses_it :
  let v' : Vector :=
    {| data_ := {| buffer_ := Ptr 8 0; capacity_ := 4 |}; size_ := 3 |} in
  let h' : heap (option Z) :=
    {[ 8%N := [Some None; Some (Some 2); Some (Some 1); None]%Z ]} in
  is_vector full_pointers_heap full_pointers [Some 1; Some 2]%Z
  ∧ Size full_pointers = Capacity full_pointers
  ∧ PushBack_move full_pointers (begin full_pointers +ₚ 0) full_pointers_heap
    = Some (v', h')
  ∧ EmplaceBack full_pointers (FromMove (begin full_pointers +ₚ 0))
      full_pointers_heap
    = Some ((v', Ptr 8 2), h')
  ∧ is_vector h' v' [None; Some 2; Some 1]%Z
  ∧ ¬ is_vector h' v' [Some 1; Some 2; Some 1]%Z.
Proof.
  intros v' h'. split; [holds|]. split; [reflexivity|].
  split; [vm_compute; reflexivity|]. split; [vm_compute; reflexivity|].
  split; [holds|]. intros (Hb & _). vm_compute in Hb. discriminate Hb.
Qed.

Lemma Erase_preserves_order_witness :
  ∃ v' r h',
    Erase ints (begin ints +ₚ 1) ints_heap = Some ((v', r), h')
    ∧ is_vector h' v' [1; 3]%Z ∧ Size v' = 2%N ∧ Capacity v' = 4%N.
Proof.
  destruct (Erase_preserves_order ints_heap ints [1; 2; 3]%Z 1)
    as (v' & r & h' & Hrun & Hv' & Hs & Hd & _); [holds|reflexivity|].
  exists v', r, h'. split; [exact Hrun|]. split; [exact Hv'|].
  split; [exact Hs|]. unfold Capacity. by rewrite Hd.
Defined.

Lemma Erase_returns_position_witness :
  ∃ v' r h',
    Erase ints (begin ints +ₚ 1) ints_heap = Some ((v', r), h')
    ∧ r = begin v' +ₚ 1 ∧ load r h' = Some (3%Z, h').
Proof.
  destruct (Erase_returns_position ints_heap ints [1; 2; 3]%Z 1)
    as (v' & r & h' & Hrun & Hr & Hnext & _); [holds|reflexivity|].
  exists v', r, h'. split; [exact Hrun|]. split; [exact Hr|].
  apply Hnext. reflexivity.
Defined.

Lemma copy_assignment_within_capacity_witness :
  ∃ v' h',
    Vector_assign 1 2 names other_names names_heap = Some (v', h')
    ∧ is_vector h' v' ["eve"]%string ∧ Size v' = 1%N ∧ data_ v' = data_ names
    ∧ is_vector h' other_names ["eve"]%string.
Proof.
  destruct (copy_assignment_within_capacity names_heap 1 2 names other_names
              ["ann"; "bob"]%string ["eve"]%string)
    as ((v' & h' & Hrun & Hv' & Hs & Hd & Ho & _) & _);
    [lia|holds|holds|intros b o o' [= <- <-] [=]|apply N.leb_le; reflexivity|].
  exists v', h'. split; [exact Hrun|]. split; [exact Hv'|].
  split; [exact Hs|]. split; [exact Hd|exact Ho].
Defined.

Lemma client_program_runs : run client_program client_start = Some client_world.
Proof. vm_compute. reflexivity. Qed.

Lemma length_within_capacity_invariant_witness :
  reachable client_world
  ∧ length_within_capacity client_world
  ∧ ∀ c w', exec c client_world = Some w' → length_within_capacity w'.
Proof.
  assert (Hreach : reachable client_world).
  { apply (run_reachable client_program client_start); [apply reachable_start|].
    vm_compute. reflexivity. }
  destruct (length_within_capacity_invariant client_world) as [Hall Hstep].
  pose proof (Hall Hreach) as Hinv.
  assert (Hfields : size_t_fields client_world).
  { apply in_bounds_world, reachable_in_bounds, Hreach. }
  split; [exact Hreach|]. split; [exact Hinv|].
  intros c w' Hexec. exact (proj1 (Hstep Hfields Hinv c w' Hexec)).
Defined.

Lemma Emplace_moves_last_element_twice_witness :
  ∃ v' r h',
    Emplace pointers (begin pointers +ₚ 0) (FromArgs (Some 9%Z)) pointers_heap
    = Some ((v', r), h')
    ∧ is_vector h' v' [Some 9; Some 1; None]%Z
    ∧ ¬ is_vector h' v' [Some 9; Some 1; Some 2]%Z.
Proof.
  destruct (Emplace_moves_last_element_twice pointers_heap pointers
              [Some 1; Some 2]%Z (FromArgs (Some 9%Z)) (Some 9%Z) pointers_heap 0)
    as (v' & r & h' & Hrun & Hv' & _);
    [holds|reflexivity|intros src [=]|apply N.leb_le; reflexivity|intros [=]|].
  exists v', r, h'. split; [exact Hrun|]. split; [exact Hv'|].
  intros Hkept. destruct Hv' as (Hb & _), Hkept as (Hb' & _).
  rewrite Hb in Hb'. vm_compute in Hb'. discriminate Hb'.
Defined.

(** The same call on the example state, run: the pointer to 2 is lost. *)
Example Emplace_loses_last_pointer :
  Emplace pointers (begin pointers +ₚ 0) (FromArgs (Some 9%Z)) pointers_heap
  = Some ((mkVector (mkRawMemory (Ptr 7 0) 4) 3, Ptr 7 0),
          {[ 7%N := [Some (Some 9); Some (Some 1); Some None; None]%Z ]}).
Proof. vm_compute. reflexivity. Qed.

(** [v.Insert(v.begin(), v[2])] on a vector of [int] with room left: the
    reference is read after the elements have been shifted. *)
Example Insert_of_own_element :
  Insert ints (begin ints +ₚ 0) (begin ints +ₚ 2) ints_heap
  = Some ((mkVector (mkRawMemory (Ptr 7 0) 4) 4, Ptr 7 0),
          {[ 7%N := [Some 2; Some 1; Some 2; Some 3]%Z ]}).
Proof. vm_compute. reflexivity. Qed.

(** * Further properties of the two classes *)

Section further.

Context `{ElementType T}.

Implicit Types (h : heap T) (p q : pointer) (b : N) (o n : nat)
  (cells pre post : list (slot T)) (x y : T) (xs ys es : list T)
  (v : Vector) (args : @ctor_args T).

(** ** [RawMemory] *)

Lemma delete_fresh_insert h cells : delete (fresh (dom h)) (<[fresh (dom h) := cells]> h) = h.
Proof. rewrite delete_insert_eq. apply delete_id, fresh_block. Qed.

(** X1. [RawMemory(n)], for a request that fits ([n * sizeof(T)] is a
    [size_t]), followed by [~RawMemory()] gives back the heap it started
    from.  In between the object owns a block of [n] raw slots that was not
    allocated before, or no block at all when [n = 0]; releasing the
    buffer a second time is a fault. *)
Theorem RawMemory_new_destroy_round_trip h (n : N) :
  fits n →
  ∃ rm h1,
    RawMemory_new n h = Some (rm, h1)
    ∧ RawMemory_Capacity rm = n
    ∧ block_of h1 (GetAddress rm) = Some (replicate (N.to_nat n) None)
    ∧ (n = 0%N ↔ GetAddress rm = nullptr)
    ∧ (∀ b, is_Some (h !! b) → GetAddress rm ≠ Ptr b 0 ∧ h1 !! b = h !! b)
    ∧ RawMemory_destroy rm h1 = Some (tt, h)
    ∧ (n ≠ 0%N → RawMemory_destroy rm h = None).
Proof.
  intros _. unfold RawMemory_Capacity, GetAddress, RawMemory_destroy.
  destruct (N.eqb_spec n 0) as [->|Hn].
  - exists (mkRawMemory nullptr 0), h. rewrite RawMemory_new_0. by split_and!.
  - eexists _, _. rewrite RawMemory_new_Some by done. cbn [buffer_ capacity_].
    pose proof (fresh_block h) as Hfresh.
    split_and!; try done.
    + simpl. by rewrite lookup_insert_eq.
    + intros b [cells Hb]. split; [intros [= <-]; congruence|].
      rewrite lookup_insert_ne; [done|intros <-; congruence].
    + simpl. rewrite lookup_insert_eq. by rewrite delete_fresh_insert.
    + intros _. simpl. by rewrite Hfresh.
Qed.

(** X2. Move assignment of a [RawMemory] hands the buffer and the capacity
    of [rhs] to [this] and leaves [rhs] without a buffer, but it does not
    release the block [this] owned: that block is still allocated
    afterwards and neither object refers to it.  Assignment of an object
    to itself changes nothing. *)
Theorem RawMemory_move_assign_keeps_old_block h (a c : N) (this rhs : RawMemory)
    b cells :
  a ≠ c →
  GetAddress this = Ptr b 0 → h !! b = Some cells → GetAddress rhs ≠ Ptr b 0 →
  (∃ this' rhs' h',
     RawMemory_move_assign a c this rhs h = Some ((this', rhs'), h')
     ∧ GetAddress this' = GetAddress rhs
     ∧ RawMemory_Capacity this' = RawMemory_Capacity rhs
     ∧ GetAddress rhs' = nullptr ∧ RawMemory_Capacity rhs' = 0%N
     ∧ h' !! b = Some cells
     ∧ GetAddress this' ≠ Ptr b 0 ∧ GetAddress rhs' ≠ Ptr b 0)
  ∧ RawMemory_move_assign a a this this h = Some ((this, this), h).
Proof.
  intros Hne Hthis Hb Hrhs. unfold RawMemory_move_assign.
  rewrite bool_decide_true by done. rewrite bool_decide_false by naive_solver.
  split; [|done]. eexists _, _, _. split; [done|]. by split_and!.
Qed.

(** ** Constructors and the destructor of [Vector] *)

(** X3. [Vector(n)], for a request that fits ([n * sizeof(T)] is a
    [size_t]), builds a vector of [n] value-initialised elements whose
    capacity is [n] too, in a block that was not allocated before; the
    blocks that were are left as they are.  [Vector(0)] allocates
    nothing. *)
Theorem sized_constructor h (n : N) :
  fits n →
  ∃ v h',
    Vector_sized n h = Some (v, h')
    ∧ is_vector h' v (replicate (N.to_nat n) value_init)
    ∧ Size v = n ∧ Capacity v = n
    ∧ (n = 0%N → h' = h ∧ begin v = nullptr)
    ∧ (∀ b cells, h !! b = Some cells → h' !! b = Some cells ∧ begin v ≠ Ptr b 0).
Proof.
  intros Hn%fits_size_t. destruct (Vector_sized_spec h n Hn) as [Hrun Hv].
  eexists _, _. split; [exact Hrun|]. split; [exact Hv|].
  unfold Size, Capacity, RawMemory_Capacity, begin, GetAddress.
  cbn [data_ size_ buffer_ capacity_]. split_and!; try done.
  - by intros ->.
  - intros b cells Hb. unfold new_buffer. destruct (n =? 0)%N; [done|]. simpl.
    pose proof (fresh_block h). split; [|intros [= <-]; congruence].
    rewrite lookup_insert_ne; [done|intros <-; congruence].
Qed.

(** X4. The copy constructor builds a vector with the elements of [other],
    in order, in a block of its own whose capacity is the length of
    [other], not its capacity; [other] and every block allocated before
    are left as they are. *)
Theorem copy_constructor h (other : Vector) es :
  is_vector h other es →
  ∃ v h',
    Vector_copy other h = Some (v, h')
    ∧ is_vector h' v es ∧ is_vector h' other es
    ∧ Size v = Size other ∧ Capacity v = Size other
    ∧ separate (begin other) (begin v)
    ∧ (∀ b cells, h !! b = Some cells → h' !! b = Some cells ∧ begin v ≠ Ptr b 0).
Proof.
  intros Hv. destruct other as [[p c] s].
  destruct (Vector_copy_spec _ _ _ _ _ Hv) as (Hrun & Hv' & Hsep).
  eexists _, _. split; [exact Hrun|]. split; [exact Hv'|].
  unfold Size, Capacity, RawMemory_Capacity, begin, GetAddress.
  cbn [data_ size_ buffer_ capacity_].
  assert (Hkeep : ∀ b cells, h !! b = Some cells →
            set_block (new_buffer h s) (layout es s) h !! b = Some cells
            ∧ new_buffer h s ≠ Ptr b 0).
  { intros b cells Hb. unfold new_buffer. destruct (s =? 0)%N; [done|]. simpl.
    pose proof (fresh_block h). split; [|intros [= <-]; congruence].
    rewrite lookup_insert_ne; [done|intros <-; congruence]. }
  split_and!; try done.
  eapply is_vector_frame; [|exact Hv]. cbn [data_ buffer_].
  by apply block_of_set_block_ne, separate_sym.
Qed.

(** X5. The move constructor hands the block, the length and the capacity
    of [other] to the new vector without touching the heap, and leaves
    [other] an empty vector of capacity 0 that owns no block: destroying
    what is left of [other] leaves the heap, and so the new vector, as it
    is, and destroying both objects releases the block once, as
    destroying [other] alone would have. *)
Theorem move_constructor h (other : Vector) es :
  is_vector h other es →
  ∃ v other',
    Vector_move other = (v, other')
    ∧ is_vector h v es ∧ begin v = begin other
    ∧ Size v = Size other ∧ Capacity v = Capacity other
    ∧ is_vector h other' [] ∧ begin other' = nullptr
    ∧ Size other' = 0%N ∧ Capacity other' = 0%N
    ∧ Vector_destroy other' h = Some (tt, h)
    ∧ (Vector_destroy other';; Vector_destroy v) h = Vector_destroy other h
    ∧ is_Some (Vector_destroy other h).
Proof.
  intros Hv. destruct other as [[p c] s]. eexists _, _. split; [done|].
  cbn [data_ size_ buffer_ capacity_]. split_and!; try done.
  by rewrite (Vector_destroy_spec _ _ _ _ _ Hv).
Qed.

(** X6. The destructor succeeds on every vector, ends the life of its
    elements and releases its block, and nothing else: the other blocks
    are as before.  A copy that is constructed and then destroyed leaves
    the heap exactly as it was. *)
Theorem destructor_releases_block h v es :
  is_vector h v es →
  ∃ h',
    Vector_destroy v h = Some (tt, h')
    ∧ (∀ b, begin v = Ptr b 0 → h' !! b = None)
    ∧ (∀ b, begin v ≠ Ptr b 0 → h' !! b = h !! b)
    ∧ (copy ← Vector_copy v; Vector_destroy copy) h = Some (tt, h).
Proof.
  intros Hv. destruct v as [[p c] s].
  exists (free_block p h). rewrite (Vector_destroy_spec _ _ _ _ _ Hv).
  unfold begin, GetAddress. cbn [data_ buffer_]. split_and!; try done.
  - intros b ->. simpl. apply lookup_delete_eq.
  - intros b Hne. destruct p as [|b' [|o]]; simpl; try done.
    rewrite lookup_delete_ne; [done|intros <-; congruence].
  - destruct (Vector_copy_spec _ _ _ _ _ Hv) as (Hrun & Hv' & _).
    rewrite (bind_Some _ _ _ _ _ Hrun), (Vector_destroy_spec _ _ _ _ _ Hv').
    do 2 f_equal. unfold new_buffer. destruct (s =? 0)%N; [done|]. simpl.
    apply delete_fresh_insert.
Qed.


(** ** Exchange of two vectors *)

(** X7. [Swap] exchanges what two vectors hold without touching the heap,
    and a second [Swap] undoes the first.  Move assignment is a [Swap]:
    after [a = std::move(b)] the vector [a] holds the elements of [b], and
    [b] is not emptied but holds the elements [a] had; a vector
    move-assigned to itself is unchanged. *)
Theorem Swap_exchanges h (a c : Vector) ea ec :
  is_vector h a ea → is_vector h c ec →
  ∃ a' c',
    Swap a c = (a', c')
    ∧ is_vector h a' ec ∧ is_vector h c' ea
    ∧ begin a' = begin c ∧ begin c' = begin a
    ∧ Capacity a' = Capacity c ∧ Capacity c' = Capacity a
    ∧ Swap a' c' = (a, c)
    ∧ Vector_move_assign a c = (a', c')
    ∧ Vector_move_assign a a = (a, a).
Proof.
  intros Ha Hc. destruct a as [[pa ca] sa], c as [[pc cc] sc].
  eexists _, _. split; [done|]. by split_and!.
Qed.

(** ** Element access *)

(** X8. [operator[]] on a vector of [n] elements checks [index < n]: below
    [n] it returns the address [begin() + index], where the element of
    that index is read; from [n] on the assertion fails, also for
    indices within the capacity. *)
Theorem index_within_size h v es (i : N) :
  is_vector h v es →
  ((i < Size v)%N →
     ∃ x, es !! N.to_nat i = Some x
          ∧ Vector_index v i h = Some (begin v +ₚ i, h)
          ∧ load (begin v +ₚ i) h = Some (x, h))
  ∧ ((Size v ≤ i)%N → Vector_index v i h = None).
Proof.
  intros Hv. pose proof Hv as (Hb & Hs & Hle & Hc). unfold Size. split.
  - intros Hi. unfold Vector_index, RawMemory_index, begin, GetAddress.
    destruct (lookup_lt_is_Some_2 es (N.to_nat i)) as [x Hx]; [lia|].
    exists x. split; [done|]. split.
    + replace (i <? size_ v)%N with true by (symmetry; apply N.ltb_lt; lia).
      by replace (i <? capacity_ (data_ v))%N with true
        by (symmetry; apply N.ltb_lt; lia).
    + rewrite <- (take_drop_middle _ _ _ Hx) in Hb.
      unfold layout in Hb. rewrite fmap_app, fmap_cons, <- app_assoc in Hb.
      simpl in Hb. eapply load_at; [exact Hb|]. rewrite length_fmap, length_take.
      apply lookup_lt_Some in Hx. lia.
  - intros Hi. unfold Vector_index.
    by replace (i <? size_ v)%N with false by (symmetry; apply N.ltb_ge; lia).
Qed.

(** X9. The iterators of a vector of [n] elements: [end() - begin()] is
    [n], the element of index [i] is read at [begin() + i], nothing can be
    read at [end()], the two are equal exactly when the vector is empty,
    and the [const] iterators are the same addresses. *)
Theorem iterator_range h v es :
  is_vector h v es →
  ptr_diff (end_ v) (begin v) = Some (length es)
  ∧ ptr_le (begin v) (end_ v) = true
  ∧ (∀ i x, es !! i = Some x → load (begin v +ₚ N.of_nat i) h = Some (x, h))
  ∧ load (end_ v) h = None
  ∧ (begin v = end_ v ↔ es = [])
  ∧ cbegin v = begin v ∧ cend v = end_ v.
Proof.
  intros Hv. pose proof Hv as (Hb & Hs & Hle & Hc).
  assert (Hread : ∀ i x, es !! i = Some x →
            load (begin v +ₚ N.of_nat i) h = Some (x, h)).
  { intros i x Hx. rewrite <- (take_drop_middle _ _ _ Hx) in Hb.
    unfold layout in Hb. rewrite fmap_app, fmap_cons, <- app_assoc in Hb.
    simpl in Hb. eapply load_at; [exact Hb|]. rewrite length_fmap, length_take.
    apply lookup_lt_Some in Hx. lia. }
  unfold begin, end_, cbegin, cend, GetAddress in *. rewrite Hs.
  destruct (block_of_cases _ _ _ Hb) as [[Hp Hnil]|(b & Hp & Hb0)]; rewrite Hp in *.
  - assert (es = []) as ->.
    { destruct es; [done|]. by rewrite layout_take_drop with (k := 0) in Hnil. }
    by split_and!.
  - unfold ptr_add. rewrite Nat2N.id. simpl.
    rewrite !bool_decide_true by lia. split_and!; try done.
    + f_equal. lia.
    + rewrite Hb0. unfold layout. rewrite lookup_app_r by len.
      rewrite length_fmap, Nat.sub_diag.
      by destruct (N.to_nat (capacity_ (data_ v)) - length es).
    + split; [intros [= Hn]|intros ->; done]. by destruct es.
Qed.

(** ** Copy assignment that needs a new block *)

(** X10. Copy assignment [a = c] between two distinct vectors where [c]
    has more elements than [a] has capacity: [a] ends up with the elements
    of [c] in a new block whose capacity is the length of [c], the block
    [a] had is released, and [c] is as before. *)
Theorem copy_assignment_beyond_capacity h (a c : N) va vc ea ec :
  a ≠ c →
  is_vector h va ea → is_vector h vc ec →
  separate (begin vc) (begin va) →
  (Capacity va < Size vc)%N →
  ∃ va' h',
    Vector_assign a c va vc h = Some (va', h')
    ∧ is_vector h' va' ec ∧ is_vector h' vc ec
    ∧ Size va' = Size vc ∧ Capacity va' = Size vc
    ∧ separate (begin vc) (begin va')
    ∧ (∀ b, begin va = Ptr b 0 → h' !! b = None)
    ∧ (∀ b cells, h !! b = Some cells → begin va ≠ Ptr b 0 →
         h' !! b = Some cells ∧ begin va' ≠ Ptr b 0).
Proof.
  intros Hne Ha Hc Hsep Hbig. destruct va as [[pt ct] st], vc as [[po co] so].
  unfold Capacity, Size, RawMemory_Capacity, begin, GetAddress in *.
  cbn [data_ size_ buffer_ capacity_] in *.
  destruct (Vector_assign_realloc _ _ _ _ _ _ _ _ _ _ _ Hne Ha Hc Hsep Hbig)
    as (Hrun & Ha' & Hc').
  eexists _, _. split; [exact Hrun|]. split; [exact Ha'|]. split; [exact Hc'|].
  pose proof (fresh_block h) as Hfresh. pose proof Hc as (Hbc & _).
  cbn [data_ buffer_] in Hbc. split_and!; try done.
  - by eapply separate_fresh.
  - intros b ->. simpl. apply lookup_delete_eq.
  - intros b cells Hb Hpt. split; [|intros [= <-]; congruence].
    assert (fresh (dom h) ≠ b) by (intros <-; congruence).
    destruct pt as [|b' [|o]]; simpl; rewrite ?lookup_delete_ne, ?lookup_insert_ne;
      try done. intros <-. congruence.
Qed.

(** ** Appends that find room *)

Lemma dom_forward_args args h x ha :
  forward_args args h = Some (x, ha) → dom ha = dom h.
Proof.
  intros Hfw. apply set_eq. intros b. rewrite !elem_of_dom.
  pose proof (forward_args_shape _ _ _ _ b Hfw) as Hshape.
  destruct (ha !! b), (h !! b); simpl in Hshape; try done; by split.
Qed.

Lemma dom_set_block h p cells cells' :
  block_of h p = Some cells → dom (set_block p cells' h) = dom h.
Proof.
  intros Hb. destruct (block_of_cases _ _ _ Hb) as [[-> _]|(b & -> & Hb0)]; [done|].
  simpl. rewrite dom_insert_L. apply elem_of_dom_2 in Hb0.
  apply subseteq_union_1_L. by apply singleton_subseteq_l.
Qed.

(** X11. An append on a vector with [size_ < Capacity()] constructs the
    new element in the first raw slot of the block the vector has: the
    vector keeps its block and capacity, no block is allocated or
    released, and the old elements stay where they are.  [EmplaceBack]
    returns the old [end()], where the new element is read.  This holds
    for [EmplaceBack] and both overloads of [PushBack]. *)
Theorem append_with_room h v es args x ha :
  is_vector h v es →
  (Size v < Capacity v)%N →
  forward_args args h = Some (x, ha) → is_vector ha v es →
  (∃ v' r h',
      EmplaceBack v args h = Some ((v', r), h')
      ∧ is_vector h' v' (es ++ [x])
      ∧ data_ v' = data_ v ∧ Size v' = (Size v + 1)%N
      ∧ r = end_ v ∧ load r h' = Some (x, h')
      ∧ dom h' = dom h)
  ∧ (∀ value, args = FromCopy value →
      ∃ v' h',
        PushBack v value h = Some (v', h')
        ∧ is_vector h' v' (es ++ [x])
        ∧ data_ v' = data_ v ∧ Size v' = (Size v + 1)%N
        ∧ dom h' = dom h)
  ∧ (∀ value, args = FromMove value →
      ∃ v' h',
        PushBack_move v value h = Some (v', h')
        ∧ is_vector h' v' (es ++ [x])
        ∧ data_ v' = data_ v ∧ Size v' = (Size v + 1)%N
        ∧ dom h' = dom h).
Proof.
  intros Hv Hroom Hfw Hva. destruct v as [[p c] s].
  unfold Capacity, Size, RawMemory_Capacity, end_, GetAddress in *.
  cbn [data_ size_ buffer_ capacity_] in *.
  pose proof Hva as (Hba & Hsa & _). cbn [data_ size_ buffer_ capacity_] in Hba, Hsa.
  assert (Hdom : dom (set_block p (layout (es ++ [x]) c) ha) = dom h).
  { rewrite (dom_set_block _ _ _ _ Hba). by eapply dom_forward_args. }
  split_and!.
  - destruct (EmplaceBack_in_place _ _ _ _ _ _ _ _ Hfw Hva Hroom) as [Hrun Hv'].
    set (h' := set_block _ _ _) in *.
    eexists _, _, _. split; [exact Hrun|]. split_and!; try done.
    pose proof Hv' as (Hb' & _). cbn [data_ buffer_ capacity_] in Hb'.
    rewrite layout_snoc in Hb' by lia.
    eapply load_at; [exact Hb'|]. len.
  - intros value ->.
    destruct (PushBack_in_place _ _ _ _ _ _ _ _ Hfw Hva Hroom) as [Hrun Hv'].
    eexists _, _. by split; [exact Hrun|].
  - intros value ->.
    destruct (PushBack_move_in_place _ _ _ _ _ _ _ _ Hfw Hva Hroom) as [Hrun Hv'].
    eexists _, _. by split; [exact Hrun|].
Qed.

(** X12. [v.PushBack(v[i])]: appending a copy of an element of the vector
    itself is safe whether or not the vector grows, because the new
    element is copied from the reference before any element is relocated.
    The vector then holds its old elements followed by a copy of the
    element of index [i]. *)
Theorem PushBack_of_own_element h v es (i : N) x :
  is_vector h v es →
  es !! N.to_nat i = Some x →
  (Size v = Capacity v → (2 * Capacity v < size_modulus)%N) →
  ∃ v' h',
    (value ← Vector_index v i; PushBack v value) h = Some (v', h')
    ∧ is_vector h' v' (es ++ [x])
    ∧ Size v' = (Size v + 1)%N.
Proof.
  intros Hv Hx Hfit. pose proof Hv as (Hb & Hs & Hle & Hc).
  assert (Hi : (i < size_ v)%N) by (apply lookup_lt_Some in Hx; lia).
  assert (Hidx : Vector_index v i h = Some (begin v +ₚ i, h)).
  { unfold Vector_index, RawMemory_index, begin, GetAddress.
    replace (i <? size_ v)%N with true by (symmetry; apply N.ltb_lt; lia).
    by replace (i <? capacity_ (data_ v))%N with true
      by (symmetry; apply N.ltb_lt; lia). }
  assert (Hload : forward_args (FromCopy (begin v +ₚ i)) h = Some (x, h)).
  { simpl. rewrite <- (take_drop_middle _ _ _ Hx) in Hb.
    unfold layout in Hb. rewrite fmap_app, fmap_cons, <- app_assoc in Hb.
    simpl in Hb. eapply load_at; [exact Hb|]. rewrite length_fmap, length_take. lia. }
  rewrite (bind_Some _ _ _ _ _ Hidx).
  destruct v as [[p c] s]. unfold Capacity, Size, RawMemory_Capacity in *.
  cbn [data_ size_ buffer_ capacity_] in *.
  destruct (decide (s = c)) as [Heq|Hne].
  - destruct (PushBack_grow _ _ _ _ _ _ _ _ Hload Hv Heq) as [Hrun Hv'];
      [subst; by apply Hfit|].
    eexists _, _. by split; [exact Hrun|].
  - destruct (PushBack_in_place _ _ _ _ _ _ _ _ Hload Hv) as [Hrun Hv']; [lia|].
    eexists _, _. by split; [exact Hrun|].
Qed.

(** ** Positions out of range *)

(** X13. [Erase] asserts [begin() <= pos < end()] and [Emplace] (so
    [Insert]) asserts [begin() <= pos <= end()]: [Erase] at [end()] or
    beyond fails, in particular on an empty vector; [Emplace] beyond
    [end()] fails; and both fail for a position in a block that is not
    the vector's. *)
Theorem position_out_of_range h v es (i : N) args :
  is_vector h v es →
  ((Size v ≤ i)%N → Erase v (begin v +ₚ i) h = None)
  ∧ ((Size v < i)%N → (0 < Capacity v)%N → Emplace v (begin v +ₚ i) args h = None)
  ∧ (∀ b o, (∀ o', begin v ≠ Ptr b o') →
       Erase v (Ptr b o) h = None ∧ Emplace v (Ptr b o) args h = None).
Proof.
  intros Hv. pose proof Hv as (Hb & Hs & Hle & Hc).
  unfold Size, Capacity, RawMemory_Capacity. split_and!.
  - intros Hi. unfold Erase, begin, end_, GetAddress.
    apply bind_None. by rewrite ptr_lt_past_end, andb_false_r by lia.
  - intros Hi Hcap. unfold Emplace, begin, end_, GetAddress.
    destruct (block_of_cases _ _ _ Hb) as [[_ Hnil]|(b & -> & _)].
    { apply (f_equal length) in Hnil. rewrite length_layout in Hnil by lia.
      simpl in Hnil. lia. }
    apply bind_None. by rewrite ptr_le_past_end, andb_false_r by lia.
  - intros b o Hother. unfold Erase, Emplace, begin, end_, GetAddress in *.
    assert (ptr_le (buffer_ (data_ v)) (Ptr b o) = false) as Hle'.
    { destruct (buffer_ (data_ v)) as [|b' o']; [done|]. simpl.
      rewrite bool_decide_false; [done|]. intros ->. by eapply Hother. }
    split; apply bind_None; by rewrite Hle'.
Qed.

(** ** An append undone *)

(** X14. [EmplaceBack] followed by [PopBack] leaves the vector holding the
    elements it held before.  When the append found room, the vector and
    the heap are exactly as before; when it grew, the elements are in a
    new block of the doubled capacity. *)
Theorem EmplaceBack_then_PopBack h v es x :
  is_vector h v es →
  (Size v = Capacity v → (2 * Capacity v < size_modulus)%N) →
  ∃ v1 r h1 v2 h2,
    EmplaceBack v (FromArgs x) h = Some ((v1, r), h1)
    ∧ PopBack v1 h1 = Some (v2, h2)
    ∧ is_vector h2 v2 es
    ∧ Size v2 = Size v
    ∧ ((Size v < Capacity v)%N → v2 = v ∧ h2 = h)
    ∧ (Size v = Capacity v → Capacity v2 = N.max 1 (2 * Capacity v)).
Proof.
  intros Hv Hfit. destruct v as [[p c] s].
  unfold Capacity, Size, RawMemory_Capacity in *.
  cbn [data_ size_ buffer_ capacity_] in *.
  pose proof Hv as (Hb & Hs & Hle & Hc). cbn [data_ size_ buffer_ capacity_] in *.
  destruct (decide (s = c)) as [Heq|Hne].
  - destruct (EmplaceBack_grow h p c s es (FromArgs x) x h eq_refl Hv Heq)
      as [Hrun Hv1]; [by apply Hfit|].
    destruct (PopBack_nonempty _ _ _ _ _ _ Hv1) as [Hpop Hv2].
    eexists _, _, _, _, _. split; [exact Hrun|]. split; [exact Hpop|].
    split; [exact Hv2|]. cbn [data_ size_ buffer_ capacity_].
    split_and!; [lia|lia|done].
  - destruct (EmplaceBack_in_place h p c s es (FromArgs x) x h eq_refl Hv)
      as [Hrun Hv1]; [lia|].
    destruct (PopBack_nonempty _ _ _ _ _ _ Hv1) as [Hpop Hv2].
    eexists _, _, _, _, _. split; [exact Hrun|]. split; [exact Hpop|].
    split; [exact Hv2|]. cbn [data_ size_ buffer_ capacity_].
    split_and!; [lia| |done].
    intros _. split; [f_equal; lia|].
    rewrite set_block_set_block. by apply set_block_id.
Qed.

(** ** Loops of appends *)

Lemma EmplaceBack_each_with_room xs : ∀ h v es,
  is_vector h v es →
  (N.of_nat (length es + length xs) ≤ Capacity v)%N →
  ∃ v' h',
    EmplaceBack_each v xs h = Some (v', h')
    ∧ is_vector h' v' (es ++ xs)
    ∧ data_ v' = data_ v
    ∧ dom h' = dom h.
Proof.
  induction xs as [|x xs IH]; intros h v es Hv Hroom.
  - exists v, h. simpl. rewrite app_nil_r. by split_and!.
  - destruct v as [[p c] s]. unfold Capacity, RawMemory_Capacity in *.
    cbn [data_ capacity_] in *. simpl in Hroom.
    pose proof Hv as (Hb & Hs & _). cbn [data_ size_ buffer_ capacity_] in Hb, Hs.
    destruct (EmplaceBack_in_place h p c s es (FromArgs x) x h eq_refl Hv)
      as [Hrun Hv1]; [lia|].
    destruct (IH _ _ _ Hv1) as (v' & h' & Hrest & Hv' & Hd & Hdom).
    { cbn [data_ capacity_]. rewrite length_app. simpl. lia. }
    exists v', h'. cbn [EmplaceBack_each]. rewrite (bind_Some _ _ _ _ _ Hrun).
    split; [exact Hrest|]. rewrite <- app_assoc in Hv'. split; [exact Hv'|].
    split; [exact Hd|]. rewrite Hdom. by eapply dom_set_block.
Qed.

(** X15. After [Reserve(n)], for a request that fits ([n * sizeof(T)] is
    a [size_t]), appends that bring the length to at most [n] never
    reallocate: the loop returns a vector that holds the old elements
    followed by the appended ones, in the block [Reserve] left, and
    allocates or releases no block. *)
Theorem Reserve_then_appends h v es (n : N) xs :
  is_vector h v es → fits n →
  (N.of_nat (length es + length xs) ≤ n)%N →
  ∃ v1 h1 v2 h2,
    Reserve v n h = Some (v1, h1)
    ∧ EmplaceBack_each v1 xs h1 = Some (v2, h2)
    ∧ is_vector h2 v2 (es ++ xs)
    ∧ data_ v2 = data_ v1
    ∧ dom h2 = dom h1.
Proof.
  intros Hv Hn%fits_size_t Hroom.
  assert (∃ v1 h1, Reserve v n h = Some (v1, h1) ∧ is_vector h1 v1 es
                   ∧ (n ≤ Capacity v1)%N) as (v1 & h1 & Hres & Hv1 & Hcap).
  { destruct v as [[p c] s]. destruct (N.le_gt_cases n c) as [Hle|Hgt].
    - eexists _, _. rewrite Reserve_noop by done. by split_and!.
    - destruct (Reserve_grow _ _ _ _ _ _ Hv Hgt Hn) as [Hrun Hv'].
      eexists _, _. split; [exact Hrun|]. split; [exact Hv'|].
      unfold Capacity, RawMemory_Capacity. cbn [data_ capacity_]. lia. }
  destruct (EmplaceBack_each_with_room xs h1 v1 es Hv1) as (v2 & h2 & Hrun & Hv2 & Hd & Hdom);
    [lia|].
  by exists v1, h1, v2, h2.
Qed.

Lemma EmplaceBack_each_doubles xs : ∀ h v es,
  is_vector h v es → doubled v →
  (4 * N.of_nat (length es + length xs) ≤ size_modulus)%N →
  ∃ v' h',
    EmplaceBack_each v xs h = Some (v', h')
    ∧ is_vector h' v' (es ++ xs)
    ∧ doubled v'.
Proof.
  induction xs as [|x xs IH]; intros h v es Hv Hd Hlen.
  - exists v, h. simpl. rewrite app_nil_r. by split_and!.
  - destruct v as [[p c] s]. unfold doubled, Size, Capacity, RawMemory_Capacity in *.
    cbn [data_ size_ capacity_] in *. simpl in Hlen.
    pose proof Hv as (Hb & Hs & Hle & Hc). cbn [data_ size_ buffer_ capacity_] in *.
    assert (∃ v1 r h1, EmplaceBack (mkVector (mkRawMemory p c) s) (FromArgs x) h
                       = Some ((v1, r), h1)
              ∧ is_vector h1 v1 (es ++ [x])
              ∧ ∃ k : N, capacity_ (data_ v1) = (2 ^ k)%N
                         ∧ (capacity_ (data_ v1) < 2 * size_ v1)%N)
      as (v1 & r & h1 & Hrun & Hv1 & Hd1).
    { destruct (decide (s = c)) as [Heq|Hne].
      - destruct (EmplaceBack_grow h p c s es (FromArgs x) x h eq_refl Hv Heq)
          as [Hrun Hv1]; [lia|].
        eexists _, _, _. split; [exact Hrun|]. split; [exact Hv1|].
        cbn [data_ size_ capacity_]. subst c.
        destruct Hd as [[-> _]|(k & Hk & Hlt)].
        + exists 0%N. simpl. lia.
        + exists (k + 1)%N. rewrite N.pow_add_r, <- Hk. simpl. lia.
      - destruct (EmplaceBack_in_place h p c s es (FromArgs x) x h eq_refl Hv)
          as [Hrun Hv1]; [lia|].
        eexists _, _, _. split; [exact Hrun|]. split; [exact Hv1|].
        cbn [data_ size_ capacity_].
        destruct Hd as [[-> ->]|(k & Hk & Hlt)]; [done|]. exists k. lia. }
    destruct (IH h1 v1 (es ++ [x]) Hv1) as (v' & h' & Hrest & Hv' & Hd').
    { by right. }
    { rewrite length_app. simpl. lia. }
    exists v', h'. cbn [EmplaceBack_each]. rewrite (bind_Some _ _ _ _ _ Hrun).
    split; [exact Hrest|]. rewrite <- app_assoc in Hv'. by split.
Qed.

(** X16. Appending the elements [xs] one by one to a default-constructed
    vector gives a vector that holds [xs], in order, and whose capacity is
    a power of two smaller than twice the length: growth by doubling
    never leaves more than half of the block unused.  (The bound on the
    length keeps the doubled capacities within [size_t].) *)
Theorem appends_from_empty h xs :
  xs ≠ [] →
  (4 * N.of_nat (length xs) ≤ size_modulus)%N →
  ∃ v h',
    EmplaceBack_each Vector_default xs h = Some (v, h')
    ∧ is_vector h' v xs
    ∧ Size v = N.of_nat (length xs)
    ∧ (∃ k : N, Capacity v = (2 ^ k)%N)
    ∧ (Size v ≤ Capacity v < 2 * Size v)%N.
Proof.
  intros Hxs Hlen.
  destruct (EmplaceBack_each_doubles xs h Vector_default []) as (v & h' & Hrun & Hv & Hd).
  { apply Vector_default_is_vector. }
  { by left. }
  { done. }
  exists v, h'. split; [exact Hrun|]. split; [exact Hv|].
  pose proof Hv as (_ & Hs & Hle & _). unfold doubled, Size, Capacity, RawMemory_Capacity in *.
  simpl in Hs. split; [done|].
  destruct Hd as [[Hs0 _]|(k & Hk & Hlt)].
  - destruct xs; [done|]. simpl in Hs. lia.
  - split; [by exists k|]. lia.
Qed.

(** ** The position [Emplace] returns *)


(** ** Blocks and their owners *)

Lemma accounted_refl h p : accounted h p h p.
Proof.
  intros b Hb. destruct (decide (p = Ptr b 0)); [by left|by right].
Qed.

Lemma accounted_in_place h p cells : accounted h p (set_block p cells h) p.
Proof.
  intros b Hb. destruct (decide (p = Ptr b 0)) as [|Hne]; [by left|right].
  split; [|done]. destruct p as [|b' [|o]]; simpl in Hb; try done.
  rewrite lookup_insert_ne in Hb; [done|congruence].
Qed.

Lemma accounted_grow h p b0 cells :
  accounted h p (free_block p (<[b0 := cells]> h)) (Ptr b0 0).
Proof.
  intros b Hb. destruct (decide (b0 = b)) as [->|Hne]; [by left|right].
  destruct p as [|b' [|o]]; simpl in Hb.
  - rewrite lookup_insert_ne in Hb by done. by split.
  - destruct (decide (b' = b)) as [->|Hne'].
    + rewrite lookup_delete_eq in Hb. by destruct Hb.
    + rewrite lookup_delete_ne, lookup_insert_ne in Hb by done.
      split; [done|congruence].
  - rewrite lookup_insert_ne in Hb by done. by split.
Qed.

Lemma accounted_new_buffer h (n : N) cells :
  accounted h nullptr (set_block (new_buffer h n) cells h) (new_buffer h n).
Proof.
  intros b Hb. unfold new_buffer in *. destruct (n =? 0)%N; simpl in *.
  - by right.
  - destruct (decide (fresh (dom h) = b)) as [->|Hne]; [by left|right].
    rewrite lookup_insert_ne in Hb by done. by split.
Qed.

Lemma updated_accounted h p b0 h' v' :
  updated h p b0 h' v' → accounted h p h' (buffer_ (data_ v')).
Proof.
  intros [(cells & -> & ->)|(cells & -> & ->)].
  - apply accounted_in_place.
  - apply accounted_grow.
Qed.

Lemma PopBack_accounted h v es v' h' :
  is_vector h v es → PopBack v h = Some (v', h') →
  accounted h (buffer_ (data_ v)) h' (buffer_ (data_ v')).
Proof.
  intros Hv Hrun. destruct v as [[p c] s].
  destruct es as [|x es _] using rev_ind.
  - rewrite PopBack_empty in Hrun by done. simplify_eq. apply accounted_refl.
  - destruct (PopBack_nonempty _ _ _ _ _ _ Hv) as [Hrun' Hv'].
    rewrite Hrun' in Hrun. simplify_eq. apply accounted_in_place.
Qed.

Lemma Reserve_accounted h v es (n : N) v' h' :
  is_vector h v es → (n < size_modulus)%N →
  Reserve v n h = Some (v', h') →
  accounted h (buffer_ (data_ v)) h' (buffer_ (data_ v')).
Proof.
  intros Hv Hn Hrun. destruct v as [[p c] s].
  destruct (N.le_gt_cases n c) as [Hle|Hgt].
  - rewrite Reserve_noop in Hrun by done. simplify_eq. apply accounted_refl.
  - destruct (Reserve_grow _ _ _ _ _ _ Hv Hgt Hn) as [Hrun' Hv'].
    rewrite Hrun' in Hrun. simplify_eq. apply accounted_grow.
Qed.

Lemma Resize_accounted h v es (n : N) v' h' :
  is_vector h v es → (n < size_modulus)%N →
  Resize v n h = Some (v', h') →
  accounted h (buffer_ (data_ v)) h' (buffer_ (data_ v')).
Proof.
  intros Hv Hn Hrun. destruct v as [[p c] s].
  pose proof Hv as (_ & Hs & Hle & _). simpl in Hs, Hle.
  destruct (N.lt_ge_cases n s) as [Hlt|Hge].
  - destruct (Resize_shrink _ _ _ _ _ _ Hv Hlt) as [Hrun' Hv'].
    rewrite Hrun' in Hrun. simplify_eq. apply accounted_in_place.
  - destruct (N.le_gt_cases n c) as [Hfit|Hgrow].
    + destruct (Resize_in_place _ _ _ _ _ _ Hv Hge Hfit) as [Hrun' Hv'].
      rewrite Hrun' in Hrun. simplify_eq. apply accounted_in_place.
    + destruct (Resize_grow _ _ _ _ _ _ Hv Hgrow Hn) as [Hrun' Hv'].
      rewrite Hrun' in Hrun. simplify_eq. apply accounted_grow.
Qed.

Lemma Vector_assign_accounted h (a c : N) va vc ea ec va' h' :
  is_vector h va ea → is_vector h vc ec →
  (a ≠ c → separate (buffer_ (data_ vc)) (buffer_ (data_ va))) →
  Vector_assign a c va vc h = Some (va', h') →
  accounted h (buffer_ (data_ va)) h' (buffer_ (data_ va')).
Proof.
  intros Hva Hvc Hsep Hrun. destruct (decide (a = c)) as [->|Hne].
  - rewrite Vector_assign_self in Hrun. injection Hrun as <- <-.
    apply accounted_refl.
  - specialize (Hsep Hne). destruct va as [[pt ct] st], vc as [[po co] so].
    simpl in Hsep. destruct (decide (so ≤ ct)%N) as [Hfit|Hbig].
    + destruct (Vector_assign_fits _ _ _ _ _ _ _ _ _ _ _ Hne Hva Hvc Hsep Hfit)
        as (Hsome & _).
      rewrite Hrun in Hsome. injection Hsome as -> ->. apply accounted_in_place.
    + destruct (Vector_assign_realloc _ _ _ _ _ _ _ _ _ _ _ Hne Hva Hvc Hsep
                  ltac:(lia)) as (Hsome & _).
      rewrite Hrun in Hsome. injection Hsome as -> ->. apply accounted_grow.
Qed.

Lemma with_temporary_accounted h v es x (f : pointer → M Vector) v' h' :
  is_vector h v es →
  (∀ h1,
     is_vector (<[fresh (dom h) := [Some x]]> h) v es →
     separate (buffer_ (data_ v)) (Ptr (fresh (dom h)) 0) →
     f (Ptr (fresh (dom h)) 0) (<[fresh (dom h) := [Some x]]> h) = Some (v', h1) →
     ∃ es' cells,
       is_vector h1 v' es'
       ∧ updated (<[fresh (dom h) := cells]> h) (buffer_ (data_ v))
           (fresh (dom (<[fresh (dom h) := [Some x]]> h))) h1 v') →
  with_temporary x f h = Some (v', h') →
  accounted h (buffer_ (data_ v)) h' (buffer_ (data_ v')).
Proof.
  intros Hv Hf. rewrite with_temporary_run. cbv zeta.
  set (t := fresh (dom h)) in *.
  assert (Hsep : separate (buffer_ (data_ v)) (Ptr t 0)).
  { destruct Hv as (Hb & _). by eapply separate_fresh. }
  assert (Hvt : is_vector (<[t := [Some x]]> h) v es).
  { eapply is_vector_frame; [|exact Hv]. by apply block_of_insert_ne. }
  destruct (f (Ptr t 0) (<[t := [Some x]]> h)) as [[r h1]|] eqn:Hrun; [|done].
  destruct (h1 !! t) as [[|[y|] rest]|] eqn:Ht; try done.
  intros [= -> <-].
  destruct (Hf h1 Hvt Hsep eq_refl) as (es' & cells & Hv' & Hup).
  destruct (fresh_after_insert h t [Some x]) as [Hfresh Hne].
  destruct (temporary_updated _ _ _ _ _ _ _ (fresh_block h) Hsep Hne Hup)
    as (_ & Hup' & _).
  by eapply updated_accounted.
Qed.

Lemma CallPushBack_accounted h v es x v' h' :
  is_vector h v es →
  with_temporary x (PushBack v) h = Some (v', h') →
  accounted h (buffer_ (data_ v)) h' (buffer_ (data_ v')).
Proof.
  intros Hv. apply (with_temporary_accounted _ _ es); [done|]. intros h1 Hvt _ Hrun.
  destruct (PushBack_returns _ _ _ _ _ _ (forward_temporary_copy h _ x) Hvt)
    as [Hnone|(v1 & h2 & Hsome & Hv1 & Hup)]; [congruence|].
  rewrite Hrun in Hsome. injection Hsome as <- <-. eauto.
Qed.

Lemma CallPushBackMove_accounted h v es x v' h' :
  is_vector h v es →
  with_temporary x (PushBack_move v) h = Some (v', h') →
  accounted h (buffer_ (data_ v)) h' (buffer_ (data_ v')).
Proof.
  intros Hv. apply (with_temporary_accounted _ _ es); [done|]. intros h1 Hvt Hsep Hrun.
  assert (Hvm : is_vector (<[fresh (dom h) := [Some (moved x)]]> h) v es).
  { eapply is_vector_frame; [|exact Hv]. by apply block_of_insert_ne. }
  destruct (PushBack_move_returns _ _ _ _ _ _ (forward_temporary_move h _ x) Hvm)
    as [Hnone|(v1 & h2 & Hsome & Hv1 & Hup)]; [congruence|].
  rewrite Hrun in Hsome. injection Hsome as <- <-. eauto.
Qed.

Lemma CallEmplaceBack_accounted h v es x v' h' :
  is_vector h v es →
  ('(v1, _) ← EmplaceBack v (FromArgs x); mret v1) h = Some (v', h') →
  accounted h (buffer_ (data_ v)) h' (buffer_ (data_ v')).
Proof.
  intros Hv Hrun.
  destruct (bind_inv _ _ _ _ Hrun) as ([v1 r] & h1 & Hem & Hret).
  apply ret_inv in Hret as [[= ->] ->].
  destruct (EmplaceBack_returns h v es (FromArgs x) x h eq_refl Hv)
    as [Hnone|(v2 & r2 & h2 & Hsome & Hv2 & Hup)]; [congruence|].
  rewrite Hem in Hsome. injection Hsome as <- <- <-. by eapply updated_accounted.
Qed.

Lemma CallEmplace_accounted h v es (i : N) x v' h' :
  is_vector h v es →
  ('(v1, _) ← Emplace v (begin v +ₚ i) (FromArgs x); mret v1) h = Some (v', h') →
  accounted h (buffer_ (data_ v)) h' (buffer_ (data_ v')).
Proof.
  intros Hv Hrun.
  destruct (Emplace_result h v es (FromArgs x) x h i v' h' Hv eq_refl)
    as (es' & Hv' & Hup); [done|done|]. by eapply updated_accounted.
Qed.

Lemma CallInsert_accounted h v es (i : N) x v' h' :
  is_vector h v es →
  with_temporary x (λ value, '(v1, _) ← Insert v (begin v +ₚ i) value; mret v1) h
  = Some (v', h') →
  accounted h (buffer_ (data_ v)) h' (buffer_ (data_ v')).
Proof.
  intros Hv. apply (with_temporary_accounted _ _ es); [done|]. intros h1 Hvt Hsep Hrun.
  unfold Insert in Hrun.
  destruct (Emplace_result _ _ _ _ _ _ _ _ _ Hvt (forward_temporary_copy h _ x)
              ltac:(by intros src [= <-]) Hrun) as (es' & Hv' & Hup).
  eauto.
Qed.

Lemma CallInsertMove_accounted h v es (i : N) x v' h' :
  is_vector h v es →
  with_temporary x (λ value, '(v1, _) ← Insert_move v (begin v +ₚ i) value; mret v1) h
  = Some (v', h') →
  accounted h (buffer_ (data_ v)) h' (buffer_ (data_ v')).
Proof.
  intros Hv. apply (with_temporary_accounted _ _ es); [done|]. intros h1 Hvt Hsep Hrun.
  unfold Insert_move in Hrun.
  destruct (Emplace_result _ _ _ _ _ _ _ _ _ Hvt (forward_temporary_move h _ x)
              ltac:(by intros src [= <-]) Hrun) as (es' & Hv' & Hup).
  eauto.
Qed.

Lemma CallErase_accounted h v es (i : N) v' h' :
  is_vector h v es →
  ('(v1, _) ← Erase v (begin v +ₚ i); mret v1) h = Some (v', h') →
  accounted h (buffer_ (data_ v)) h' (buffer_ (data_ v')).
Proof.
  intros Hv Hrun.
  destruct (bind_inv _ _ _ _ Hrun) as ([v1 r] & h1 & Hem & Hret).
  apply ret_inv in Hret as [[= ->] ->].
  destruct (Erase_returns h v es i Hv)
    as [Hnone|(v2 & r2 & h2 & es' & Hsome & Hv2 & Hup)]; [congruence|].
  rewrite Hem in Hsome. injection Hsome as <- <- <-. by eapply updated_accounted.
Qed.

Lemma CallPushBackElement_accounted h v es vo eo (j : N) v' h' :
  is_vector h v es → is_vector h vo eo →
  (value ← Vector_index vo j; PushBack v value) h = Some (v', h') →
  accounted h (buffer_ (data_ v)) h' (buffer_ (data_ v')).
Proof.
  intros Hv Hvo Hrun.
  destruct (bind_inv _ _ _ _ Hrun) as (value & h1 & Hidx & Hpush).
  destruct (element_reference _ _ _ _ _ _ Hvo Hidx) as (-> & x & _ & Hload).
  destruct (PushBack_returns h v es value x h Hload Hv)
    as [Hnone|(v2 & h2 & Hsome & Hv2 & Hup)]; [congruence|].
  rewrite Hpush in Hsome. injection Hsome as <- <-. by eapply updated_accounted.
Qed.

Lemma on_vector_no_garbage (w w' : @world T) (a : N) (f : Vector → M Vector) :
  wf_world w → no_garbage w →
  (∀ v es v' h', vectors w !! a = Some v → is_vector (memory w) v es →
     f v (memory w) = Some (v', h') →
     accounted (memory w) (buffer_ (data_ v)) h' (buffer_ (data_ v'))) →
  on_vector a f w = Some w' → no_garbage w'.
Proof.
  intros Hw Hg Hf. unfold on_vector.
  destruct (vectors w !! a) as [v|] eqn:Ha; [|done]. simpl.
  destruct (f v (memory w)) as [[v' h']|] eqn:Hrun; [|done]. simpl.
  intros [= <-]. destruct (proj1 Hw _ _ Ha) as [es Hv].
  intros b Hb. cbn [vectors memory] in *.
  destruct (Hf _ _ _ _ eq_refl Hv Hrun b Hb) as [Hnew|[Hold Hne]].
  - exists a, v'. by rewrite lookup_insert_eq.
  - destruct (Hg b Hold) as (a2 & v2 & H2 & Hb2).
    exists a2, v2. split; [|done]. rewrite lookup_insert_ne; [done|].
    intros <-. congruence.
Qed.

Lemma declare_no_garbage (w w' : @world T) (a : N) (f : M Vector) :
  no_garbage w →
  (∀ v h', f (memory w) = Some (v, h') →
     accounted (memory w) nullptr h' (buffer_ (data_ v))) →
  declare a f w = Some w' → no_garbage w'.
Proof.
  intros Hg Hf. unfold declare. destruct (vectors w !! a) eqn:Ha; [done|].
  destruct (f (memory w)) as [[v h']|] eqn:Hrun; [|done]. simpl.
  intros [= <-] b Hb. cbn [vectors memory] in *.
  destruct (Hf _ _ eq_refl b Hb) as [Hnew|[Hold _]].
  - exists a, v. by rewrite lookup_insert_eq.
  - destruct (Hg b Hold) as (a2 & v2 & H2 & Hb2).
    exists a2, v2. split; [|done]. rewrite lookup_insert_ne; [done|].
    intros <-. congruence.
Qed.

Lemma exchange_no_garbage (w : @world T) (a o : N) va vo :
  no_garbage w → vectors w !! a = Some va → vectors w !! o = Some vo →
  no_garbage {| vectors := <[a := vo]> (<[o := va]> (vectors w));
                memory := memory w |}.
Proof.
  intros Hg Ha Ho b Hb. cbn [vectors memory] in *.
  destruct (Hg b Hb) as (a2 & v2 & H2 & Hb2).
  destruct (decide (a2 = a)) as [->|Hna].
  - exists o, va. assert (v2 = va) as -> by congruence. split; [|done].
    destruct (decide (a = o)) as [->|Hao].
    + rewrite lookup_insert_eq. congruence.
    + by rewrite lookup_insert_ne, lookup_insert_eq.
  - destruct (decide (a2 = o)) as [->|Hno].
    + exists a, vo. assert (v2 = vo) as -> by congruence.
      by rewrite lookup_insert_eq.
    + exists a2, v2. by rewrite !lookup_insert_ne.
Qed.

Lemma exec_no_garbage (w w' : @world T) (c : call) :
  wf_world w → no_garbage w → exec c w = Some w' → no_garbage w'.
Proof.
  intros Hw Hg. destruct c; cbn [exec].
  - apply declare_no_garbage; [done|]. intros v h' [= <- <-]. apply accounted_refl.
  - case_match eqn:Hn; [|done]. apply N.ltb_lt in Hn.
    apply declare_no_garbage; [done|]. intros v h' Hrun.
    destruct (Vector_sized_spec (memory w) n Hn) as [Hsome Hv].
    rewrite Hrun in Hsome. injection Hsome as -> ->. apply accounted_new_buffer.
  - destruct (vectors w !! o) as [[[po co] so]|] eqn:Ho; [|done]. simpl.
    destruct (proj1 Hw _ _ Ho) as [eo Hvo].
    apply declare_no_garbage; [done|]. intros v h' Hrun.
    destruct (Vector_copy_spec _ _ _ _ _ Hvo) as (Hsome & Hv & _).
    rewrite Hrun in Hsome. injection Hsome as -> ->. apply accounted_new_buffer.
  - destruct (vectors w !! o) as [[[po co] so]|] eqn:Ho; [|done].
    cbn [mbind option_bind Vector_move RawMemory_move data_ size_ buffer_ capacity_].
    unfold declare. cbn [vectors memory].
    destruct (<[o:=_]> (vectors w) !! a) eqn:Ha; [done|]. cbn.
    intros [= <-] b Hb. cbn [vectors memory] in *.
    apply lookup_insert_None in Ha as [Ha Hoa].
    destruct (Hg b Hb) as (a2 & v2 & H2 & Hb2).
    destruct (decide (a2 = o)) as [->|Hno].
    + exists a, (mkVector (mkRawMemory po co) so). rewrite lookup_insert_eq.
      split; [done|]. by simplify_eq.
    + exists a2, v2. split; [|done].
      rewrite !lookup_insert_ne; [done|congruence|congruence].
  - destruct (vectors w !! a) as [[[p c] s]|] eqn:Ha; [|done]. simpl.
    destruct (proj1 Hw _ _ Ha) as [es Hv].
    rewrite (Vector_destroy_spec _ _ _ _ _ Hv). simpl. intros [= <-] b Hb.
    cbn [vectors memory] in *.
    assert (is_Some (memory w !! b) ∧ p ≠ Ptr b 0) as [Hold Hne].
    { destruct p as [|b' [|o]]; simpl in Hb; try done.
      destruct (decide (b' = b)) as [->|Hne'].
      - rewrite lookup_delete_eq in Hb. by destruct Hb.
      - rewrite lookup_delete_ne in Hb by done. split; [done|congruence]. }
    destruct (Hg b Hold) as (a2 & v2 & H2 & Hb2).
    exists a2, v2. split; [|done]. rewrite lookup_delete_ne; [done|].
    intros <-. by simplify_eq.
  - case_match eqn:Hn; [|done]. apply N.ltb_lt in Hn.
    apply on_vector_no_garbage; try done. intros v es v' h' _ Hv.
    by eapply Reserve_accounted.
  - case_match eqn:Hn; [|done]. apply N.ltb_lt in Hn.
    apply on_vector_no_garbage; try done. intros v es v' h' _ Hv.
    by eapply Resize_accounted.
  - apply on_vector_no_garbage; try done. intros v es v' h' _ Hv.
    by eapply CallPushBack_accounted.
  - destruct (vectors w !! o) as [vo|] eqn:Ho; [|done]. simpl.
    destruct (proj1 Hw _ _ Ho) as [eo Hvo].
    apply on_vector_no_garbage; try done. intros v es v' h' _ Hv.
    by eapply CallPushBackElement_accounted.
  - apply on_vector_no_garbage; try done. intros v es v' h' _ Hv.
    by eapply CallPushBackMove_accounted.
  - apply on_vector_no_garbage; try done. intros v es v' h' _ Hv.
    by eapply PopBack_accounted.
  - apply on_vector_no_garbage; try done. intros v es v' h' _ Hv.
    by eapply CallEmplaceBack_accounted.
  - apply on_vector_no_garbage; try done. intros v es v' h' _ Hv.
    by eapply CallEmplace_accounted.
  - apply on_vector_no_garbage; try done. intros v es v' h' _ Hv.
    by eapply CallInsert_accounted.
  - apply on_vector_no_garbage; try done. intros v es v' h' _ Hv.
    by eapply CallInsertMove_accounted.
  - apply on_vector_no_garbage; try done. intros v es v' h' _ Hv.
    by eapply CallErase_accounted.
  - destruct (vectors w !! o) as [vo|] eqn:Ho; [|done]. simpl.
    destruct (proj1 Hw _ _ Ho) as [eo Hvo].
    apply on_vector_no_garbage; try done. intros v es v' h' Ha Hv.
    eapply Vector_assign_accounted; [done|done|].
    intros Hne. by apply (proj2 Hw o a _ _ ltac:(done) Ho Ha).
  - unfold on_vectors.
    destruct (vectors w !! a) as [[[pa ca] sa]|] eqn:Ha; [|done]. simpl.
    destruct (vectors w !! o) as [[[po co] so]|] eqn:Ho; [|done]. simpl.
    intros [= <-]. by apply exchange_no_garbage.
  - unfold on_vectors.
    destruct (vectors w !! a) as [[[pa ca] sa]|] eqn:Ha; [|done]. simpl.
    destruct (vectors w !! o) as [[[po co] so]|] eqn:Ho; [|done]. simpl.
    intros [= <-]. by apply exchange_no_garbage.
Qed.

Lemma run_no_garbage (cs : list call) : ∀ w w' : @world T,
  wf_world w → no_garbage w → run cs w = Some w' → wf_world w' ∧ no_garbage w'.
Proof.
  induction cs as [|c cs IH]; intros w w' Hw Hg; simpl.
  - by intros [= <-].
  - destruct (exec c w) as [w1|] eqn:Hexec; [|done]. simpl.
    apply IH; [by eapply exec_preserves|by eapply exec_no_garbage].
Qed.

(** X18. A program that starts with no vector and an empty heap never
    leaks and never leaves a dangling buffer: in every world it reaches,
    each allocated block is the buffer of an object, the buffer of each
    object is null or an allocated block, and no two objects share a
    block; so once every object has been destroyed the heap is empty
    again. *)
Theorem programs_do_not_leak (cs : list call) (w : @world T) :
  run cs {| vectors := ∅; memory := ∅ |} = Some w →
  no_garbage w ∧ no_dangling w
  ∧ (∀ a1 a2 v1 v2 b,
       vectors w !! a1 = Some v1 → vectors w !! a2 = Some v2 →
       begin v1 = Ptr b 0 → begin v2 = Ptr b 0 → a1 = a2)
  ∧ (vectors w = ∅ → memory w = ∅).
Proof.
  intros Hrun.
  destruct (run_no_garbage cs {| vectors := ∅; memory := ∅ |} w) as [Hw Hg].
  { split; simpl; intros *; by rewrite ?lookup_empty. }
  { intros b [cells Hb]. simpl in Hb. by rewrite lookup_empty in Hb. }
  { done. }
  split; [done|]. split_and!.
  - intros a v Ha. destruct (proj1 Hw _ _ Ha) as (es & Hb & _).
    destruct (block_of_cases _ _ _ Hb) as [[-> _]|(b & -> & Hb0)]; [by left|].
    right. exists b. by split.
  - intros a1 a2 v1 v2 b H1 H2 Hb1 Hb2. unfold begin, GetAddress in *.
    destruct (decide (a1 = a2)) as [|Hne]; [done|].
    by destruct (proj2 Hw _ _ _ _ Hne H1 H2 b 0 0 Hb1).
  - intros Hnone. apply map_empty. intros b.
    destruct (memory w !! b) as [cells|] eqn:Hb; [|done].
    destruct (Hg b) as (a & v & Ha & _); [by eexists|].
    rewrite Hnone, lookup_empty in Ha. done.
Qed.

(** ** Growth *)


(** X20. Growth invalidates the iterators and references into the
    vector: when [Reserve], with a request that fits, or an append on a
    full vector moves the elements to a new block, the old block is
    released, and reading through any address into it is a fault
    afterwards. *)
Theorem growth_invalidates_iterators h v es b :
  is_vector h v es → begin v = Ptr b 0 →
  (∀ n : N, (Capacity v < n)%N → fits n →
     ∃ v' h',
       Reserve v n h = Some (v', h')
       ∧ h' !! b = None ∧ begin v' ≠ begin v
       ∧ ∀ j : N, load (begin v +ₚ j) h' = None)
  ∧ (∀ x, Size v = Capacity v → (2 * Capacity v < size_modulus)%N →
     ∃ v' r h',
       EmplaceBack v (FromArgs x) h = Some ((v', r), h')
       ∧ h' !! b = None ∧ begin v' ≠ begin v
       ∧ ∀ j : N, load (begin v +ₚ j) h' = None).
Proof.
  intros Hv Hp. destruct v as [[p c] s].
  unfold Size, Capacity, RawMemory_Capacity, begin, GetAddress in *.
  cbn [data_ size_ buffer_ capacity_] in *. subst p.
  pose proof Hv as (Hb & _). cbn [data_ buffer_ capacity_] in Hb. simpl in Hb.
  assert (Hfresh : Ptr (fresh (dom h)) 0 ≠ Ptr b 0).
  { pose proof (fresh_block h). intros [= Heq]. congruence. }
  assert (Hgone : ∀ h' (j : N), h' !! b = None → load (Ptr b 0 +ₚ j) h' = None).
  { intros h' j Hnone. unfold load, ptr_add. simpl. by rewrite Hnone. }
  split.
  - intros n Hgt Hn%fits_size_t.
    destruct (Reserve_grow _ _ _ _ _ _ Hv Hgt Hn) as [Hrun _].
    eexists _, _. split; [exact Hrun|]. cbn [data_ buffer_].
    assert (free_block (Ptr b 0) (<[fresh (dom h) := layout es n]> h) !! b = None)
      by apply lookup_delete_eq.
    split_and!; [done|done|]. intros j. by apply Hgone.
  - intros x Hfull Hfit.
    destruct (EmplaceBack_grow h (Ptr b 0) c s es (FromArgs x) x h eq_refl Hv Hfull Hfit)
      as [Hrun _].
    eexists _, _, _. split; [exact Hrun|]. cbn [data_ buffer_].
    set (h' := free_block _ _).
    assert (h' !! b = None) by apply lookup_delete_eq.
    split_and!; [done|done|]. intros j. by apply Hgone.
Qed.

(** ** Copies *)

(** X21. A copy shares nothing with the vector it was made from: after
    the copy is appended to, the original holds its elements as before,
    and when the copy is destroyed the heap is exactly as it was before
    the copy was made. *)
Theorem copy_is_independent h v es x :
  is_vector h v es → (2 * Size v < size_modulus)%N →
  ∃ c h1 c' r h2,
    Vector_copy v h = Some (c, h1)
    ∧ EmplaceBack c (FromArgs x) h1 = Some ((c', r), h2)
    ∧ is_vector h2 c' (es ++ [x])
    ∧ is_vector h2 v es
    ∧ Vector_destroy c' h2 = Some (tt, h).
Proof.
  intros Hv Hfit. destruct v as [[p c] s]. unfold Size in Hfit. simpl in Hfit.
  pose proof Hv as (Hb & _). cbn [data_ buffer_ capacity_] in Hb.
  destruct (Vector_copy_spec _ _ _ _ _ Hv) as (Hcopy & Hvc & Hsep).
  set (q := new_buffer h s) in *. set (h1 := set_block q (layout es s) h) in *.
  destruct (EmplaceBack_grow h1 q s s es (FromArgs x) x h1 eq_refl Hvc eq_refl Hfit)
    as [Hrun Hv'].
  set (b2 := fresh (dom h1)) in *. set (c' := N.max 1 (2 * s)) in *.
  set (h2 := free_block q _) in *.
  eexists _, _, _, _, _. split; [exact Hcopy|]. split; [exact Hrun|].
  split; [exact Hv'|].
  assert (Hb1 : block_of h1 p = Some (layout es c) ∧ separate q p).
  { by apply (frame_new_buffer h s (layout es s) p). }
  destruct Hb1 as [Hb1 Hqp].
  assert (Hb2 : block_of h2 p = Some (layout es c)).
  { by apply (frame_grow h1 q b2 (layout (es ++ [x]) c') (fresh_block h1) p). }
  split.
  - eapply is_vector_frame; [|exact Hv]. cbn [data_ buffer_]. congruence.
  - rewrite (Vector_destroy_spec _ _ _ _ _ Hv'). do 2 f_equal.
    unfold h2, h1, q, new_buffer. simpl.
    destruct (N.eqb_spec s 0) as [->|Hs]; simpl.
    + apply delete_fresh_insert.
    + assert (Hne : b2 ≠ fresh (dom h)).
      { intros Heq. pose proof (fresh_block h1) as Hf. fold b2 in Hf.
        unfold h1, q, new_buffer in Hf.
        replace (s =? 0)%N with false in Hf by (symmetry; by apply N.eqb_neq).
        simpl in Hf. by rewrite Heq, lookup_insert_eq in Hf. }
      assert (Hnone : h !! b2 = None).
      { pose proof (fresh_block h1) as Hf. fold b2 in Hf.
        unfold h1, q, new_buffer in Hf.
        replace (s =? 0)%N with false in Hf by (symmetry; by apply N.eqb_neq).
        simpl in Hf. by rewrite lookup_insert_ne in Hf. }
      apply map_eq. intros k.
      destruct (decide (k = b2)) as [->|Hk2]; [by rewrite lookup_delete_eq|].
      rewrite lookup_delete_ne by done.
      destruct (decide (k = fresh (dom h))) as [->|Hk1].
      * rewrite lookup_delete_eq. symmetry. apply fresh_block.
      * by rewrite lookup_delete_ne, !lookup_insert_ne.
Qed.

(** ** [Insert] of an element of the vector itself *)

Lemma load_block h p cells (k : N) :
  block_of h p = Some cells →
  load (p +ₚ k) h
  = match cells !! N.to_nat k with
    | Some (Some x) => Some (x, h)
    | _ => None
    end.
Proof.
  intros Hb. destruct (block_of_cases _ _ _ Hb) as [[-> ->]|(b & -> & Hb0)]; [done|].
  unfold ptr_add, load. simpl. by rewrite Hb0.
Qed.

Lemma Insert_own_in_place h p c s es (i k : N) x :
  is_vector h (mkVector (mkRawMemory p c) s) es →
  (i ≤ s)%N → (s < c)%N →
  let lm := last_moved es in
  let room := (Some <$> take (N.to_nat i) lm) ++ None
                :: (Some <$> drop (N.to_nat i) lm)
                ++ replicate (N.to_nat c - S (length es)) None in
  room !! N.to_nat k = Some (Some x) →
  Insert (mkVector (mkRawMemory p c) s) (p +ₚ i) (p +ₚ k) h
  = Some ((mkVector (mkRawMemory p c) (s + 1), p +ₚ i),
          set_block p (layout (take (N.to_nat i) lm ++ x
                                 :: drop (N.to_nat i) lm) c) h).
Proof.
  intros Hv Hi Hlt lm room Hk.
  pose proof (Emplace_make_room _ _ _ _ _ _ Hv Hi Hlt) as Hroom.
  cbv zeta in Hroom. fold lm in Hroom. fold room in Hroom.
  pose proof Hv as (Hb & Hs & Hle & Hc). simpl in Hb, Hs, Hle, Hc.
  assert (Hlm : length lm = length es) by apply length_last_moved.
  assert (Hhr : block_of (set_block p room h) p = Some room).
  { eapply block_of_set_block; [exact Hb|].
    rewrite length_layout by lia. unfold room. len. }
  unfold Insert, Emplace, begin, end_, Capacity. simpl.
  rewrite (bind_Some _ _ _ _ _ (position_in_range _ h _ _ i s Hb Hi)).
  rewrite (bind_Some _ _ _ _ _
    (position_shift _ h _ _ i Hb ltac:(rewrite length_layout; lia))).
  rewrite N2Nat.id.
  replace (s =? c)%N with false by (symmetry; apply N.eqb_neq; lia).
  pose proof (load_block _ _ _ k Hhr) as Hload. rewrite Hk in Hload.
  erewrite bind_Some; last first.
  { rewrite (bind_Some _ _ _ _ _ Hroom).
    rewrite (bind_Some _ _ _ _ _
      (RawMemory_plus_Some _ (mkRawMemory p c) i ltac:(simpl; lia))).
    cbn [buffer_].
    erewrite bind_Some; [by rewrite ret_Some|].
    unfold construct_from. cbn [forward_args].
    rewrite (bind_Some _ _ _ _ _ Hload).
    eapply (construct_at_at _ p i (Some <$> take (N.to_nat i) lm) None);
      [exact Hhr|len]. }
  simpl. rewrite size_add_exact by lia. rewrite set_block_set_block.
  unfold layout. rewrite fmap_app, fmap_cons, <- app_assoc. simpl.
  replace (length (take (N.to_nat i) lm ++ x :: drop (N.to_nat i) lm))
    with (S (length es)) by len.
  done.
Qed.


Lemma last_moved_lookup es j :
  S j < length es → last_moved es !! j = es !! j.
Proof.
  destruct es as [|z es _] using rev_ind; [simpl; lia|].
  rewrite last_moved_snoc, length_app. simpl. intros Hj.
  by rewrite !lookup_app_l by lia.
Qed.

(** X22. [v.Insert(v.begin() + i, v[k])], the insertion of a copy of an
    element of the vector itself.  On a full vector it is safe: the copy
    is made in the new block before the elements are relocated.  On a
    vector with room the reference is read after the elements from
    position [i] on have been shifted to the right: for [k > i] the call
    inserts the element of index [k - 1], not the one of index [k], and
    for [k < i] the element it finds at index [k], which is in its
    moved-from state when it was the last.  (For [k = i] the reference is
    to the slot that has just been destroyed; what is read there depends
    on the destructor of [T], and nothing is stated.) *)
Theorem Insert_reads_own_element_after_shift h v es (i k : N) e :
  is_vector h v es →
  es !! N.to_nat k = Some e → (i ≤ Size v)%N →
  (Size v = Capacity v → (2 * Capacity v < size_modulus)%N →
     ∃ v' r h',
       Insert v (begin v +ₚ i) (begin v +ₚ k) h = Some ((v', r), h')
       ∧ is_vector h' v' (take (N.to_nat i) es ++ e :: drop (N.to_nat i) es))
  ∧ ((Size v < Capacity v)%N → (i < k)%N →
     ∃ y v' r h',
       es !! (N.to_nat k - 1) = Some y
       ∧ Insert v (begin v +ₚ i) (begin v +ₚ k) h = Some ((v', r), h')
       ∧ is_vector h' v' (take (N.to_nat i) (last_moved es) ++ y
                            :: drop (N.to_nat i) (last_moved es)))
  ∧ ((Size v < Capacity v)%N → (k < i)%N →
     ∃ y v' r h',
       last_moved es !! N.to_nat k = Some y
       ∧ Insert v (begin v +ₚ i) (begin v +ₚ k) h = Some ((v', r), h')
       ∧ is_vector h' v' (take (N.to_nat i) (last_moved es) ++ y
                            :: drop (N.to_nat i) (last_moved es))).
Proof.
  intros Hv He Hi. destruct v as [[p c] s].
  unfold Size, Capacity, RawMemory_Capacity, begin, GetAddress in *.
  cbn [data_ size_ buffer_ capacity_] in *.
  pose proof Hv as (Hb & Hs & Hle & Hc). cbn [data_ size_ buffer_ capacity_] in *.
  assert (Hk : N.to_nat k < length es) by (by apply lookup_lt_Some in He).
  set (lm := last_moved es).
  assert (Hlm : length lm = length es) by apply length_last_moved.
  pose proof (length_last_moved es) as Hlm'.
  assert (Hresult : ∀ y, (s < c)%N →
    is_vector (set_block p (layout (take (N.to_nat i) lm ++ y
                                      :: drop (N.to_nat i) lm) c) h)
      (mkVector (mkRawMemory p c) (s + 1))
      (take (N.to_nat i) lm ++ y :: drop (N.to_nat i) lm)).
  { intros y Hlt. repeat split; cbn [data_ buffer_ capacity_ size_]; [|len..].
    eapply block_of_set_block; [exact Hb|].
    rewrite !length_layout; [done|lia|len]. }
  split_and!.
  - intros Heq Hfit.
    assert (Hload : forward_args (FromCopy (p +ₚ k)) h = Some (e, h)).
    { simpl. rewrite (load_block _ _ _ k Hb). unfold layout.
      by rewrite lookup_app_l, list_lookup_fmap, He by len. }
    rewrite <- (take_drop (N.to_nat i) es) in Hv.
    destruct (Emplace_grow _ _ _ _ _ _ _ _ _ i Hload Hv) as [Hrun Hv'];
      [len|done|subst; by apply Hfit|].
    eexists _, _, _. by split; [exact Hrun|].
  - intros Hlt Hik.
    destruct (lookup_lt_is_Some_2 es (N.to_nat k - 1)) as [y Hy]; [lia|].
    exists y.
    assert (((Some <$> take (N.to_nat i) lm) ++ None
              :: (Some <$> drop (N.to_nat i) lm)
              ++ replicate (N.to_nat c - S (length es)) None) !! N.to_nat k
            = Some (Some y)) as Hread.
    { rewrite lookup_app_r by len.
      replace (N.to_nat k - length (Some <$> take (N.to_nat i) lm))
        with (S (N.to_nat k - 1 - N.to_nat i)) by len.
      simpl. rewrite lookup_app_l by len.
      rewrite list_lookup_fmap, lookup_drop.
      replace (N.to_nat i + (N.to_nat k - 1 - N.to_nat i)) with (N.to_nat k - 1) by lia.
      unfold lm. rewrite last_moved_lookup by lia. by rewrite Hy. }
    rewrite (Insert_own_in_place _ _ _ _ _ i k y Hv Hi Hlt Hread). fold lm.
    eexists _, _, _. split; [done|]. split; [done|]. by apply Hresult.
  - intros Hlt Hki.
    destruct (lookup_lt_is_Some_2 lm (N.to_nat k)) as [y Hy]; [lia|].
    exists y.
    assert (((Some <$> take (N.to_nat i) lm) ++ None
              :: (Some <$> drop (N.to_nat i) lm)
              ++ replicate (N.to_nat c - S (length es)) None) !! N.to_nat k
            = Some (Some y)) as Hread.
    { rewrite lookup_app_l by len.
      by rewrite list_lookup_fmap, lookup_take_lt, Hy by lia. }
    rewrite (Insert_own_in_place _ _ _ _ _ i k y Hv Hi Hlt Hread). fold lm.
    eexists _, _, _. split; [done|]. split; [done|]. by apply Hresult.
Qed.

(** ** The two overloads of [PushBack] and their argument *)

Lemma load_same_block h h' b o y :
  h' !! b = h !! b → load (Ptr b o) h = Some (y, h) →
  load (Ptr b o) h' = Some (y, h').
Proof.
  intros Heq Hload. apply load_inv in Hload as (_ & b0 & o0 & cells & [= <- <-] & Hb & Ho).
  eapply load_Some; [|exact Ho]. congruence.
Qed.

Lemma forward_move h src x :
  load src h = Some (x, h) →
  ∃ ha, forward_args (FromMove src) h = Some (x, ha)
        ∧ load src ha = Some (moved x, ha).
Proof.
  intros Hload. pose proof Hload as (_ & b & o & cells & -> & Hb & Ho)%load_inv.
  exists (<[b := <[o := Some (moved x)]> cells]> h). split.
  - cbn [forward_args]. rewrite (bind_Some _ _ _ _ _ Hload).
    by rewrite (bind_Some _ _ _ _ _ (assign_Some _ _ _ _ _ (moved x) Hb Ho)).
  - eapply load_Some; [apply lookup_insert_eq|].
    apply list_lookup_insert_eq. by apply lookup_lt_Some in Ho.
Qed.

(** X23. What the two overloads of [PushBack] do to the object they are
    given, when it is not an element of the vector: both append its value;
    [PushBack(const T&)] leaves the object as it was, [PushBack(T&&)]
    leaves it in its moved-from state.  This holds whether the vector
    grows or not. *)
Theorem PushBack_and_its_argument h v es src x :
  is_vector h v es →
  load src h = Some (x, h) → separate (begin v) src →
  (Size v = Capacity v → (2 * Capacity v < size_modulus)%N) →
  (∃ v' h',
     PushBack v src h = Some (v', h')
     ∧ is_vector h' v' (es ++ [x])
     ∧ load src h' = Some (x, h'))
  ∧ (∃ v' h',
       PushBack_move v src h = Some (v', h')
       ∧ is_vector h' v' (es ++ [x])
       ∧ load src h' = Some (moved x, h')).
Proof.
  intros Hv Hload Hsep Hfit. destruct v as [[p c] s].
  unfold Size, Capacity, RawMemory_Capacity, begin, GetAddress in *.
  cbn [data_ size_ buffer_ capacity_] in *.
  pose proof Hv as (Hb & Hs & Hle & Hc). cbn [data_ size_ buffer_ capacity_] in *.
  destruct (forward_move _ _ _ Hload) as (ha & Hfw & Hmoved).
  assert (Hva : is_vector ha (mkVector (mkRawMemory p c) s) es).
  { eapply is_vector_frame; [|exact Hv].
    eapply forward_args_block_ne; [exact Hfw|]. by intros ? [= <-]. }
  pose proof Hload as (_ & b & o & cells & -> & Hcells & Ho)%load_inv.
  assert (Hfresh : fresh (dom h) ≠ b).
  { pose proof (fresh_block h). intros Heq. congruence. }
  assert (Hkeep : ∀ h0 cells0,
    set_block p cells0 h0 !! b = h0 !! b
    ∧ free_block p (<[fresh (dom h) := cells0]> h0) !! b = h0 !! b).
  { intros h0 cells0. destruct p as [|b1 [|o1]]; simpl;
      rewrite ?lookup_insert_ne by done; try done.
    assert (b1 ≠ b) by (by eapply separate_ne, Hsep).
    by rewrite lookup_delete_ne, !lookup_insert_ne by done. }
  destruct (decide (s = c)) as [Heq|Hne].
  - specialize (Hfit Heq). split.
    + destruct (PushBack_grow h p c s es (Ptr b o) x h Hload Hv Heq Hfit) as [Hrun Hv'].
      eexists _, _. split; [exact Hrun|]. split; [exact Hv'|].
      eapply load_same_block; [apply Hkeep|done].
    + destruct (PushBack_move_grow h p c s es (Ptr b o) x ha Hfw Hva Heq Hfit)
        as [Hrun Hv'].
      eexists _, _. split; [exact Hrun|]. split; [exact Hv'|].
      eapply load_same_block; [apply Hkeep|done].
  - split.
    + destruct (PushBack_in_place h p c s es (Ptr b o) x h Hload Hv) as [Hrun Hv'];
        [lia|].
      eexists _, _. split; [exact Hrun|]. split; [exact Hv'|].
      eapply load_same_block; [apply Hkeep|done].
    + destruct (PushBack_move_in_place h p c s es (Ptr b o) x ha Hfw Hva) as [Hrun Hv'];
        [lia|].
      eexists _, _. split; [exact Hrun|]. split; [exact Hv'|].
      eapply load_same_block; [apply Hkeep|done].
Qed.

(** ** [Erase] of the last element *)

(** X24. Erasing the last element is [PopBack]: [Erase] at [end() - 1]
    leaves the same vector and the same heap as [PopBack], and returns
    the new [end()]. *)
Theorem Erase_last_is_PopBack h v es (i : N) :
  is_vector h v es → (i + 1 = Size v)%N →
  ∃ v' h',
    PopBack v h = Some (v', h')
    ∧ Erase v (begin v +ₚ i) h = Some ((v', end_ v'), h')
    ∧ is_vector h' v' (take (N.to_nat i) es).
Proof.
  intros Hv Hi. destruct v as [[p c] s]. unfold Size, begin, end_, GetAddress in *.
  cbn [data_ size_ buffer_ capacity_] in *.
  destruct es as [|x es _] using rev_ind.
  { destruct Hv as (_ & Hs & _). simpl in Hs. lia. }
  pose proof Hv as (Hb & Hs & _). cbn [data_ size_ buffer_ capacity_] in *.
  rewrite length_app in Hs. simpl in Hs.
  destruct (PopBack_nonempty _ _ _ _ _ _ Hv) as [Hpop Hv'].
  replace (es ++ [x]) with (es ++ x :: []) in Hv by done.
  destruct (Erase_spec _ _ _ _ _ _ _ i Hv) as [Hrun _]; [lia|].
  rewrite app_nil_r in Hrun.
  eexists _, _. split; [exact Hpop|]. cbn [data_ size_ buffer_].
  split; [rewrite Hrun; by replace (s - 1)%N with i by lia|].
  rewrite take_app_le, take_ge by lia. exact Hv'.
Qed.

(** ** [Resize] and the block *)

(** X25. [Resize(n)] with [n] within the capacity keeps the block of the
    vector, so iterators stay valid, and allocates or releases nothing;
    beyond the capacity, for a request that fits (the [max (C * 2) n]
    elements it reserves times [sizeof(T)] is a [size_t]), it moves the
    elements to a block that was not allocated before and releases the old
    one. *)
Theorem Resize_and_the_block h v es (n : N) :
  is_vector h v es →
  ((Capacity v < n)%N → fits (N.max (size_mul (Capacity v) 2) n)) →
  ∃ v' h',
    Resize v n h = Some (v', h')
    ∧ ((n ≤ Capacity v)%N → data_ v' = data_ v ∧ dom h' = dom h)
    ∧ ((Capacity v < n)%N →
         (∃ b, begin v' = Ptr b 0 ∧ h !! b = None)
         ∧ (∀ b, begin v = Ptr b 0 → h' !! b = None)).
Proof.
  intros Hv Hreq. destruct v as [[p c] s].
  unfold Capacity, RawMemory_Capacity, begin, GetAddress in *.
  cbn [data_ size_ buffer_ capacity_] in *.
  pose proof Hv as (Hb & Hs & Hle & _). cbn [data_ size_ buffer_ capacity_] in *.
  assert (Hn : (c < n)%N → (n < size_modulus)%N).
  { intros Hcn. pose proof (fits_size_t _ (Hreq Hcn)). lia. }
  destruct (N.lt_ge_cases n s) as [Hlt|Hge].
  - destruct (Resize_shrink _ _ _ _ _ _ Hv Hlt) as [Hrun Hv'].
    eexists _, _. split; [exact Hrun|]. cbn [data_ buffer_]. split; [|lia].
    intros _. split; [done|]. by eapply dom_set_block.
  - destruct (N.le_gt_cases n c) as [Hfit|Hgrow].
    + destruct (Resize_in_place _ _ _ _ _ _ Hv Hge Hfit) as [Hrun Hv'].
      eexists _, _. split; [exact Hrun|]. cbn [data_ buffer_]. split; [|lia].
      intros _. split; [done|]. by eapply dom_set_block.
    + destruct (Resize_grow _ _ _ _ _ _ Hv Hgrow (Hn Hgrow)) as [Hrun Hv'].
      eexists _, _. split; [exact Hrun|]. cbn [data_ buffer_]. split; [lia|].
      intros _. split; [exists (fresh (dom h)); split; [done|apply fresh_block]|].
      intros b ->. simpl. apply lookup_delete_eq.
Qed.

(** ** Element types whose moved-from state is the value *)



End further.

(** * The further properties on the example states *)

Lemma RawMemory_move_assign_keeps_old_block_witness :
  ∃ this' rhs' h',
    RawMemory_move_assign 1 2 (data_ ints) RawMemory_default ints_heap
    = Some ((this', rhs'), h')
    ∧ GetAddress this' = nullptr ∧ GetAddress rhs' = nullptr
    ∧ h' !! 7%N = Some [Some 1; Some 2; Some 3; None]%Z.
Proof.
  destruct (RawMemory_move_assign_keeps_old_block ints_heap 1 2 (data_ ints)
              RawMemory_default 7 [Some 1; Some 2; Some 3; None]%Z)
    as ((this' & rhs' & h' & Hrun & Ht & _ & Hr & _ & Hb & _) & _);
    [lia|reflexivity|reflexivity|discriminate|].
  exists this', rhs', h'. split; [exact Hrun|]. split; [exact Ht|].
  split; [exact Hr|exact Hb].
Defined.

Lemma RawMemory_new_destroy_round_trip_witness :
  ∃ rm h1,
    @RawMemory_new Z 3 ints_heap = Some (rm, h1)
    ∧ RawMemory_Capacity rm = 3%N
    ∧ block_of h1 (GetAddress rm) = Some [None; None; None]
    ∧ RawMemory_destroy rm h1 = Some (tt, ints_heap).
Proof.
  destruct (RawMemory_new_destroy_round_trip ints_heap 3)
    as (rm & h1 & Hrun & Hc & Hb & _ & _ & Hfree & _); [reflexivity|].
  exists rm, h1. split; [exact Hrun|]. split; [exact Hc|].
  split; [exact Hb|exact Hfree].
Defined.

Lemma sized_constructor_witness :
  ∃ v h',
    Vector_sized 2 ints_heap = Some (v, h')
    ∧ is_vector h' v [0; 0]%Z ∧ Size v = 2%N ∧ Capacity v = 2%N.
Proof.
  destruct (sized_constructor ints_heap 2) as (v & h' & Hrun & Hv & Hs & Hc & _);
    [reflexivity|].
  exists v, h'. split; [exact Hrun|]. split; [exact Hv|]. split; [exact Hs|exact Hc].
Defined.

Lemma copy_constructor_witness :
  ∃ v h',
    Vector_copy ints ints_heap = Some (v, h')
    ∧ is_vector h' v [1; 2; 3]%Z ∧ is_vector h' ints [1; 2; 3]%Z
    ∧ Capacity v = 3%N.
Proof.
  destruct (copy_constructor ints_heap ints [1; 2; 3]%Z)
    as (v & h' & Hrun & Hv & Ho & _ & Hc & _); [holds|].
  exists v, h'. split; [exact Hrun|]. split; [exact Hv|]. split; [exact Ho|exact Hc].
Defined.

Lemma move_constructor_witness :
  ∃ v other',
    Vector_move ints = (v, other')
    ∧ is_vector ints_heap v [1; 2; 3]%Z ∧ is_vector ints_heap other' []
    ∧ Capacity other' = 0%N.
Proof.
  destruct (move_constructor ints_heap ints [1; 2; 3]%Z)
    as (v & other' & Hrun & Hv & _ & _ & _ & Ho & _ & _ & Hc & _); [holds|].
  exists v, other'. split; [exact Hrun|]. split; [exact Hv|].
  split; [exact Ho|exact Hc].
Defined.

Lemma destructor_releases_block_witness :
  ∃ h',
    Vector_destroy ints ints_heap = Some (tt, h') ∧ h' !! 7%N = None
    ∧ (copy ← Vector_copy ints; Vector_destroy copy) ints_heap = Some (tt, ints_heap).
Proof.
  destruct (destructor_releases_block ints_heap ints [1; 2; 3]%Z)
    as (h' & Hrun & Hfreed & _ & Hround); [holds|].
  exists h'. split; [exact Hrun|]. split; [apply Hfreed; reflexivity|exact Hround].
Defined.

Lemma Swap_exchanges_witness :
  ∃ a' c',
    Swap names other_names = (a', c')
    ∧ is_vector names_heap a' ["eve"]%string
    ∧ is_vector names_heap c' ["ann"; "bob"]%string
    ∧ Vector_move_assign names other_names = (a', c').
Proof.
  destruct (Swap_exchanges names_heap names other_names
              ["ann"; "bob"]%string ["eve"]%string)
    as (a' & c' & Hrun & Ha & Hc & _ & _ & _ & _ & _ & Hmove & _); [holds|holds|].
  exists a', c'. split; [exact Hrun|]. split; [exact Ha|].
  split; [exact Hc|exact Hmove].
Defined.

Lemma index_within_size_witness :
  Vector_index ints 1 ints_heap = Some (Ptr 7 1, ints_heap)
  ∧ load (Ptr 7 1) ints_heap = Some (2%Z, ints_heap)
  ∧ Vector_index ints 3 ints_heap = None.
Proof.
  destruct (index_within_size ints_heap ints [1; 2; 3]%Z 1) as [Hin _]; [holds|].
  destruct (index_within_size ints_heap ints [1; 2; 3]%Z 3) as [_ Hout]; [holds|].
  destruct Hin as (x & Hx & Hidx & Hload); [reflexivity|].
  injection Hx as <-.
  split; [exact Hidx|]. split; [exact Hload|]. apply Hout.
  apply N.leb_le. reflexivity.
Defined.

Lemma iterator_range_witness :
  ptr_diff (end_ ints) (begin ints) = Some 3
  ∧ load (begin ints +ₚ 2) ints_heap = Some (3%Z, ints_heap)
  ∧ load (end_ ints) ints_heap = None.
Proof.
  destruct (iterator_range ints_heap ints [1; 2; 3]%Z)
    as (Hdiff & _ & Hread & Hend & _); [holds|].
  split; [exact Hdiff|]. split; [|exact Hend]. apply (Hread 2). reflexivity.
Defined.

Lemma copy_assignment_beyond_capacity_witness :
  ∃ v' h',
    Vector_assign 2 1 other_names names names_heap = Some (v', h')
    ∧ is_vector h' v' ["ann"; "bob"]%string
    ∧ is_vector h' names ["ann"; "bob"]%string
    ∧ Capacity v' = 2%N ∧ h' !! 5%N = None.
Proof.
  destruct (copy_assignment_beyond_capacity names_heap 2 1 other_names names
              ["eve"]%string ["ann"; "bob"]%string)
    as (v' & h' & Hrun & Hv' & Ho & _ & Hc & _ & Hfreed & _);
    [lia|holds|holds|intros b o o' [= <- <-] [=]|reflexivity|].
  exists v', h'. split; [exact Hrun|]. split; [exact Hv'|]. split; [exact Ho|].
  split; [exact Hc|]. apply Hfreed. reflexivity.
Defined.

Lemma append_with_room_witness :
  ∃ v' r h',
    EmplaceBack ints (FromArgs 4%Z) ints_heap = Some ((v', r), h')
    ∧ is_vector h' v' [1; 2; 3; 4]%Z ∧ data_ v' = data_ ints
    ∧ r = Ptr 7 3 ∧ load r h' = Some (4%Z, h').
Proof.
  destruct (append_with_room ints_heap ints [1; 2; 3]%Z (FromArgs 4%Z) 4%Z ints_heap)
    as ((v' & r & h' & Hrun & Hv' & Hd & _ & Hr & Hload & _) & _);
    [holds|reflexivity|reflexivity|holds|].
  exists v', r, h'. split; [exact Hrun|]. split; [exact Hv'|]. split; [exact Hd|].
  split; [exact Hr|exact Hload].
Defined.

Lemma PushBack_of_own_element_witness :
  ∃ v' h',
    (value ← Vector_index full_ints 0; PushBack full_ints value) full_ints_heap
    = Some (v', h')
    ∧ is_vector h' v' [1; 2; 3; 1]%Z.
Proof.
  destruct (PushBack_of_own_element full_ints_heap full_ints [1; 2; 3]%Z 0 1%Z)
    as (v' & h' & Hrun & Hv' & _); [holds|reflexivity|reflexivity|].
  exists v', h'. split; [exact Hrun|exact Hv'].
Defined.

Lemma position_out_of_range_witness :
  Erase ints (end_ ints) ints_heap = None
  ∧ Emplace ints (begin ints +ₚ 4) (FromArgs 9%Z) ints_heap = None.
Proof.
  destruct (position_out_of_range ints_heap ints [1; 2; 3]%Z 3 (FromArgs 9%Z))
    as (Herase & _ & _); [holds|].
  destruct (position_out_of_range ints_heap ints [1; 2; 3]%Z 4 (FromArgs 9%Z))
    as (_ & Hemplace & _); [holds|].
  split; [apply Herase; apply N.leb_le; reflexivity|].
  apply Hemplace; reflexivity.
Defined.

Lemma EmplaceBack_then_PopBack_witness :
  ∃ v1 r h1,
    EmplaceBack ints (FromArgs 4%Z) ints_heap = Some ((v1, r), h1)
    ∧ PopBack v1 h1 = Some (ints, ints_heap).
Proof.
  destruct (EmplaceBack_then_PopBack ints_heap ints [1; 2; 3]%Z 4%Z)
    as (v1 & r & h1 & v2 & h2 & Hrun & Hpop & _ & _ & Hsame & _);
    [holds|intros [=]|].
  destruct Hsame as [-> ->]; [reflexivity|].
  exists v1, r, h1. split; [exact Hrun|exact Hpop].
Defined.

Lemma Reserve_then_appends_witness :
  ∃ v1 h1 v2 h2,
    Reserve ints 6 ints_heap = Some (v1, h1)
    ∧ EmplaceBack_each v1 [4; 5; 6]%Z h1 = Some (v2, h2)
    ∧ is_vector h2 v2 [1; 2; 3; 4; 5; 6]%Z
    ∧ data_ v2 = data_ v1.
Proof.
  destruct (Reserve_then_appends ints_heap ints [1; 2; 3]%Z 6 [4; 5; 6]%Z)
    as (v1 & h1 & v2 & h2 & Hres & Hrun & Hv2 & Hd & _);
    [holds|reflexivity|apply N.leb_le; reflexivity|].
  exists v1, h1, v2, h2. split; [exact Hres|]. split; [exact Hrun|].
  split; [exact Hv2|exact Hd].
Defined.

Lemma appends_from_empty_witness :
  ∃ v h',
    EmplaceBack_each Vector_default [1; 2; 3; 4; 5]%Z ints_heap = Some (v, h')
    ∧ is_vector h' v [1; 2; 3; 4; 5]%Z
    ∧ (5 ≤ Capacity v < 10)%N.
Proof.
  destruct (appends_from_empty ints_heap [1; 2; 3; 4; 5]%Z)
    as (v & h' & Hrun & Hv & Hs & _ & Hc); [discriminate|apply N.leb_le; reflexivity|].
  exists v, h'. split; [exact Hrun|]. split; [exact Hv|].
  rewrite Hs in Hc. exact Hc.
Defined.


Lemma programs_do_not_leak_witness :
  no_garbage client_world ∧ no_dangling client_world
  ∧ ∃ w, run (client_program ++ [Destroy 2; Destroy 3; Destroy 4]) client_start = Some w
         ∧ memory w = ∅.
Proof.
  destruct (programs_do_not_leak client_program client_world)
    as (Hg & Hd & _); [vm_compute; reflexivity|].
  split; [exact Hg|]. split; [exact Hd|].
  exists {| vectors := ∅; memory := ∅ |}.
  assert (Hrun : run (client_program ++ [Destroy 2; Destroy 3; Destroy 4]) client_start
                 = Some {| vectors := ∅; memory := ∅ |}) by (vm_compute; reflexivity).
  split; [exact Hrun|].
  apply (programs_do_not_leak _ _ Hrun). reflexivity.
Defined.


Lemma growth_invalidates_iterators_witness :
  ∃ v' h',
    Reserve ints 10 ints_heap = Some (v', h')
    ∧ load (begin ints +ₚ 1) ints_heap = Some (2%Z, ints_heap)
    ∧ load (begin ints +ₚ 1) h' = None.
Proof.
  destruct (growth_invalidates_iterators ints_heap ints [1; 2; 3]%Z 7) as [Hres _];
    [holds|reflexivity|].
  destruct (Hres 10%N) as (v' & h' & Hrun & _ & _ & Hgone); [reflexivity|reflexivity|].
  exists v', h'. split; [exact Hrun|]. split; [reflexivity|apply Hgone].
Defined.

Lemma copy_is_independent_witness :
  ∃ c h1 c' r h2,
    Vector_copy ints ints_heap = Some (c, h1)
    ∧ EmplaceBack c (FromArgs 4%Z) h1 = Some ((c', r), h2)
    ∧ is_vector h2 c' [1; 2; 3; 4]%Z
    ∧ is_vector h2 ints [1; 2; 3]%Z
    ∧ Vector_destroy c' h2 = Some (tt, ints_heap).
Proof.
  destruct (copy_is_independent ints_heap ints [1; 2; 3]%Z 4%Z)
    as (c & h1 & c' & r & h2 & Hcopy & Hrun & Hc' & Hv & Hd); [holds|reflexivity|].
  exists c, h1, c', r, h2. split; [exact Hcopy|]. split; [exact Hrun|].
  split; [exact Hc'|]. split; [exact Hv|exact Hd].
Defined.

Lemma Insert_reads_own_element_after_shift_witness :
  ∃ v' r h',
    Insert ints (begin ints +ₚ 0) (begin ints +ₚ 2) ints_heap = Some ((v', r), h')
    ∧ is_vector h' v' [2; 1; 2; 3]%Z.
Proof.
  destruct (Insert_reads_own_element_after_shift ints_heap ints [1; 2; 3]%Z 0 2 3%Z)
    as (_ & Hshifted & _); [holds|reflexivity|apply N.leb_le; reflexivity|].
  destruct Hshifted as (y & v' & r & h' & Hy & Hrun & Hv'); [reflexivity|reflexivity|].
  injection Hy as <-. exists v', r, h'. split; [exact Hrun|exact Hv'].
Defined.

Lemma PushBack_and_its_argument_witness :
  (∃ v' h',
     PushBack names (Ptr 5 0) names_heap = Some (v', h')
     ∧ is_vector h' v' ["ann"; "bob"; "eve"]%string
     ∧ load (Ptr 5 0) h' = Some ("eve"%string, h'))
  ∧ (∃ v' h',
       PushBack_move names (Ptr 5 0) names_heap = Some (v', h')
       ∧ is_vector h' v' ["ann"; "bob"; "eve"]%string
       ∧ load (Ptr 5 0) h' = Some (EmptyString, h')).
Proof.
  destruct (PushBack_and_its_argument names_heap names ["ann"; "bob"]%string
              (Ptr 5 0) "eve"%string)
    as [(v1 & h1 & Hrun1 & Hv1 & Hsrc1) (v2 & h2 & Hrun2 & Hv2 & Hsrc2)];
    [holds|reflexivity|intros b o o' [= <- <-] [=]|intros [=]|].
  split.
  - exists v1, h1. split; [exact Hrun1|]. split; [exact Hv1|exact Hsrc1].
  - exists v2, h2. split; [exact Hrun2|]. split; [exact Hv2|exact Hsrc2].
Defined.

Lemma Erase_last_is_PopBack_witness :
  ∃ v' h',
    PopBack ints ints_heap = Some (v', h')
    ∧ Erase ints (begin ints +ₚ 2) ints_heap = Some ((v', end_ v'), h')
    ∧ is_vector h' v' [1; 2]%Z.
Proof.
  destruct (Erase_last_is_PopBack ints_heap ints [1; 2; 3]%Z 2)
    as (v' & h' & Hpop & Hrun & Hv'); [holds|reflexivity|].
  exists v', h'. split; [exact Hpop|]. split; [exact Hrun|exact Hv'].
Defined.

Lemma Resize_and_the_block_witness :
  ∃ v' h',
    Resize ints 2 ints_heap = Some (v', h')
    ∧ data_ v' = data_ ints ∧ dom h' = dom ints_heap.
Proof.
  destruct (Resize_and_the_block ints_heap ints [1; 2; 3]%Z 2)
    as (v' & h' & Hrun & Hkeep & _); [holds|reflexivity|].
  exists v', h'. split; [exact Hrun|]. apply Hkeep. apply N.leb_le. reflexivity.
Defined.

